(** * Soprano: NMR property engine, EFG derived quantities and site aggregation

    A shallow embedding of
      - [soprano/properties/atomsproperty.py]  (module [AtomsProperty]),
      - [soprano/properties/nmr/efg.py]        (module [EFG]),
      - [soprano/scripts/nmr.py]               (module [NMRScript]).

    Conventions of the embedding.
      - Python exceptions are values of [exn]; a computation that may raise
        returns [res A = exn + A]; a computation that also mutates or prints
        is a function [St -> res A * St] (monad [M St]), the final state
        being the one reached when the exception was raised.
      - NumPy / Python floats that are computed from tensor data are
        idealised as real numbers ([R]); isotope table constants (nuclear
        spin, quadrupole moment), which are short decimal literals, are
        rationals ([Q]).
      - Functions that live outside the three files above (eigen-solver,
        isotope tables, tensor and quaternion averages, bond search) are
        fields of a class or section variables. *)

From Stdlib Require Import ZArith QArith Qround Reals Qreals Lra Lia List String Ascii.
From Stdlib Require Import DecimalString DecimalNat DecimalN Sorted.
From stdpp Require Import base list strings gmap.

Set Warnings "-register-all".

Local Open Scope string_scope.
Local Open Scope list_scope.

(** ** Python exceptions and the two effect monads *)

Inductive exn : Type :=
| RuntimeError (msg : string)
| ValueError (msg : string)
| TypeError
| IndexError
| KeyError
| AssertionError.

Definition res (A : Type) : Type := (exn + A)%type.

Definition M (St A : Type) : Type := St -> res A * St.

#[global] Instance res_ret : MRet res := fun _ a => inr a.
#[global] Instance res_bind : MBind res :=
  fun _ _ f m => match m with inl e => inl e | inr a => f a end.
#[global] Instance res_fmap : FMap res :=
  fun _ _ f m => match m with inl e => inl e | inr a => inr (f a) end.

#[global] Instance M_ret St : MRet (M St) := fun _ a st => (inr a, st).
#[global] Instance M_bind St : MBind (M St) :=
  fun _ _ f m st =>
    match m st with
    | (inl e, st') => (inl e, st')
    | (inr a, st') => f a st'
    end.
#[global] Instance M_fmap St : FMap (M St) :=
  fun _ _ f m st =>
    match m st with
    | (inl e, st') => (inl e, st')
    | (inr a, st') => (inr (f a), st')
    end.

Definition raise {St A} (e : exn) : M St A := fun st => (inl e, st).
Definition lift {St A} (r : res A) : M St A := fun st => (r, st).
Definition modify {St} (f : St -> St) : M St unit := fun st => (inr tt, f st).
Definition gets {St A} (f : St -> A) : M St A := fun st => (inr (f st), st).

(** [l[-1]] on a Python list. *)
Fixpoint py_last {A} (l : list A) : res A :=
  match l with
  | [] => inl IndexError
  | [x] => inr x
  | _ :: l' => py_last l'
  end.

(** NumPy broadcasting of a binary operation over two 1-D arrays. *)
Definition broadcast (f : R -> R -> R) (xs ys : list R) : res (list R) :=
  if (length xs =? length ys)%nat then inr (zip_with f xs ys)
  else match xs, ys with
       | [x], _ => inr (map (f x) ys)
       | _, [y] => inr (map (fun x => f x y) xs)
       | _, _ => inl (ValueError "operands could not be broadcast together")
       end.

(** [l[i]] for a non-negative [i]. *)
Definition py_index {A} (l : list A) (i : nat) : res A :=
  match l !! i with Some x => inr x | None => inl IndexError end.

(** [str(n)] for a non-negative integer. *)
Definition str_nat (n : nat) : string :=
  NilEmpty.string_of_uint (Nat.to_uint n).

(** ** [soprano/properties/atomsproperty.py] *)

Module AtomsProperty.

(** A value returned by [extract]. [VNum] is a built-in Python number,
    [VArray] a one-dimensional NumPy array, [VList] a Python [list], and
    [VObj] any other object (a tensor, a quaternion, a dict). *)
Inductive value (object : Type) : Type :=
| VNone
| VNum (x : R)
| VArray (xs : list R)
| VObj (o : object)
| VList (l : list (value object)).

Arguments VNone {object}.
Arguments VNum {object} x.
Arguments VArray {object} xs.
Arguments VObj {object} o.
Arguments VList {object} l.

(** What [get] can be called on: an [ase.Atoms] object, an
    [AtomsCollection], or a Python list (a trajectory). *)
Inductive input (structure : Type) : Type :=
| Atoms (a : structure)
| Collection (c : list structure)
| PyList (l : list (input structure)).

Arguments Atoms {structure} a.
Arguments Collection {structure} c.
Arguments PyList {structure} l.

(** Observable effects of a call to [get]: an invocation of [extract] on a
    structure, and an array stored by [s.set_array(name, arr)] on a
    collection. *)
Inductive event (structure params object : Type) : Type :=
| Extracted (a : structure) (p : params)
| SetArray (name : string) (arr : value object).

Arguments Extracted {structure params object} a p.
Arguments SetArray {structure params object} name arr.

(** The class attributes and the static method that a concrete property
    (a subclass of [AtomsProperty]) provides. [update d k] is
    [d.update(k)] on parameter dictionaries. *)
Class Property (structure params object : Type) : Type := {
  default_name : string;
  default_params : params;
  update : params -> params -> params;
  extract : structure -> params -> res (value object)
}.

(** What [get] uses from outside this file. *)
Class Host (object : Type) : Type := {
  (** [hasattr(x, 'data')] *)
  has_data : value object -> bool;
  (** [NMRTensor.average], defined in [soprano/nmr/tensor.py] *)
  NMRTensor_average : list (value object) -> res (value object);
  (** [+] and [/] for operand pairs whose meaning is decided by NumPy
      coercion or by a user-defined [__add__] or [__truediv__] *)
  foreign_add : value object -> value object -> res (value object);
  foreign_truediv : value object -> R -> res (value object);
  (** [AtomsCollection.set_array(name, arr)], defined in
      [soprano/collection]: what the call raises instead of storing [arr]
      (a [ValueError] when the per-structure results do not make one
      array, as when their lengths differ) *)
  set_array_check : string -> value object -> res unit
}.

Section Get.

Context {structure params object : Type}.
Context {P : Property structure params object} {H : Host object}.

#[local] Abbreviation value := (value object).
#[local] Abbreviation trace := (list (event structure params object)).

(** [a + b]. *)
Definition py_add (a b : value) : res value :=
  match a, b with
  | VNum x, VNum y => inr (VNum (x + y))
  | VNum x, VArray ys => inr (VArray (map (Rplus x) ys))
  | VArray xs, VNum y => inr (VArray (map (fun x => (x + y)%R) xs))
  | VArray xs, VArray ys => VArray <$> broadcast Rplus xs ys
  | VList l1, VList l2 => inr (VList (l1 ++ l2))
  | VNum _, VList _ | VList _, VNum _
  | VNone, VNone | VNone, VNum _ | VNum _, VNone
  | VNone, VList _ | VList _, VNone => inl TypeError
  | _, _ => foreign_add a b
  end.

(** [a / n] for a Python [int] [n]. *)
Definition py_truediv (a : value) (n : nat) : res value :=
  match a with
  | VNum x => inr (VNum (x / INR n))
  | VArray xs => inr (VArray (map (fun x => (x / INR n)%R) xs))
  | VList _ | VNone => inl TypeError
  | VObj _ => foreign_truediv a (INR n)
  end.

(** [sum(results)]: a left fold of [+] that starts from the integer [0]. *)
Fixpoint sum_from (acc : value) (results : list value) : res value :=
  match results with
  | [] => inr acc
  | r :: rs => acc' ← py_add acc r; sum_from acc' rs
  end.

Definition py_sum (results : list value) : res value :=
  sum_from (VNum 0) results.

(** [len(r)] and [r[i]]. *)
Definition py_len (r : value) : res nat :=
  match r with
  | VList l => inr (length l)
  | VArray xs => inr (length xs)
  | _ => inl TypeError
  end.

Definition py_getitem (r : value) (i : nat) : res value :=
  match r with
  | VList l => match l !! i with Some v => inr v | None => inl IndexError end
  | VArray xs =>
      match xs !! i with Some x => inr (VNum x) | None => inl IndexError end
  | _ => inl TypeError
  end.

(** [min(len(r) for r in results)]. *)
Definition min_len (results : list value) : res nat :=
  lens ← mapM py_len results;
  match lens with
  | [] => inl (ValueError "min() arg is an empty sequence")
  | n :: ns => inr (fold_left Nat.min ns n)
  end.

(** The final [else] branch of [get]: [self.extract(s, **params)] with
    [params = dict(default_params); params.update(kwargs)]. *)
Definition call_extract (kwargs : params) (a : structure) : M trace value :=
  fun tr =>
    let p := update default_params kwargs in
    (extract a p, tr ++ [Extracted a p]).

(** [self.get(s, **kwargs)]: the recursive calls made by [get] pass only
    [kwargs], so they run with [store_array=False] and [average=False]. *)
Fixpoint get_default (kwargs : params) (s : input structure) : M trace value :=
  match s with
  | Atoms a => call_extract kwargs a
  | Collection c => arr ← mapM (call_extract kwargs) c; mret (VList arr)
  | PyList l =>
      (fix last_frame (l : list (input structure)) : M trace value :=
         match l with
         | [] => raise IndexError
         | [x] => get_default kwargs x
         | _ :: l' => last_frame l'
         end) l
  end.

(** [[NMRTensor.average([r[i] for r in results]) for i in range(n_atoms)]]. *)
Definition tensor_average (results : list value) : res value :=
  n_atoms ← min_len results;
  sites ← mapM (fun i => column ← mapM (fun r => py_getitem r i) results;
                         NMRTensor_average column)
               (seq 0 n_atoms);
  mret (VList sites).

(** [sum(results) / len(results) if results else None]. *)
Definition mean_or_none (results : list value) : res value :=
  match results with
  | [] => inr VNone
  | _ => total ← py_sum results; py_truediv total (length results)
  end.

(** Lines 92-99: what is returned from the per-frame [results]. *)
Definition fold_frames (results : list value) : res value :=
  match results with
  | VList (r00 :: _) :: _ =>
      if has_data r00 then tensor_average results else mean_or_none results
  | _ => mean_or_none results
  end.

(** [s.set_array(name, arr)] on a collection: the array is stored unless
    the call raises. *)
Definition collection_set_array (name : string) (arr : value) : M trace unit :=
  fun tr =>
    match set_array_check name arr with
    | inl e => (inl e, tr)
    | inr _ => (inr tt, tr ++ [SetArray name arr])
    end.

(** [AtomsProperty.get(s, store_array, average, **kwargs)]. On a
    collection, [s.all.map(self.get, **kwargs)] (of [soprano/collection])
    calls [self.get] on every structure, in order, and returns the list. *)
Definition get (s : input structure) (store_array average : bool)
  (kwargs : params) : M trace value :=
  match s with
  | Collection c =>
      arr ← mapM (call_extract kwargs) c;
      (if store_array
       then collection_set_array default_name (VList arr)
       else mret tt);;
      mret (VList arr)
  | PyList l =>
      if average then
        results ← mapM (get_default kwargs) l;
        lift (fold_frames results)
      else
        last ← lift (py_last l);
        get_default kwargs last
  | Atoms a => call_extract kwargs a
  end.

(** The claim's reading of the averaging rule, to be compared with
    [fold_frames]: per-frame results that are lists of objects carrying a
    ['data'] attribute are averaged site by site up to the shortest frame,
    anything else is averaged arithmetically. *)
Definition is_tensor_list (r : value) : bool :=
  match r with
  | VList l => forallb has_data l
  | _ => false
  end.

Definition spec_fold_frames (results : list value) : res value :=
  if forallb is_tensor_list results
  then tensor_average results
  else mean_or_none results.

(** The entries at site [i] across the frames, the length of the shortest
    frame, and the column-wise mean of equally long arrays. *)
Definition site_column (frames : list (list value)) (i : nat) : list value :=
  omap (fun sites => sites !! i) frames.

Definition shortest (frames : list (list value)) : nat :=
  match map length frames with
  | [] => 0%nat
  | n :: ns => fold_left Nat.min ns n
  end.

Definition Rsum (xs : list R) : R := fold_right Rplus 0%R xs.

Definition array_mean (xss : list (list R)) (k : nat) : list R :=
  map (fun i => (Rsum (map (fun xs => nth i xs 0%R) xss) / INR (length xss))%R)
      (seq 0 k).

End Get.

(** *** [__init__] and [__call__] *)

(** An instance of a property: its [name] and its [params] dictionary. *)
Record instance (V : Type) : Type := {
  self_name : string;
  self_params : gmap string V
}.

Arguments self_name {V} i.
Arguments self_params {V} i.

Section Call.

Context {structure V object : Type}.
Context {P : Property structure (gmap string V) object} {H : Host object}.

#[local] Abbreviation value := (value object).
#[local] Abbreviation trace := (list (event structure (gmap string V) object)).

(** Lines 51-58: the loop over the keyword arguments, in the order in which
    they were passed, on [self.params]. *)
Fixpoint validate (class_name : string) (self_params : gmap string V)
  (params : list (string * V)) : res (gmap string V) :=
  match params with
  | [] => inr self_params
  | (p, v) :: params' =>
      if bool_decide (is_Some (self_params !! p))
      then validate class_name (<[p := v]> self_params) params'
      else inl (ValueError ("Invalid argument passed to '" +:+ class_name +:+ "'"))
  end.

(** [Class(name, **params)], [class_name] being [Class.__name__]. *)
Definition __init__ (class_name : string) (name : option string)
  (params : list (string * V)) : res (instance V) :=
  let name := match name with Some name => name | None => default_name end in
  self_params ← validate class_name default_params params;
  mret {| self_name := name; self_params := self_params |}.

(** [self.extract(s, **self.params)]. *)
Definition call_instance (self : instance V) (a : structure) : M trace value :=
  fun tr => (extract a (self_params self), tr ++ [Extracted a (self_params self)]).

(** [self(s, store_array)] on a structure ([inl]) or on a collection
    ([inr]); anything that is not a collection is handed to [extract]. *)
Definition __call__ (self : instance V) (s : structure + list structure)
  (store_array : bool) : M trace value :=
  match s with
  | inr c =>
      arr ← mapM (call_instance self) c;
      (if store_array
       then collection_set_array (self_name self) (VList arr)
       else mret tt);;
      mret (VList arr)
  | inl a => call_instance self a
  end.

End Call.

Section Events.

Context {structure params object : Type}.
Context {P : Property structure params object}.

(** A run of events that are all calls of [extract] with the default
    parameters updated by [kwargs]. *)
Definition only_extracts (kwargs : params)
  (evs : list (event structure params object)) : Prop :=
  Forall (fun ev => exists a, ev = Extracted a (update default_params kwargs)) evs.

End Events.

(** A stand-in for the check of [AtomsCollection.set_array]: the
    per-structure results, when they are lists, are to be of one
    length. *)
Definition one_length {object} (arr : value object) : res unit :=
  match arr with
  | VList (VList first :: rest) =>
      if forallb (fun r => match r with
                           | VList l => (length l =? length first)%nat
                           | _ => false
                           end) rest
      then inr tt
      else inl (ValueError "setting an array element with a sequence")
  | _ => inr tt
  end.

(** A property and a host to run [get] on: a structure is the number of
    its sites, [extract] returns one tensor object per site, and every
    object carries ['data']. *)
#[local] Instance sites_property : Property nat unit nat := {|
  default_name := "sites";
  default_params := tt;
  update := fun _ _ => tt;
  extract := fun n _ => inr (VList (map VObj (seq 0 n)))
|}.

#[local] Instance sites_host : Host nat := {|
  has_data := fun _ => true;
  NMRTensor_average := fun column =>
    match column with c :: _ => inr c | [] => inl IndexError end;
  foreign_add := fun _ _ => inl TypeError;
  foreign_truediv := fun _ _ => inl TypeError;
  set_array_check := fun _ arr => one_length arr
|}.

(** A host whose objects (dictionaries, say) carry no ['data']. *)
#[local] Instance plain_host : Host nat := {|
  has_data := fun _ => false;
  NMRTensor_average := fun _ => inl TypeError;
  foreign_add := fun _ _ => inl TypeError;
  foreign_truediv := fun _ _ => inl TypeError;
  set_array_check := fun _ arr => one_length arr
|}.

(** A property with one number per frame. *)
#[local] Instance scalar_property : Property nat unit nat := {|
  default_name := "scalar";
  default_params := tt;
  update := fun _ _ => tt;
  extract := fun n _ => inr (VNum (INR n))
|}.

(** A property with two parameters, to run [__init__] on. *)
#[local] Instance keyed_property : Property nat (gmap string nat) nat := {|
  default_name := "keyed";
  default_params := {[ "force_recalc" := 0%nat; "order" := 1%nat ]};
  update := fun d k => k ∪ d;
  extract := fun n p => inr (VList (map VObj (seq 0 n)))
|}.

End AtomsProperty.

(** ** [soprano/properties/nmr/efg.py] *)

Module EFG.

(** The NumPy arrays kept on an [ase.Atoms] object, by rank: shape [(N,)],
    [(N, k)] and [(N, k, k)]. *)
Inductive ndarray : Type :=
| Arr1 (v : list R)
| Arr2 (m : list (list R))
| Arr3 (t : list (list (list R))).

(** The structure [s] the extraction runs on, with the standard output of
    the process ([print] writes there). *)
Record state : Type := {
  symbols : list string;
  arrays : gmap string ndarray;
  stdout : list string
}.

(** What an [ElectricFieldGradient] object keeps of the arguments of its
    constructor call [ElectricFieldGradient(efg, species, order=order)],
    when the constructor accepts them. *)
Record ElectricFieldGradient : Type := {
  data : list (list R);
  species : string;
  order : string
}.

(** What [efg.py] imports from [numpy], [soprano.data.nmr],
    [soprano.nmr.utils] and [soprano.nmr.tensor]. [haeb_sort3] and
    [asymmetry3] act on one eigenvalue triple; [isotope_data el iso] is the
    table row [(I, Q)] of isotope [iso] of element [el];
    [tensor_check efg species order] is what the constructor
    [ElectricFieldGradient(efg, species, order=order)] raises instead of
    building the object (a [ValueError] for an order that is none of
    ['i'], ['d'], ['h'], ['n'], or for data that are not a 3x3 matrix). *)
Class Externals : Type := {
  EFG_TO_CHI : R;
  eigh : list (list R) -> list R * list (list R);
  haeb_sort3 : list R -> list R;
  asymmetry3 : list R -> R;
  default_isotope : string -> option nat;
  q_isotope : string -> option nat;
  isotope_data : string -> nat -> option (Q * Q);
  tensor_check : list (list R) -> string -> string -> res unit
}.

Section Extract.

Context {E : Externals}.

(** *** [ase.Atoms] methods and [print] *)

Definition has (name : string) : M state bool :=
  gets (fun st => bool_decide (is_Some (arrays st !! name))).

Definition get_array (name : string) : M state ndarray :=
  fun st =>
    match arrays st !! name with
    | Some a => (inr a, st)
    | None => (inl KeyError, st)
    end.

(** [s.set_array(name, a)]; the check of [ase] that a new value of an
    existing array has its shape is left out. *)
Definition set_array (name : string) (a : ndarray) : M state unit :=
  modify (fun st => {| symbols := symbols st;
                       arrays := <[name := a]> (arrays st);
                       stdout := stdout st |}).

Definition get_chemical_symbols : M state (list string) := gets symbols.

Definition print (line : string) : M state unit :=
  modify (fun st => {| symbols := symbols st;
                       arrays := arrays st;
                       stdout := stdout st ++ [line] |}).

(** *** Array helpers *)

(** [for efg in a]: the 3x3 matrices of an array of shape [(N, 3, 3)]; the
    consumers of the items ([eigh], the tensor constructor) reject items of
    any other rank ([LinAlgError] is a [ValueError]). *)
Definition matrices (a : ndarray) : res (list (list (list R))) :=
  match a with
  | Arr3 t => inr t
  | _ => inl (ValueError "array must be at least two-dimensional")
  end.

Definition entry (m : list (list R)) (i j : nat) : R :=
  default 0%R (m !! i ≫= fun row => row !! j).

(** [(efg + efg.T) / 2.0] *)
Definition symmetrise (m : list (list R)) : list (list R) :=
  imap (fun i row => imap (fun j x => ((x + entry m j i) / 2)%R) row) m.

(** [a[:, -1]] *)
Definition last_column (a : ndarray) : res ndarray :=
  match a with
  | Arr1 _ => inl IndexError
  | Arr2 m => Arr1 <$> mapM py_last m
  | Arr3 t => Arr2 <$> mapM py_last t
  end.

(** [a[i]] where the code goes on to use the item as a scalar: [a] has
    shape [(N,)]. (An array of higher rank would make the arithmetic that
    follows array-valued; the model reports that case as a [TypeError].) *)
Definition item (a : ndarray) (i : nat) : res R :=
  match a with
  | Arr1 v => match v !! i with Some x => inr x | None => inl IndexError end
  | _ => inl TypeError
  end.

(** [a] used as a whole in elementwise arithmetic with an [(N,)] array;
    the same restriction to shape [(N,)] applies. *)
Definition vector (a : ndarray) : res (list R) :=
  match a with
  | Arr1 v => inr v
  | _ => inl TypeError
  end.

(** Modelled from the spec: [_haeb_sort] and [_asymmetry] of
    [soprano/nmr/utils.py], which reorder, respectively reduce, every
    eigenvalue triple of an [(N, 3)] array (spec 4.2: Haeberlen order
    [|zz - iso| >= |xx - iso| >= |yy - iso|]; asymmetry
    [(yy - xx) / (zz - iso)], 0 when the denominator is 0); the per-triple
    functions are [haeb_sort3] and [asymmetry3]. *)
Definition _haeb_sort (evals : list (list R)) : list (list R) :=
  map haeb_sort3 evals.

Definition _asymmetry (a : ndarray) : res ndarray :=
  match a with
  | Arr2 evals => inr (Arr1 (map asymmetry3 evals))
  | _ => inl IndexError
  end.

(** *** Isotope resolution *)

(** Modelled from the spec: [_get_isotope_list] and [_get_isotope_data] of
    [soprano/data/nmr.py] (spec 4.3). Per atom, highest precedence first:
    the entry of the per-atom list when it is not [None]; the per-element
    override; the most abundant quadrupole-active isotope when
    [use_q_isotopes] is set and the element has one; the default isotope.
    An isotope that the table does not have is an error. *)
Definition resolve_isotope (isotopes : gmap string nat) (use_q_isotopes : bool)
  (el : string) (entry : option nat) : res nat :=
  let chosen :=
    match entry with
    | Some iso => Some iso
    | None =>
        match isotopes !! el with
        | Some iso => Some iso
        | None =>
            if use_q_isotopes
            then match q_isotope el with
                 | Some iso => Some iso
                 | None => default_isotope el
                 end
            else default_isotope el
        end
    end in
  match chosen with
  | Some iso =>
      match isotope_data el iso with
      | Some _ => inr iso
      | None => inl KeyError
      end
  | None => inl KeyError
  end.

Definition _get_isotope_list (elems : list string) (isotopes : gmap string nat)
  (isotope_list : option (list (option nat))) (use_q_isotopes : bool)
  : res (list nat) :=
  mapM (fun '(i, el) =>
          resolve_isotope isotopes use_q_isotopes el
            (isotope_list ≫= fun l => mjoin (l !! i)))
       (imap pair elems).

Definition _get_isotope_data (elems : list string) (key : string)
  (isotopes : gmap string nat) (isotope_list : option (list (option nat)))
  (use_q_isotopes : bool) : res (list Q) :=
  isos ← _get_isotope_list elems isotopes isotope_list use_q_isotopes;
  mapM (fun '(el, iso) =>
          match isotope_data el iso with
          | Some (spin, moment) =>
              if String.eqb key "I" then inr spin
              else if String.eqb key "Q" then inr moment
              else inl KeyError
          | None => inl KeyError
          end)
       (zip elems isos).

(** *** The decorator *)

Definition _has_efg_check {A} (f : M state A) : M state A :=
  found ← has "efg";
  if negb found
  then raise (RuntimeError "No electric field gradient data found for this system")
  else f.

(** Lines 101-104 (and 421-424, 495-498, 570-573): "Is isotope list valid?" *)
Definition check_isotope_list (isotope_list : option (list (option nat)))
  (elems : list string) : M state (option (list (option nat))) :=
  match isotope_list with
  | Some l =>
      if negb (length l =? length elems)%nat
      then print "WARNING - invalid isotope_list, ignoring";; mret None
      else mret (Some l)
  | None => mret None
  end.

(** *** [EFGTensor] *)

(** [ElectricFieldGradient(efg, species, order=order)] *)
Definition ElectricFieldGradient_init (efg : list (list R)) (species order : string)
  : res ElectricFieldGradient :=
  tensor_check efg species order;;
  inr {| data := efg; species := species; order := order |}.

Definition EFGTensor_extract (order : string) (use_q_isotopes : bool)
  (isotopes : gmap string nat) (isotope_list : option (list (option nat)))
  : M state (list ElectricFieldGradient) :=
  _has_efg_check (
    elems ← get_chemical_symbols;
    isotope_list ← check_isotope_list isotope_list elems;
    isotopelist ← lift (_get_isotope_list elems isotopes isotope_list use_q_isotopes);
    let isotopelist := zip_with (fun iso elem => str_nat iso +:+ elem) isotopelist elems in
    efg ← get_array "efg";
    efgs ← lift (matrices efg);
    lift (mapM (fun '(efg, species) => ElectricFieldGradient_init efg species order)
               (zip efgs isotopelist))).

(** *** [EFGDiagonal] *)

Definition EFGDiagonal_default_name : string := "efg_diagonal".

Definition EFGDiagonal_extract (save_array : bool)
  : M state (list (list R * list (list R))) :=
  _has_efg_check (
    efg ← get_array "efg";
    efgs ← lift (matrices efg);
    let efg_diag := map (fun efg => eigh (symmetrise efg)) efgs in
    '(efg_evals, efg_evecs) ←
      match efg_diag with
      | [] => raise (ValueError "not enough values to unpack (expected 2, got 0)")
      | _ => mret (map fst efg_diag, map snd efg_diag)
      end;
    (if save_array then
       set_array (EFGDiagonal_default_name +:+ "_evals") (Arr2 efg_evals);;
       set_array (EFGDiagonal_default_name +:+ "_evals_hsort")
                 (Arr2 (_haeb_sort efg_evals));;
       set_array (EFGDiagonal_default_name +:+ "_evecs") (Arr3 efg_evecs)
     else mret tt);;
    mret efg_diag).

(** [EFGDiagonal.get(s)]: [extract] with the default [save_array=True]. *)
Definition EFGDiagonal_get : M state (list (list R * list (list R))) :=
  EFGDiagonal_extract true.

(** The opening lines shared by the derived properties:
    [if not s.has("efg_diagonal_evals_hsort") or force_recalc:
       EFGDiagonal.get(s)]. *)
Definition ensure_diagonal (force_recalc : bool) : M state unit :=
  cached ← has (EFGDiagonal_default_name +:+ "_evals_hsort");
  if negb cached || force_recalc then EFGDiagonal_get;; mret tt else mret tt.

(** *** [EFGVzz] and [EFGAsymmetry] *)

Definition EFGVzz_extract (force_recalc : bool) : M state ndarray :=
  _has_efg_check (
    ensure_diagonal force_recalc;;
    efg_evals ← get_array (EFGDiagonal_default_name +:+ "_evals_hsort");
    lift (last_column efg_evals)).

Definition EFGVzz_get : M state ndarray := EFGVzz_extract false.

Definition EFGAsymmetry_extract (force_recalc : bool) : M state ndarray :=
  _has_efg_check (
    ensure_diagonal force_recalc;;
    efg_evals ← get_array (EFGDiagonal_default_name +:+ "_evals_hsort");
    lift (_asymmetry efg_evals)).

Definition EFGAsymmetry_get : M state ndarray := EFGAsymmetry_extract false.

(** *** [EFGQuadrupolarConstant] *)

Definition EFGQuadrupolarConstant_extract (force_recalc use_q_isotopes : bool)
  (isotopes : gmap string nat) (isotope_list : option (list (option nat)))
  : M state (list R) :=
  _has_efg_check (
    ensure_diagonal force_recalc;;
    elems ← get_chemical_symbols;
    isotope_list ← check_isotope_list isotope_list elems;
    q_list ← lift (_get_isotope_data elems "Q" isotopes isotope_list use_q_isotopes);
    vzz ← EFGVzz_get;
    vzz ← lift (vector vzz);
    lift (broadcast Rmult (map (fun q => (EFG_TO_CHI * Q2R q)%R) q_list) vzz)).

(** *** [EFGNQR] *)

(** Modelled from the spec: [_frange] of [soprano/nmr/utils.py], a [range]
    over floats: [start, start + step, ...] as long as the value is below
    [stop] (for a positive [step]). The spec's transition set
    [{-I, -I+1, ..., I-1}] is what line 508 makes of it. Floats that are
    small half-integers are exact, so they are kept as reduced rationals. *)
Definition _frange (start stop step : Q) : list Q :=
  map (fun k => Qred (start + inject_Z (Z.of_nat k) * step))
      (seq 0 (Z.to_nat (Qceiling ((stop - start) / step)))).

(** [str(m)] (as used by an f-string) for a float [m] that is a multiple of
    one half, [abs(m) < 1e16]: ["0.0"], ["0.5"], ["1.0"], ["-1.5"], ... *)
Definition float_str (m : Q) : string :=
  let n := Qfloor (2 * m) in
  (if (n <? 0)%Z then "-" else "")
  +:+ NilEmpty.string_of_uint (N.to_uint (Z.to_N (Z.abs n / 2)))
  +:+ (if Z.odd n then ".5" else ".0").

(** The float that is [z] halves. *)
Definition half (z : Z) : Q := Qred (z # 2).

(** [f'm={m}->{m+1}'] *)
Definition nqr_key (m : Q) : string :=
  "m=" +:+ float_str m +:+ "->" +:+ float_str (Qred (m + 1)).

(** Line 508: [[m for m in _frange(-I, I + 1, 1) if m >= 0.0][:-1]] *)
Definition nqr_ms (spin : Q) : list Q :=
  removelast (List.filter (fun m => Qle_bool 0 m) (_frange (- spin) (spin + 1) 1)).

(** Line 507 *)
Definition nqr_A (Vzz : R) (moment spin : Q) : R :=
  (EFG_TO_CHI * Vzz * Q2R moment / (4 * Q2R spin * (2 * Q2R spin - 1)))%R.

(** Line 511 *)
Definition nqr_fq (A : R) (m : Q) (eta : R) : R :=
  (3 * A * (2 * Q2R m + 1) * sqrt (1 + eta ^ 2 / 3))%R.

(** Lines 509-512: the loop over [ms]; [nqr[i][key] = fq] updates the
    dictionary held at position [i] of the list [nqr]. *)
Fixpoint nqr_fill (A : R) (eta_list : ndarray) (i : nat) (ms : list Q)
  (nqr : list (gmap string R)) : res (list (gmap string R)) :=
  match ms with
  | [] => inr nqr
  | m :: ms' =>
      eta ← item eta_list i;
      d ← py_index nqr i;
      nqr_fill A eta_list i ms' (<[i := <[nqr_key m := nqr_fq A m eta]> d]> nqr)
  end.

(** Lines 507-512: one iteration of the loop over [np.where(mask)[0]]. *)
Definition nqr_atom (q_list I_list : list Q) (eta_list : ndarray) (i : nat)
  (nqr : list (gmap string R)) : M state (list (gmap string R)) :=
  vzz ← EFGVzz_get;
  Vzz ← lift (item vzz i);
  moment ← lift (py_index q_list i);
  spin ← lift (py_index I_list i);
  lift (nqr_fill (nqr_A Vzz moment spin) eta_list i (nqr_ms spin) nqr).

Fixpoint nqr_loop (q_list I_list : list Q) (eta_list : ndarray)
  (idx : list nat) (nqr : list (gmap string R))
  : M state (list (gmap string R)) :=
  match idx with
  | [] => mret nqr
  | i :: idx' =>
      nqr' ← nqr_atom q_list I_list eta_list i nqr;
      nqr_loop q_list I_list eta_list idx' nqr'
  end.

(** [np.where(I_list > 0.5)[0]] *)
Definition nqr_active (I_list : list Q) : list nat :=
  List.filter (fun i => match I_list !! i with
                        | Some spin => negb (Qle_bool spin (1 # 2))
                        | None => false
                        end)
              (seq 0 (length I_list)).

Definition EFGNQR_extract (force_recalc use_q_isotopes : bool)
  (isotopes : gmap string nat) (isotope_list : option (list (option nat)))
  : M state (list (gmap string R)) :=
  _has_efg_check (
    ensure_diagonal force_recalc;;
    elems ← get_chemical_symbols;
    isotope_list ← check_isotope_list isotope_list elems;
    q_list ← lift (_get_isotope_data elems "Q" isotopes isotope_list use_q_isotopes);
    I_list ← lift (_get_isotope_data elems "I" isotopes isotope_list use_q_isotopes);
    eta_list ← EFGAsymmetry_get;
    let nqr := replicate (length elems) (∅ : gmap string R) in
    nqr_loop q_list I_list eta_list (nqr_active I_list) nqr).

(** The dictionary that lines 509-512 make of [d] for one atom. *)
Definition transitions_of (A eta : R) (ms : list Q) (d : gmap string R)
  : gmap string R :=
  fold_left (fun d m => <[nqr_key m := nqr_fq A m eta]> d) ms d.

(** The transition set as the spec words it: [m] ranges over
    [-I, -I+1, ..., I-1], restricted to [m >= 0]. *)
Definition spec_transitions (spin : Q) : list Q :=
  List.filter (fun m => Qle_bool 0 m)
    (map (fun k => Qred (- spin + inject_Z (Z.of_nat k)))
         (seq 0 (Z.to_nat (Qfloor (2 * spin))))).

(** The isotope list that is passed on to the resolver (lines 495-498). *)
Definition valid_isotope_list (elems : list string)
  (isotope_list : option (list (option nat))) : option (list (option nat)) :=
  match isotope_list with
  | Some l => if (length l =? length elems)%nat then Some l else None
  | None => None
  end.

(** A nuclear spin is a multiple of one half. *)
Definition half_integer (spin : Q) : Prop :=
  exists n : Z, (spin == n # 2)%Q.

(** *** [EFGQuadrupolarProduct] *)

Definition EFGQuadrupolarProduct_extract (force_recalc use_q_isotopes : bool)
  (isotopes : gmap string nat) (isotope_list : option (list (option nat)))
  : M state (list R) :=
  _has_efg_check (
    ensure_diagonal force_recalc;;
    elems ← get_chemical_symbols;
    isotope_list ← check_isotope_list isotope_list elems;
    q_list ← lift (_get_isotope_data elems "Q" isotopes isotope_list use_q_isotopes);
    vzz ← EFGVzz_get;
    vzz ← lift (vector vzz);
    cq ← lift (broadcast Rmult (map (fun q => (EFG_TO_CHI * Q2R q)%R) q_list) vzz);
    eta ← EFGAsymmetry_get;
    eta ← lift (vector eta);
    lift (broadcast Rmult cq (map (fun e => sqrt (1 + e ^ 2 / 3)) eta))).

(** The state after the warning of line 103 has been printed, and an outcome
    in whose state it has. *)
Definition warning : string := "WARNING - invalid isotope_list, ignoring".

Definition add_line (line : string) (st : state) : state :=
  {| symbols := symbols st; arrays := arrays st; stdout := stdout st ++ [line] |}.



End Extract.

(** [_anisotropy], [_span] and [_skew] of [soprano/nmr/utils.py], on one
    Haeberlen-sorted eigenvalue triple ([anisotropy3 true] is the reduced
    anisotropy), and the two members of a tensor object that [EFGEuler] and
    [EFGQuaternion] read. *)
Class Reductions : Type := {
  anisotropy3 : bool -> list R -> R;
  span3 : list R -> R;
  skew3 : list R -> R
}.

Class TensorMethods (quaternion : Type) : Type := {
  (** [t.euler_angles(convention, passive=passive)] *)
  euler_angles : ElectricFieldGradient -> string -> bool -> res (list R);
  (** [t.quaternion] *)
  tensor_quaternion : ElectricFieldGradient -> res quaternion
}.

Section Derived.

Context {E : Externals} {Rd : Reductions}.
Context {quaternion : Type} {T : TensorMethods quaternion}.

(** *** [EFGAnisotropy], [EFGReducedAnisotropy], [EFGSpan], [EFGSkew] *)

(** A reduction of [soprano/nmr/utils.py] applied to every triple of an
    [(N, 3)] array, as [_asymmetry] is. *)
Definition reduce_triples (f : list R -> R) (a : ndarray) : res ndarray :=
  match a with
  | Arr2 evals => inr (Arr1 (map f evals))
  | _ => inl IndexError
  end.

Definition _anisotropy (a : ndarray) (reduced : bool) : res ndarray :=
  reduce_triples (anisotropy3 reduced) a.

Definition _span (a : ndarray) : res ndarray := reduce_triples span3 a.

Definition _skew (a : ndarray) : res ndarray := reduce_triples skew3 a.

Definition EFGAnisotropy_extract (force_recalc : bool) : M state ndarray :=
  _has_efg_check (
    ensure_diagonal force_recalc;;
    efg_evals ← get_array (EFGDiagonal_default_name +:+ "_evals_hsort");
    lift (_anisotropy efg_evals false)).

Definition EFGReducedAnisotropy_extract (force_recalc : bool) : M state ndarray :=
  _has_efg_check (
    ensure_diagonal force_recalc;;
    efg_evals ← get_array (EFGDiagonal_default_name +:+ "_evals_hsort");
    lift (_anisotropy efg_evals true)).

Definition EFGSpan_extract (force_recalc : bool) : M state ndarray :=
  _has_efg_check (
    ensure_diagonal force_recalc;;
    efg_evals ← get_array (EFGDiagonal_default_name +:+ "_evals_hsort");
    lift (_span efg_evals)).

Definition EFGSkew_extract (force_recalc : bool) : M state ndarray :=
  _has_efg_check (
    ensure_diagonal force_recalc;;
    efg_evals ← get_array (EFGDiagonal_default_name +:+ "_evals_hsort");
    lift (_skew efg_evals)).

(** *** [EFGEuler] and [EFGQuaternion] *)

(** [EFGTensor.get(s, order=order)]: the other parameters are the
    defaults. *)
Definition EFGTensor_get (order : string) : M state (list ElectricFieldGradient) :=
  EFGTensor_extract order false ∅ None.

Definition EFGEuler_extract (order convention : string) (passive : bool)
  : M state (list (list R)) :=
  _has_efg_check (
    tensors ← EFGTensor_get order;
    lift (mapM (fun t => euler_angles t convention passive) tensors)).

Definition EFGQuaternion_extract (order : string) : M state (list quaternion) :=
  _has_efg_check (
    tensors ← EFGTensor_get order;
    lift (mapM tensor_quaternion tensors)).

(** The structure once [EFGDiagonal.extract] has stored the three arrays
    of its eigen-decompositions [efg_diag]. *)
Definition stored (st : state) (efg_diag : list (list R * list (list R))) : state :=
  {| symbols := symbols st;
     arrays :=
       <["efg_diagonal_evecs" := Arr3 (map snd efg_diag)]>
         (<["efg_diagonal_evals_hsort" := Arr2 (_haeb_sort (map fst efg_diag))]>
            (<["efg_diagonal_evals" := Arr2 (map fst efg_diag)]> (arrays st)));
     stdout := stdout st |}.

End Derived.

(** A small instance to run the extractions on: chlorine-35 ([I = 3/2]),
    hydrogen-1 ([I = 1/2]) and deuterium ([I = 1]); the eigen-solver is
    exact on diagonal matrices with an increasing diagonal, on which the
    Haeberlen order is taken to be the increasing one; the tensor
    constructor rejects an unknown order and data that are not 3 by 3. *)
#[local] Instance example_externals : Externals := {|
  EFG_TO_CHI := 1;
  eigh := fun m => ([entry m 0 0; entry m 1 1; entry m 2 2],
                    [[1; 0; 0]; [0; 1; 0]; [0; 0; 1]]%R);
  haeb_sort3 := fun v => v;
  asymmetry3 := fun _ => 0%R;
  default_isotope := fun el =>
    if String.eqb el "Cl" then Some 35%nat
    else if String.eqb el "H" then Some 1%nat else None;
  q_isotope := fun el =>
    if String.eqb el "Cl" then Some 35%nat
    else if String.eqb el "H" then Some 2%nat else None;
  isotope_data := fun el iso =>
    if String.eqb el "Cl" && (iso =? 35)%nat then Some (3 # 2, - (8165 # 100))%Q
    else if String.eqb el "H" && (iso =? 1)%nat then Some (1 # 2, 0)%Q
    else if String.eqb el "H" && (iso =? 2)%nat then Some (1, 286 # 100)%Q
    else None;
  tensor_check := fun efg _ order =>
    if negb (existsb (String.eqb order) ["i"; "d"; "h"; "n"])
    then inl (ValueError "invalid tensor order")
    else if (length efg =? 3)%nat && forallb (fun row => (length row =? 3)%nat) efg
    then inr tt
    else inl (ValueError "tensor data must be a 3x3 matrix")
|}.

(** One chlorine atom with an axially symmetric gradient, and the same
    structure without its ["efg"] array. *)
Definition example_atoms : state := {|
  symbols := ["Cl"];
  arrays := {[ "efg" := Arr3 [[[-1; 0; 0]; [0; -1; 0]; [0; 0; 2]]%R] ]};
  stdout := []
|}.

(** [example_atoms] once [EFGDiagonal.get] has stored its arrays. *)
Definition example_diagonalised : state :=
  snd (ensure_diagonal (E := example_externals) false example_atoms).

Definition example_evals : list (list R) :=
  [[(-1 + -1) / 2; (-1 + -1) / 2; (2 + 2) / 2]]%R.

Definition example_bare : state := {|
  symbols := ["Cl"];
  arrays := ∅;
  stdout := []
|}.

(** An [n] by [n] matrix. *)
Definition square (n : nat) (m : list (list R)) : Prop :=
  length m = n /\ Forall (fun row => length row = n) m.

(** Reductions and tensor members to run the extractions with: the
    anisotropy [zz - (xx + yy) / 2], the reduced anisotropy [zz - iso],
    the span [zz - xx] and a skew of zero on a triple [xx, yy, zz]; the
    orientation of a tensor is not computed. *)
#[local] Instance example_reductions : Reductions := {|
  anisotropy3 := fun reduced v =>
    let xx := nth 0 v 0%R in
    let yy := nth 1 v 0%R in
    let zz := nth 2 v 0%R in
    if reduced then (zz - (xx + yy + zz) / 3)%R else (zz - (xx + yy) / 2)%R;
  span3 := fun v => (nth 2 v 0 - nth 0 v 0)%R;
  skew3 := fun _ => 0%R
|}.

#[local] Instance example_methods : TensorMethods unit := {|
  euler_angles := fun _ _ _ => inr [0; 0; 0]%R;
  tensor_quaternion := fun _ => inr tt
|}.

(** A structure without atoms. *)
Definition example_empty : state := {|
  symbols := [];
  arrays := {[ "efg" := Arr3 [] ]};
  stdout := []
|}.

End EFG.

(** ** [soprano/scripts/nmr.py] *)

Module NMRScript.

(** *** [get_duplicates] and [average_quaternions_by_tags] *)

(** [tally[item].append(i)] on a [defaultdict(list)]; the dictionary is an
    association list in insertion order. *)
Fixpoint tally_append (item : Z) (i : nat) (tally : list (Z * list nat))
  : list (Z * list nat) :=
  match tally with
  | [] => [(item, [i])]
  | (key, locs) :: rest =>
      if (key =? item)%Z then (key, locs ++ [i]) :: rest
      else (key, locs) :: tally_append item i rest
  end.

Definition tally_of (seq : list Z) : list (Z * list nat) :=
  fold_left (fun tally '(i, item) => tally_append item i tally) (imap pair seq) [].

Definition get_duplicates (seq : list Z) : list (Z * list nat) :=
  List.filter (fun '(_, locs) => (1 <? length locs)%nat) (tally_of seq).

(** [tally.get(key)] *)
Fixpoint tally_get (key : Z) (tally : list (Z * list nat)) : option (list nat) :=
  match tally with
  | [] => None
  | (k, locs) :: rest => if (k =? key)%Z then Some locs else tally_get key rest
  end.

(** The positions that carry tag [t], in increasing order. *)
Definition positions (t : Z) (tags : list Z) : list nat :=
  List.filter (fun i => bool_decide (tags !! i = Some t)) (seq 0 (length tags)).

Section Quaternions.

(** Quaternion objects and [average_quaternions] of [soprano/utils.py]. *)
Variable quaternion : Type.
Variable average_quaternions : list quaternion -> quaternion.

(** [quaternions[ig] = quat_av] *)
Definition assign (quaternions : list quaternion) (ig : nat)
  (quat_av : quaternion) : res (list quaternion) :=
  if (ig <? length quaternions)%nat then inr (<[ig := quat_av]> quaternions)
  else inl IndexError.

Fixpoint assign_all (quaternions : list quaternion) (idx : list nat)
  (quat_av : quaternion) : res (list quaternion) :=
  match idx with
  | [] => inr quaternions
  | ig :: idx' =>
      quaternions' ← assign quaternions ig quat_av;
      assign_all quaternions' idx' quat_av
  end.

(** Lines 931-936: the body of the loop over [dupl_dict.items()]. *)
Definition average_group (quaternions : list quaternion) (idx : list nat)
  : res (list quaternion) :=
  quat_group ← mapM (py_index quaternions) idx;
  assign_all quaternions idx (average_quaternions quat_group).

Fixpoint average_groups (quaternions : list quaternion)
  (dupl : list (Z * list nat)) : res (list quaternion) :=
  match dupl with
  | [] => inr quaternions
  | (_, idx) :: dupl' =>
      quaternions' ← average_group quaternions idx;
      average_groups quaternions' dupl'
  end.

Definition average_quaternions_by_tags (quaternions : list quaternion)
  (tags : list Z) : res (list quaternion) :=
  if negb (length (remove_dups tags) =? length tags)%nat
  then average_groups quaternions (get_duplicates tags)
  else inr quaternions.

(** [[quaternions[ig] for ig in idx]] when every index is in range. *)
Definition pick (quaternions : list quaternion) (idx : list nat)
  : list quaternion :=
  omap (fun ig => quaternions !! ig) idx.

End Quaternions.

(** *** [find_XHn_groups] *)

(** [s.split(sep)] for a one-character separator. *)
Fixpoint split_on (sep : ascii) (s : string) : list string :=
  match s with
  | EmptyString => [EmptyString]
  | String c s' =>
      if Ascii.eqb c sep then EmptyString :: split_on sep s'
      else match split_on sep s' with
           | [] => [String c EmptyString]
           | w :: ws => String c w :: ws
           end
  end.

(** [c in s] *)
Fixpoint contains (c : ascii) (s : string) : bool :=
  match s with
  | EmptyString => false
  | String c' s' => Ascii.eqb c c' || contains c s'
  end.

(** [np.where(symbs == X)[0]] *)
Definition where_symbol (symbs : list string) (X : string) : list nat :=
  List.filter (fun i => bool_decide (symbs !! i = Some X)) (seq 0 (length symbs)).

Definition Zsum (l : list Z) : Z := fold_right Z.add 0%Z l.

Section XHn.

(** [ase.Atoms], its [get_chemical_symbols], the bond matrix that
    [Bonds(vdw_scale=..., return_matrix=True)(atoms)] returns (from
    [soprano/properties/linkage.py]) and the built-in [int]. *)
Variable atoms : Type.
Variable get_chemical_symbols : atoms -> list string.
Variable Bonds : R -> atoms -> nat -> nat -> Z.
Variable py_int : string -> res Z.

(** Lines 863-867 *)
Definition parse_pattern (group_pattern : string) : res (string * Z) :=
  if negb (contains "H" group_pattern)
  then inl (ValueError (group_pattern +:+ " is not a valid group pattern (must contain an element symbol, H, and the number of H atoms. e.g. CH3)"))
  else match split_on "H" group_pattern with
       | [X; n] => n ← py_int n; inr (X, n)
       | _ => inl (ValueError "too many values to unpack (expected 2)")
       end.

(** Line 873 *)
Definition select_xinds (bmat : nat -> nat -> Z) (symbs : list string)
  (hinds : list nat) (X : string) (n : Z) : list nat :=
  List.filter (fun xind => (Zsum (map (bmat xind) hinds) =? n)%Z)
              (where_symbol symbs X).

(** Line 881: the rows of [seen_tags] that equal [tags[group]]. *)
Definition matching (seen_tags : list (list Z)) (row : list Z) : list nat :=
  List.filter (fun j => bool_decide (seen_tags !! j = Some row))
              (seq 0 (length seen_tags)).

(** Lines 877-890: the body of the loop over [xinds]; the loop state is
    [(seen_tags, groups)]. *)
Definition visit (bmat : nat -> nat -> Z) (hinds : list nat) (tags : list Z)
  (group_pattern : string) (n : Z) (xind : nat)
  (acc : list (list Z) * list (list nat))
  : res (list (list Z) * list (list nat)) :=
  let '(seen_tags, groups) := acc in
  let group :=
    List.filter (fun k => match hinds !! k with
                          | Some h => (bmat xind h =? 1)%Z
                          | None => false
                          end)
                (seq 0 (length hinds)) in
  if negb (Z.of_nat (length group) =? n)%Z then inl AssertionError else
  row ← mapM (py_index tags) group;
  let match_ :=
    if (0 <? length seen_tags)%nat then matching seen_tags row else [] in
  match match_ with
  | [j] =>
      g ← py_index groups j;
      inr (seen_tags, <[j := g ++ group]> groups)
  | [] => inr (seen_tags ++ [row], groups ++ [group])
  | _ => inl (ValueError ("Found multiple matches for " +:+ group_pattern))
  end.

Fixpoint visit_all (bmat : nat -> nat -> Z) (hinds : list nat) (tags : list Z)
  (group_pattern : string) (n : Z) (xinds : list nat)
  (acc : list (list Z) * list (list nat))
  : res (list (list Z) * list (list nat)) :=
  match xinds with
  | [] => inr acc
  | xind :: xinds' =>
      acc' ← visit bmat hinds tags group_pattern n xind acc;
      visit_all bmat hinds tags group_pattern n xinds' acc'
  end.

(** Lines 868-892: the groups found for one parsed pattern. *)
Definition groups_of_pattern (bmat : nat -> nat -> Z) (symbs : list string)
  (tags : list Z) (group_pattern X : string) (n : Z) : res (list (list nat)) :=
  let hinds := where_symbol symbs "H" in
  let xinds := select_xinds bmat symbs hinds X n in
  snd <$> visit_all bmat hinds tags group_pattern n xinds ([], []).

Definition find_XHn_groups (a : atoms) (pattern_string : string)
  (tags : option (list Z)) (vdw_scale : R) : res (list (list (list nat))) :=
  let symbs := get_chemical_symbols a in
  let tags :=
    match tags with
    | Some tags => tags
    | None => map Z.of_nat (seq 0 (length symbs))
    end in
  let bmat := Bonds vdw_scale a in
  mapM (fun group_pattern =>
          '(X, n) ← parse_pattern group_pattern;
          groups_of_pattern bmat symbs tags group_pattern X n)
       (split_on "," pattern_string).

End XHn.

(** Three methylene groups that symmetry makes equivalent: hydrogens 0-5
    (tags 0 and 1 in turn), carbons 6-8 (tag 6), carbon [6 + k] bonded to
    hydrogens [2k] and [2k + 1]. [int] is taken on digit strings. *)
Definition example_symbols : list string :=
  ["H"; "H"; "H"; "H"; "H"; "H"; "C"; "C"; "C"].

Definition example_tags : list Z := [0; 1; 0; 1; 0; 1; 6; 6; 6]%Z.

Definition example_bonds (i j : nat) : Z :=
  if ((6 <=? i) && (j <? 6) && (j / 2 =? i - 6)
      || (6 <=? j) && (i <? 6) && (i / 2 =? j - 6))%nat
  then 1%Z else 0%Z.

Definition example_int (s : string) : res Z :=
  match s with
  | EmptyString => inl (ValueError "invalid literal for int()")
  | _ =>
      match NilEmpty.uint_of_string s with
      | Some d => inr (Z.of_uint d)
      | None => inl (ValueError "invalid literal for int()")
      end
  end.

(** *** Aggregation of equivalent sites (lines 555-581 of [nmr]) *)

(** A cell of the data frame: a number, a missing value, a string, or the
    Python [set] of strings that the [set] aggregator builds. The order in
    which Python iterates over a [set] is not specified; the model keeps
    the order of first occurrence. *)
Inductive cell : Type :=
| Num (x : Q)
| NaN
| Str (s : string)
| StrSet (l : list string).

(** A [pandas.DataFrame]: its columns, in order, by name. *)
Definition frame : Type := list (string * list cell).

(** The aggregators the script uses: ['mean'], ['first'], [set], ['count']. *)
Inductive aggrule : Type := Mean | First | SetOf | Count.

Definition is_null (c : cell) : bool :=
  match c with NaN => true | _ => false end.

(** [df.dtypes.eq(object)]: the column holds something that is not a number. *)
Definition is_object (col : list cell) : bool :=
  existsb (fun c => match c with Num _ | NaN => false | _ => true end) col.

Fixpoint lookup_column {A} (name : string) (d : list (string * A)) : option A :=
  match d with
  | [] => None
  | (k, v) :: d' => if String.eqb k name then Some v else lookup_column name d'
  end.

(** [d[name] = v] on a dictionary in insertion order. *)
Fixpoint dict_set {A} (name : string) (v : A) (d : list (string * A))
  : list (string * A) :=
  match d with
  | [] => [(name, v)]
  | (k, w) :: d' =>
      if String.eqb k name then (k, v) :: d' else (k, w) :: dict_set name v d'
  end.

(** [del d[name]] *)
Definition dict_del {A} (name : string) (d : list (string * A))
  : res (list (string * A)) :=
  match lookup_column name d with
  | Some _ => inr (List.filter (fun kv => negb (String.eqb (fst kv) name)) d)
  | None => inl KeyError
  end.

(** Lines 558-571: the aggregation rule of every column. *)
Definition make_aggrules (df : frame) (combine_rule : aggrule)
  : res (list (string * aggrule)) :=
  let aggrules := map (fun kv => (fst kv, combine_rule)) df in
  let aggrules :=
    fold_left (fun d kv => if is_object (snd kv) then dict_set (fst kv) First d else d)
              df aggrules in
  aggrules ← dict_del "indices" aggrules;
  aggrules ← dict_del "tags" aggrules;
  let aggrules := dict_set "labels" SetOf aggrules in
  let aggrules :=
    match lookup_column "MagresViewLabels" df with
    | Some _ => dict_set "MagresView_labels" SetOf aggrules
    | None => aggrules
    end in
  inr (dict_set "multiplicity" Count aggrules).

Fixpoint insert_sorted {A} (leb : A -> A -> bool) (x : A) (l : list A) : list A :=
  match l with
  | [] => [x]
  | y :: l' => if leb x y then x :: l else y :: insert_sorted leb x l'
  end.

(** [sorted(l)] *)
Definition sorted {A} (leb : A -> A -> bool) (l : list A) : list A :=
  fold_right (insert_sorted leb) [] l.

Fixpoint dedup_Q (l : list Q) : list Q :=
  match l with
  | [] => []
  | x :: l' => x :: List.filter (fun y => negb (Qeq_bool x y)) (dedup_Q l')
  end.

(** The group keys of [df.groupby('tags')]: the distinct non-missing values
    of the column, in increasing order. *)
Definition group_keys (tags : list cell) : res (list Q) :=
  keys ← mapM (fun c => match c with
                         | Num x => inr [x]
                         | NaN => inr []
                         | _ => inl TypeError
                         end) tags;
  inr (sorted Qle_bool (dedup_Q (List.concat keys))).

(** The cells of [col] on the rows whose tag is [key]. *)
Definition group_cells (tags col : list cell) (key : Q) : list cell :=
  map snd (List.filter (fun tc => match fst tc with
                                  | Num x => Qeq_bool x key
                                  | _ => false
                                  end)
                       (zip tags col)).

Definition numbers (cells : list cell) : res (list Q) :=
  (fun l => List.concat l) <$> mapM (fun c => match c with
                            | Num x => inr [x]
                            | NaN => inr []
                            | _ => inl TypeError
                            end) cells.

Definition strings_of (cells : list cell) : res (list string) :=
  mapM (fun c => match c with Str s => inr s | _ => inl TypeError end) cells.

(** One aggregator applied to the cells of one group. *)
Definition aggregate_cells (rule : aggrule) (cells : list cell) : res cell :=
  match rule with
  | Mean =>
      xs ← numbers cells;
      match xs with
      | [] => inr NaN
      | _ => inr (Num (Qred (fold_left Qplus xs 0%Q / inject_Z (Z.of_nat (length xs)))))
      end
  | First =>
      inr (match List.filter (fun c => negb (is_null c)) cells with
           | c :: _ => c
           | [] => NaN
           end)
  | SetOf => (fun l => StrSet (remove_dups l)) <$> strings_of cells
  | Count =>
      inr (Num (inject_Z (Z.of_nat
             (length (List.filter (fun c => negb (is_null c)) cells)))))
  end.

(** [df.groupby('tags').agg(aggrules).reset_index()] *)
Definition groupby_agg (df : frame) (aggrules : list (string * aggrule))
  : res frame :=
  match lookup_column "tags" df with
  | None => inl KeyError
  | Some tags =>
      keys ← group_keys tags;
      cols ← mapM (fun '(name, rule) =>
                     match lookup_column name df with
                     | None => inl KeyError
                     | Some col =>
                         cells ← mapM (fun key =>
                                         aggregate_cells rule (group_cells tags col key))
                                      keys;
                         inr (name, cells)
                     end) aggrules;
      inr (("tags", map Num keys) :: cols)
  end.

(** [','.join(l)] *)
Fixpoint join (sep : string) (l : list string) : string :=
  match l with
  | [] => ""
  | [s] => s
  | s :: l' => s +:+ sep +:+ join sep l'
  end.

Definition chars (s : string) : list string :=
  map (fun c => String c EmptyString) (list_ascii_of_string s).

(** [lambda x: ','.join(x)] and [lambda x: ','.join(sorted(list(x)))]; a
    string iterates over its characters. *)
Definition join_cell (sort : bool) (c : cell) : res cell :=
  match c with
  | StrSet l => inr (Str (join "," (if sort then sorted String.leb l else l)))
  | Str s => inr (Str (join "," (if sort then sorted String.leb (chars s) else chars s)))
  | _ => inl TypeError
  end.

(** [df[name] = df[name].apply(f)] *)
Definition apply_column (name : string) (f : cell -> res cell) (df : frame)
  : res frame :=
  match lookup_column name df with
  | None => inl KeyError
  | Some col => cells ← mapM f col; inr (dict_set name cells df)
  end.

(** Lines 555-581, under [if average_group or reduce]. *)
Definition aggregate (df : frame) (combine_rule : aggrule) : res frame :=
  aggrules ← make_aggrules df combine_rule;
  df ← groupby_agg df aggrules;
  df ← apply_column "labels" (join_cell false) df;
  match lookup_column "MagresView_labels" df with
  | Some _ => apply_column "MagresView_labels" (join_cell true) df
  | None => inr df
  end.

(** The table of the spec's end-to-end example: four sites tagged
    [0, 0, 1, 1], each of multiplicity one (line 449), with asymmetries
    [0.1, 0.1, 0.3, 0.3] and Vzz [10, 10, 5, 5]. *)
Definition example_frame : frame :=
  [ ("indices", [Num 0; Num 1; Num 2; Num 3]);
    ("labels", [Str "H1"; Str "H1"; Str "H2"; Str "H2"]);
    ("species", [Str "2H"; Str "2H"; Str "2H"; Str "2H"]);
    ("multiplicity", [Num 1%Q; Num 1%Q; Num 1%Q; Num 1%Q]);
    ("tags", [Num 0%Q; Num 0%Q; Num 1%Q; Num 1%Q]);
    ("file", [Str "a.magres"; Str "a.magres"; Str "a.magres"; Str "a.magres"]);
    ("EFG_Vzz", [Num 10%Q; Num 10%Q; Num 5%Q; Num 5%Q]);
    ("EFG_asymmetry", [Num (1 # 10); Num (1 # 10); Num (3 # 10); Num (3 # 10)]) ].

(** *** Column names: [units_rename], [get_matching_cols], [get_missing_cols] *)

(** [x in s] for two strings: [x] occurs in [s] as a run of consecutive
    characters. *)
Fixpoint py_in (x s : string) : bool :=
  String.prefix x s ||
  match s with
  | EmptyString => false
  | String _ s' => py_in x s'
  end.

(** The dictionary [UNITS] (lines 74-89), in insertion order. *)
Definition UNITS : list (string * string) :=
  [ ("MS_shielding", "ppm");
    ("MS_shift", "ppm");
    ("MS_anisotropy", "ppm");
    ("MS_reduced_anisotropy", "ppm");
    ("MS_span", "ppm");
    ("MS_alpha", "deg");
    ("MS_beta", "deg");
    ("MS_gamma", "deg");
    ("EFG_Vzz", "Vm^-2");
    ("EFG_quadrupolar_constant", "MHz");
    ("EFG_alpha", "deg");
    ("EFG_beta", "deg");
    ("EFG_gamma", "deg");
    ("EFG_NQR", "MHz") ].

(** [units_rename(colname, units_dict)]: the loop over [units_dict.items()]
    returns at the first key that occurs in [colname]. *)
Fixpoint units_rename (colname : string) (units_dict : list (string * string))
  : string :=
  match units_dict with
  | [] => colname
  | (key, unit_) :: rest =>
      if py_in key colname then colname +:+ "/" +:+ unit_
      else units_rename colname rest
  end.

(** [get_matching_cols(df, lst)] and [get_missing_cols(df, lst)];
    [df.columns] are the names of the columns, in order. *)
Definition get_matching_cols (df : frame) (lst : list string) : list string :=
  List.filter (fun col => existsb (fun x => py_in x col) lst) (map fst df).

Definition get_missing_cols (df : frame) (lst : list string) : list string :=
  List.filter (fun x => forallb (fun col => negb (py_in x col)) (map fst df)) lst.

(** [df[cols]] for a list [cols] of column names: for every name, the
    columns of [df] that carry it. *)
Definition df_getitem (df : frame) (cols : list string) : res frame :=
  (fun found => List.concat found) <$>
  mapM (fun c => match List.filter (fun kv => String.eqb (fst kv) c) df with
                 | [] => inl KeyError
                 | found => inr found
                 end) cols.

(** [df.drop(cols, axis=1)] *)
Definition df_drop (df : frame) (cols : list string) : res frame :=
  if forallb (fun c => existsb (String.eqb c) (map fst df)) cols
  then inr (List.filter (fun kv => negb (existsb (String.eqb (fst kv)) cols)) df)
  else inl KeyError.

Definition essential_columns : list string :=
  ["labels"; "species"; "multiplicity"; "tags"; "file"].

(** Lines 613-629 of [nmr]: the columns kept for [--include] and
    [--exclude] (the log messages are left out). [if include:] is false for
    [None] and for the empty list. *)
Definition select_columns (df : frame) (include exclude : option (list string))
  : res frame :=
  df ← match include with
       | Some ((_ :: _) as include) =>
           let specified_columns :=
             List.filter (fun c => negb (existsb (String.eqb c) essential_columns))
                         include in
           let columns_to_include := essential_columns ++ specified_columns in
           let columns_to_include := get_matching_cols df columns_to_include in
           df_getitem df columns_to_include
       | _ => inr df
       end;
  match exclude with
  | Some ((_ :: _) as exclude) => df_drop df (get_matching_cols df exclude)
  | _ => inr df
  end.

(** *** The option callbacks: [get_column_list], [isotope_selection],
    [keyvalue_parser] *)

(** The dictionary [special_names] of [get_column_list], in insertion
    order (['default'] is added last, line 182). *)
Definition special_names : list (string * list string) :=
  let MS_defaults :=
    ["MS_shielding"; "MS_anisotropy"; "MS_reduced_anisotropy"; "MS_asymmetry"] in
  let EFG_defaults :=
    ["EFG_Vzz"; "EFG_quadrupolar_constant"; "EFG_asymmetry"] in
  [ ("minimal",
     ["MS_shielding"; "MS_anisotropy"; "EFG_quadrupolar_constant"; "EFG_asymmetry"]);
    ("MS_defaults", MS_defaults);
    ("EFG_defaults", EFG_defaults);
    ("MS_angles", ["MS_alpha"; "MS_beta"; "MS_gamma"]);
    ("EFG_angles", ["EFG_alpha"; "EFG_beta"; "EFG_gamma"]);
    ("default", MS_defaults ++ EFG_defaults) ].

(** [l.remove(x)] for an [x] that is in [l]: its first occurrence goes. *)
Fixpoint list_remove (x : string) (l : list string) : list string :=
  match l with
  | [] => []
  | y :: l' => if String.eqb y x then l' else y :: list_remove x l'
  end.

(** [list(OrderedDict.fromkeys(l))]: the first occurrence of every item
    stays, in order. *)
Fixpoint fromkeys (l : list string) : list string :=
  match l with
  | [] => []
  | x :: l' => x :: List.filter (fun y => negb (String.eqb y x)) (fromkeys l')
  end.

(** Lines 187-189: the body of the loop over [special_names.items()]. *)
Definition replace_special (specified_columns : list string)
  (special : string * list string) : list string :=
  let '(special_name, special_cols) := special in
  if existsb (String.eqb special_name) specified_columns
  then list_remove special_name specified_columns ++ special_cols
  else specified_columns.

Section Callbacks.

(** The built-in [str.strip]. *)
Variable strip : string -> string.

Definition get_column_list (value : option string) : option (list string) :=
  match value with
  | None => None
  | Some value =>
      if String.eqb value "" then None else
      let specified_columns := map strip (split_on "," value) in
      let specified_columns :=
        fold_left replace_special special_names specified_columns in
      Some (fromkeys specified_columns)
  end.

End Callbacks.

(** [re.split(":|=", s)]: [s] cut at every character that is one of
    [seps]. *)
Fixpoint split_any (seps : list ascii) (s : string) : list string :=
  match s with
  | EmptyString => [EmptyString]
  | String c s' =>
      if existsb (Ascii.eqb c) seps then EmptyString :: split_any seps s'
      else match split_any seps s' with
           | [] => [String c EmptyString]
           | w :: ws => String c w :: ws
           end
  end.

(** What [keyvalue_parser] returns: a float, or a dictionary of floats. *)
Inductive keyvalue : Type :=
| Float (x : R)
| Dict (d : gmap string R).

Section Parsers.

(** The built-in [float], and [_el_iso] of [soprano/data/nmr.py], which
    splits a symbol such as ["2H"] into the element and the isotope. *)
Variable py_float : string -> res R.
Variable isotope : Type.
Variable _el_iso : string -> res (string * isotope).

(** Lines 106-111: the loop of [isotope_selection]. *)
Fixpoint isotope_loop (syms : list string) (isotope_dict : gmap string isotope)
  : res (gmap string isotope) :=
  match syms with
  | [] => inr isotope_dict
  | sym :: syms' =>
      '(el, iso) ← _el_iso sym;
      isotope_loop syms' (<[el := iso]> isotope_dict)
  end.

Definition isotope_selection (isotope_string : string)
  : res (gmap string isotope) :=
  if String.eqb isotope_string "" then inr ∅
  else isotope_loop (split_on "," isotope_string) ∅.

(** Lines 136-137: [el, reference = re.split(":|=", sym)] and
    [float(reference)]. *)
Definition keyvalue_item (sym : string) : res (string * R) :=
  match split_any [":"; "="]%char sym with
  | [el; reference] => x ← py_float reference; inr (el, x)
  | [] | [_] => inl (ValueError "not enough values to unpack (expected 2, got 1)")
  | _ => inl (ValueError "too many values to unpack (expected 2)")
  end.

Fixpoint keyvalue_loop (syms : list string) (keyvaluedict : gmap string R)
  : res (gmap string R) :=
  match syms with
  | [] => inr keyvaluedict
  | sym :: syms' =>
      '(el, x) ← keyvalue_item sym;
      keyvalue_loop syms' (<[el := x]> keyvaluedict)
  end.

(** [re.split(',', value)] is [value.split(',')]. *)
Definition keyvalue_parser (value : string) : res keyvalue :=
  match py_float value with
  | inr x => inr (Float x)
  | inl (ValueError _) =>
      Dict <$> (if String.eqb value "" then inr ∅
                else keyvalue_loop (split_on "," value) ∅)
  | inl e => inl e
  end.

End Parsers.

(** Stand-ins for [_el_iso] and [float] to run the parsers with. *)
Definition example_el_iso (sym : string) : res (string * nat) :=
  if String.eqb sym "2H" then inr ("H", 2%nat)
  else if String.eqb sym "1H" then inr ("H", 1%nat)
  else if String.eqb sym "13C" then inr ("C", 13%nat)
  else inl (ValueError "Invalid isotope symbol").

Definition example_float (s : string) : res R :=
  if String.eqb s "100" then inr 100%R
  else if String.eqb s "30.5" then inr (305 / 10)%R
  else inl (ValueError "could not convert string to float").

(** *** The NQR columns of [get_efg_summary] (lines 776-788) *)

(** [sorted(set([k for nqr in nqrs for k in nqr.keys()]))] *)
Definition transition_keys (nqrs : list (gmap string R)) : list string :=
  sorted String.leb
    (remove_dups (List.concat (map (fun nqr => map fst (map_to_list nqr)) nqrs))).

(** The array [values] of one key: the frequency in MHz where the atom has
    the transition, [nan] (here [None]) where it has not. *)
Definition nqr_values (nqrs : list (gmap string R)) (k : string) : list (option R) :=
  map (fun nqr => match nqr !! k with
                  | Some fq => Some (fq * 1e-6)%R
                  | None => None
                  end) nqrs.

Definition nqr_dict (nqrs : list (gmap string R)) : list (string * list (option R)) :=
  map (fun k => ("EFG_NQR " +:+ k, nqr_values nqrs k)) (transition_keys nqrs).

Section GroupInvariant.

Variable bmat : nat -> nat -> Z.
Variable hinds : list nat.
Variable n : Z.

(** What the loop keeps true of a group: its members are positions in
    [hinds] of hydrogens bonded to one of the atoms [xs], and their number
    is a multiple of [n]. *)
Definition well_formed (xs : list nat) (group : list nat) : Prop :=
  Forall (fun k => exists h xind,
                     hinds !! k = Some h /\ In xind xs /\ bmat xind h = 1%Z) group /\
  (n | Z.of_nat (length group))%Z.

End GroupInvariant.

(** *** Aggregation: the rules of object columns, the rows of a tag *)

(** Line 562 on the rules of the columns that hold objects. *)
Definition object_rules (df : frame) (aggrules : list (string * aggrule))
  : list (string * aggrule) :=
  fold_left (fun d kv => if is_object (snd kv) then dict_set (fst kv) First d else d)
            df aggrules.

(** The numbers of a column of tags, and the number of rows whose tag is
    [key]. *)
Definition tag_numbers (tags : list cell) : list Q :=
  List.concat (map (fun c => match c with Num x => [x] | _ => [] end) tags).

Definition tag_count (tags : list cell) (key : Q) : nat :=
  length (List.filter (fun c => match c with
                                | Num x => Qeq_bool x key
                                | _ => false
                                end) tags).

(** A frame as [nmr] builds it for a file without CIF labels: three sites,
    the first two with one tag. *)
Definition example_labelled_frame : frame :=
  [ ("indices", [Num 0; Num 1; Num 2]);
    ("labels", [Str "H"; Str "H"; Str "C"]);
    ("MagresView_labels", [Str "H_1"; Str "H_2"; Str "C_1"]);
    ("multiplicity", [Num 1%Q; Num 1%Q; Num 1%Q]);
    ("tags", [Num 0%Q; Num 0%Q; Num 1%Q]) ].

End NMRScript.

(** * Properties *)

(** ** Generalities on the two monads *)

Lemma py_last_app {A} (l : list A) (x : A) : py_last (l ++ [x]) = inr x.
Proof.
  induction l as [|y l IH]; [reflexivity|].
  simpl. destruct (l ++ [x]) eqn:E; [destruct l; discriminate|exact IH].
Qed.

Lemma mapM_M_cons {St A B} (f : A -> M St B) (a : A) (l : list A) (st : St) :
  mapM f (a :: l) st =
  match f a st with
  | (inl e, st') => (inl e, st')
  | (inr b, st') =>
      match mapM f l st' with
      | (inl e, st'') => (inl e, st'')
      | (inr bs, st'') => (inr (b :: bs), st'')
      end
  end.
Proof.
  simpl. unfold mbind, M_bind, mret, M_ret.
  destruct (f a st) as [[e|b] st']; [reflexivity|].
  destruct (mapM f l st') as [[e|bs] st'']; reflexivity.
Qed.

Lemma mapM_res_cons {A B} (f : A -> res B) (a : A) (l : list A) :
  mapM f (a :: l) =
  match f a with
  | inl e => inl e
  | inr b => match mapM f l with inl e => inl e | inr bs => inr (b :: bs) end
  end.
Proof.
  simpl. unfold mbind, res_bind, mret, res_ret.
  destruct (f a); [reflexivity|]. destruct (mapM f l); reflexivity.
Qed.

Lemma mapM_res_map {A B} (f : A -> res B) (g : A -> B) (l : list A) :
  (forall x, In x l -> f x = inr (g x)) -> mapM f l = inr (map g l).
Proof.
  induction l as [|a l IH]; intros Hf; [reflexivity|].
  rewrite mapM_res_cons, (Hf a) by (left; reflexivity).
  rewrite IH by (intros x Hx; apply Hf; right; exact Hx). reflexivity.
Qed.

Lemma mapM_res_ext {A B} (f g : A -> res B) (l : list A) :
  (forall x, In x l -> f x = g x) -> mapM f l = mapM g l.
Proof.
  induction l as [|a l IH]; intros Hf; [reflexivity|].
  rewrite !mapM_res_cons, (Hf a) by (left; reflexivity).
  rewrite IH by (intros x Hx; apply Hf; right; exact Hx). reflexivity.
Qed.

Lemma mapM_res_length {A B} (f : A -> res B) (l : list A) (bs : list B) :
  mapM f l = inr bs -> length bs = length l.
Proof.
  revert bs. induction l as [|a l IH]; intros bs.
  - intros [= <-]. reflexivity.
  - rewrite mapM_res_cons. destruct (f a); [discriminate|].
    destruct (mapM f l) eqn:E; [discriminate|].
    intros [= <-]. simpl. f_equal. apply IH. reflexivity.
Qed.

(** ** [AtomsProperty.get] *)

Module AtomsPropertyFacts.
Import AtomsProperty.

Section GetFacts.

Context {structure params object : Type}.
Context {P : Property structure params object} {H : Host object}.

#[local] Abbreviation value := (value object).
#[local] Abbreviation trace := (list (event structure params object)).

Lemma get_default_PyList (kwargs : params) (l : list (input structure)) (tr : trace) :
  get_default kwargs (PyList l) tr =
  match py_last l with
  | inl e => (inl e, tr)
  | inr x => get_default kwargs x tr
  end.
Proof.
  induction l as [|x l IH]; [reflexivity|].
  destruct l as [|y l]; [reflexivity|].
  exact IH.
Qed.

(** [self.get(s, **kwargs)] is [get] with both flags at their default. *)
Lemma get_flags_off (kwargs : params) (s : input structure) (tr : trace) :
  get s false false kwargs tr = get_default kwargs s tr.
Proof.
  destruct s as [a|c|l].
  - reflexivity.
  - simpl. unfold mbind, M_bind, mret, M_ret.
    destruct (mapM (call_extract kwargs) c tr) as [[e|arr] tr']; reflexivity.
  - rewrite get_default_PyList. simpl. unfold mbind, M_bind, lift.
    destruct (py_last l); reflexivity.
Qed.

Lemma get_average_unfold (l : list (input structure)) (store_array : bool)
  (kwargs : params) (tr : trace) :
  get (PyList l) store_array true kwargs tr =
  match mapM (get_default kwargs) l tr with
  | (inl e, tr') => (inl e, tr')
  | (inr results, tr') => (fold_frames results, tr')
  end.
Proof.
  simpl. unfold mbind, M_bind, lift.
  destruct (mapM (get_default kwargs) l tr) as [[e|results] tr']; reflexivity.
Qed.

Lemma mapM_M_length {St A B} (f : A -> M St B) (l : list A) (st st' : St)
  (bs : list B) :
  mapM f l st = (inr bs, st') -> length bs = length l.
Proof.
  revert st bs. induction l as [|a l IH]; intros st bs.
  - intros [= <- _]. reflexivity.
  - rewrite mapM_M_cons. destruct (f a st) as [[e|b] st1]; [discriminate|].
    destruct (mapM f l st1) as [[e|bs'] st2] eqn:E; [discriminate|].
    intros [= <- <-]. simpl. f_equal. eapply IH, E.
Qed.

(** *** Summation of numeric per-frame results *)

Lemma sum_from_nums (a : R) (xs : list R) :
  sum_from (VNum a) (map VNum xs) = inr (VNum (a + Rsum xs) : value).
Proof.
  revert a. induction xs as [|x xs IH]; intros a; simpl.
  - do 2 f_equal. lra.
  - unfold mbind, res_bind. rewrite IH. do 2 f_equal. lra.
Qed.

Lemma sum_from_arrays (acc : list R) (xss : list (list R)) :
  Forall (fun xs => length xs = length acc) xss ->
  sum_from (VArray acc) (map VArray xss) =
  inr (VArray (imap (fun i a => (a + Rsum (map (fun xs => nth i xs 0%R) xss))%R) acc) : value).
Proof.
  revert acc. induction xss as [|xs xss IH]; intros acc Hlen.
  - simpl. do 2 f_equal. apply list_eq. intros i.
    rewrite list_lookup_imap. destruct (acc !! i); simpl; [f_equal; lra|reflexivity].
  - inversion Hlen as [|? ? Hxs Hrest]; subst. simpl.
    unfold broadcast. rewrite Hxs, Nat.eqb_refl. simpl.
    unfold mbind, res_bind. rewrite IH.
    + do 2 f_equal. apply list_eq. intros i.
      rewrite !list_lookup_imap, lookup_zip_with.
      destruct (acc !! i) as [a|] eqn:Ea; simpl; [|reflexivity].
      destruct (xs !! i) as [x|] eqn:Ex; simpl.
      * f_equal. rewrite (nth_lookup_Some _ _ _ _ Ex). lra.
      * apply lookup_lt_Some in Ea. apply lookup_ge_None in Ex. lia.
    + rewrite length_zip_with, Hxs, Nat.min_id. exact Hrest.
Qed.

(** *** The site-by-site tensor average *)

Lemma fold_min_le (ns : list nat) (n : nat) :
  (fold_left Nat.min ns n <= n)%nat /\
  Forall (fun m => (fold_left Nat.min ns n <= m)%nat) ns.
Proof.
  revert n. induction ns as [|m ns IH]; intros n; simpl; [split; [lia|constructor]|].
  destruct (IH (Nat.min n m)) as [H1 H2]. split; [lia|].
  constructor; [lia|exact H2].
Qed.

Lemma shortest_le (frames : list (list value)) (sites : list value) :
  In sites frames -> (shortest frames <= length sites)%nat.
Proof.
  unfold shortest. destruct frames as [|f frames]; [intros []|].
  simpl. destruct (fold_min_le (map length frames) (length f)) as [H1 H2].
  intros [<-|Hin]; [exact H1|].
  rewrite Forall_forall in H2. apply H2.
  apply list_elem_of_In, in_map, Hin.
Qed.

Lemma getitem_column (frames : list (list value)) (i : nat) :
  (forall sites, In sites frames -> (i < length sites)%nat) ->
  mapM (fun r => py_getitem r i) (map VList frames) = inr (site_column frames i).
Proof.
  induction frames as [|f frames IH]; intros Hlen; [reflexivity|].
  simpl map. rewrite mapM_res_cons. simpl py_getitem.
  unfold site_column. simpl omap.
  destruct (lookup_lt_is_Some_2 f i (Hlen f (or_introl eq_refl))) as [v Hv].
  rewrite Hv. fold (site_column frames i).
  rewrite IH by (intros s Hs; apply Hlen; right; exact Hs). reflexivity.
Qed.

Lemma min_len_lists (frames : list (list value)) :
  frames <> [] -> min_len (map VList frames) = inr (shortest frames).
Proof.
  intros Hne. unfold min_len.
  rewrite (mapM_res_map py_len
             (fun r => match r with VList l => length l | _ => 0%nat end)).
  2:{ intros x Hx. apply in_map_iff in Hx as [f [<- _]]. reflexivity. }
  rewrite map_map. destruct frames as [|f frames]; [contradiction|].
  reflexivity.
Qed.

Lemma tensor_average_lists (frames : list (list value)) :
  frames <> [] ->
  tensor_average (map VList frames) =
  VList <$> mapM (fun i => NMRTensor_average (site_column frames i))
                 (seq 0 (shortest frames)).
Proof.
  intros Hne. unfold tensor_average.
  rewrite (min_len_lists frames Hne).
  unfold mbind at 1, res_bind at 1.
  rewrite (mapM_res_ext _ (fun i => NMRTensor_average (site_column frames i))).
  - unfold mbind, res_bind, fmap, res_fmap, mret, res_ret.
    destruct (mapM _ (seq 0 (shortest frames))); reflexivity.
  - intros i Hi. apply in_seq in Hi.
    rewrite (getitem_column frames i); [reflexivity|].
    intros s Hs. pose proof (shortest_le frames s Hs). lia.
Qed.

Lemma fold_frames_nums (xs : list R) :
  xs <> [] ->
  fold_frames (map (@VNum object) xs) = inr (VNum (Rsum xs / INR (length xs))).
Proof.
  intros Hne. destruct xs as [|x xs]; [contradiction|].
  transitivity (total ← py_sum (map (@VNum object) (x :: xs));
                py_truediv total (length (map (@VNum object) (x :: xs)))).
  { reflexivity. }
  unfold py_sum. rewrite sum_from_nums. unfold mbind, res_bind.
  rewrite length_map. unfold py_truediv. do 3 f_equal. lra.
Qed.

Lemma fold_frames_arrays (xss : list (list R)) (k : nat) :
  xss <> [] ->
  Forall (fun xs => length xs = k) xss ->
  fold_frames (map (@VArray object) xss) = inr (VArray (array_mean xss k)).
Proof.
  intros Hne Hk. destruct xss as [|xs xss]; [contradiction|].
  inversion Hk as [|? ? Hxs Hrest]; subst.
  transitivity (total ← py_sum (map (@VArray object) (xs :: xss));
                py_truediv total (length (map (@VArray object) (xs :: xss)))).
  { reflexivity. }
  unfold py_sum. cbn [map sum_from py_add]. unfold mbind at 2, res_bind at 2.
  rewrite sum_from_arrays.
  2:{ rewrite length_map. exact Hrest. }
  unfold mbind, res_bind. rewrite length_cons, length_map. unfold py_truediv.
  do 2 f_equal. unfold array_mean. apply list_eq. intros i.
  rewrite !list_lookup_fmap, list_lookup_imap, list_lookup_fmap.
  destruct (xs !! i) as [x|] eqn:Ex.
  - pose proof (lookup_lt_Some _ _ _ Ex) as Hi.
    rewrite lookup_seq_lt by exact Hi. cbn [fmap option_fmap option_map map length].
    change (0 + i)%nat with i. rewrite (nth_lookup_Some _ _ _ _ Ex).
    unfold Rdiv. do 2 f_equal. unfold Rsum. cbn [fold_right]. lra.
  - apply lookup_ge_None in Ex. rewrite lookup_seq_ge by exact Ex. reflexivity.
Qed.

(** C10: [get] on an empty list with [average=True] returns [None]; nothing
    is raised and no frame is evaluated (the trace is unchanged). *)
Theorem get_average_empty (store_array : bool) (kwargs : params) (tr : trace) :
  get (PyList []) store_array true kwargs tr = (inr VNone, tr).
Proof. reflexivity. Qed.

(** C6: on a non-empty list with [average=False], [get] behaves as [get] on
    the last element alone: same value, same effects; when that element is
    a structure, the only evaluation is [extract] on it. *)
Theorem get_last_frame_only (l : list (input structure)) (store_array : bool)
  (kwargs : params) :
  l <> [] ->
  exists (front : list (input structure)) (last : input structure),
    l = front ++ [last] /\
    (forall tr, get (PyList l) store_array false kwargs tr =
                get last false false kwargs tr) /\
    (forall a tr, last = Atoms a ->
       get (PyList l) store_array false kwargs tr =
       (extract a (update default_params kwargs),
        tr ++ [Extracted a (update default_params kwargs)])).
Proof.
  intros Hne. destruct (exists_last Hne) as [front [last ->]].
  exists front, last. split; [reflexivity|].
  assert (Hget : forall tr, get (PyList (front ++ [last])) store_array false kwargs tr =
                            get last false false kwargs tr).
  { intros tr. rewrite get_flags_off. simpl. unfold mbind, M_bind, lift.
    rewrite py_last_app. reflexivity. }
  split; [exact Hget|].
  intros a tr ->. rewrite Hget. reflexivity.
Qed.

(** C5 (amended): with [average=True] the per-frame results are folded by
    [fold_frames]; when the first frame's result is a non-empty list whose
    first entry carries ['data'] and every frame's result is a list, the
    value is the per-site list, as long as the shortest frame, of the tensor
    averages across frames; when the per-frame results are numbers, or
    arrays of one length, the value is their arithmetic mean. *)
Theorem get_average_of_frames (l : list (input structure)) (store_array : bool)
  (kwargs : params) (tr tr' : trace) (results : list value) :
  l <> [] ->
  mapM (get_default kwargs) l tr = (inr results, tr') ->
  (forall r00 first rest,
      results = map VList ((r00 :: first) :: rest) ->
      has_data r00 = true ->
      get (PyList l) store_array true kwargs tr =
      (VList <$> mapM (fun i => NMRTensor_average
                                  (site_column ((r00 :: first) :: rest) i))
                      (seq 0 (shortest ((r00 :: first) :: rest))),
       tr')) /\
  (forall xs,
      results = map VNum xs ->
      get (PyList l) store_array true kwargs tr =
      (inr (VNum (Rsum xs / INR (length xs))), tr')) /\
  (forall xss k,
      results = map VArray xss ->
      Forall (fun xs => length xs = k) xss ->
      get (PyList l) store_array true kwargs tr =
      (inr (VArray (array_mean xss k)), tr')).
Proof.
  intros Hne Hres.
  pose proof (mapM_M_length _ _ _ _ _ Hres) as Hlen.
  rewrite get_average_unfold, Hres.
  split; [|split].
  - intros r00 first rest -> Hdata. f_equal.
    change (fold_frames (map VList ((r00 :: first) :: rest)))
      with (if has_data r00
            then tensor_average (map VList ((r00 :: first) :: rest))
            else mean_or_none (map VList ((r00 :: first) :: rest))).
    rewrite Hdata. apply tensor_average_lists. discriminate.
  - intros xs ->. f_equal. apply fold_frames_nums.
    intros ->. destruct l; [contradiction|discriminate].
  - intros xss k -> Hk. f_equal. apply fold_frames_arrays; [|exact Hk].
    intros ->. destruct l; [contradiction|discriminate].
Qed.

End GetFacts.

Section Instances.

#[local] Existing Instance sites_property.
#[local] Existing Instance sites_host.

Lemma get_last_frame_only_witness :
  [Atoms 1%nat; Atoms 2%nat] <> [] /\
  exists front last,
    [Atoms 1%nat; Atoms 2%nat] = front ++ [last] /\
    (forall tr, get (PyList [Atoms 1%nat; Atoms 2%nat]) true false tt tr =
                get last false false tt tr) /\
    (forall a tr, last = Atoms a ->
       get (PyList [Atoms 1%nat; Atoms 2%nat]) true false tt tr =
       (extract a (update default_params tt),
        tr ++ [Extracted a (update default_params tt)])).
Proof.
  split; [discriminate|].
  apply (get_last_frame_only [Atoms 1%nat; Atoms 2%nat] true tt).
  discriminate.
Defined.

Lemma get_average_of_frames_witness :
  get (PyList [Atoms 1%nat; Atoms 2%nat]) false true tt [] =
  (inr (VList [VObj 0%nat]), [Extracted 1%nat tt; Extracted 2%nat tt]).
Proof.
  destruct (get_average_of_frames
              [Atoms 1%nat; Atoms 2%nat] false tt []
              [Extracted 1%nat tt; Extracted 2%nat tt]
              [VList [VObj 0%nat]; VList [VObj 0%nat; VObj 1%nat]]
              ltac:(discriminate) eq_refl) as [Htensor _].
  exact (Htensor (VObj 0%nat) [] [[VObj 0%nat; VObj 1%nat]] eq_refl eq_refl).
Defined.

(** C5 as stated fails when the first frame has no site: every per-frame
    result is a list of objects carrying ['data'], the claimed value is the
    empty per-site list, and [get] raises a [TypeError] from
    [sum(results)]. *)
Lemma get_average_empty_first_frame :
  let l := [Atoms 0%nat; Atoms 1%nat] in
  let results := [VList []; VList [VObj 0%nat]] in
  let tr' := [Extracted 0%nat tt; Extracted 1%nat tt] in
  mapM (get_default tt) l [] = (inr results, tr') /\
  forallb is_tensor_list results = true /\
  spec_fold_frames results = inr (VList []) /\
  get (PyList l) false true tt [] = (inl TypeError, tr') /\
  get (PyList l) false true tt [] <> (spec_fold_frames results, tr').
Proof.
  repeat split; discriminate.
Qed.

End Instances.

(** Per-frame results that are lists of objects without ['data'] (the
    dictionaries of [EFGNQR], say) are not averaged either: [sum] raises. *)
Lemma get_average_plain_lists :
  get (P := sites_property) (H := plain_host)
    (PyList [Atoms 1%nat; Atoms 1%nat]) false true tt [] =
  (inl TypeError, [Extracted 1%nat tt; Extracted 1%nat tt]).
Proof. reflexivity. Qed.

Section MoreGetFacts.

Context {structure params object : Type}.
Context {P : Property structure params object} {H : Host object}.

#[local] Abbreviation value := (value object).
#[local] Abbreviation trace := (list (event structure params object)).

(** *** [get] on a collection *)

Lemma mapM_extract_events {St} (run : structure -> M (list St) value)
  (f : structure -> res value) (ev : structure -> St) (c : list structure)
  (tr : list St) :
  (forall a tr, run a tr = (f a, tr ++ [ev a])) ->
  (forall vals, mapM f c = inr vals ->
     mapM run c tr = (inr vals, tr ++ map ev c)) /\
  (forall e, mapM f c = inl e ->
     exists k a,
       c !! k = Some a /\ f a = inl e /\
       (forall j b, (j < k)%nat -> c !! j = Some b -> exists v, f b = inr v) /\
       mapM run c tr = (inl e, tr ++ map ev (take (S k) c))).
Proof.
  intros Hrun. revert tr. induction c as [|a c IH]; intros tr.
  - split; [|discriminate]. intros vals [= <-]. simpl. rewrite app_nil_r. reflexivity.
  - rewrite mapM_res_cons. split.
    + intros vals Hvals. rewrite mapM_M_cons, Hrun.
      destruct (f a) as [e|v]; [discriminate|].
      destruct (mapM f c) as [e|vs] eqn:Hc; [discriminate|].
      injection Hvals as <-.
      rewrite (proj1 (IH _) vs eq_refl). simpl. rewrite <- app_assoc. reflexivity.
    + intros e He. rewrite mapM_M_cons, Hrun.
      destruct (f a) as [e'|v] eqn:Ha.
      * injection He as ->. exists 0%nat, a. split; [reflexivity|].
        split; [exact Ha|]. split; [intros j b Hj; lia|]. reflexivity.
      * destruct (mapM f c) as [e'|vs] eqn:Hc; [|discriminate].
        injection He as ->.
        destruct (proj2 (IH (tr ++ [ev a])) e eq_refl) as (k & b & Hk & Hb & Hbefore & Hmap).
        exists (S k), b. split; [exact Hk|]. split; [exact Hb|]. split.
        -- intros [|j] b' Hj Hb'.
           ++ injection Hb' as <-. eauto.
           ++ apply (Hbefore j b'); [lia|exact Hb'].
        -- rewrite Hmap. rewrite <- app_assoc. reflexivity.
Qed.

(** X1: on a collection, [get] calls [extract] on the structures in their
    order, each with the default parameters updated by the keyword
    arguments. When every call returns and [store_array] is not set, the
    value is the list of the results, one per structure. When
    [store_array] is set, the list is handed to [set_array] of the
    collection, once, after the last call and under the default name: if
    that call returns, the list is stored and returned; if it raises (as
    it does on results of different lengths), [get] raises its error and
    nothing is stored. When a call of [extract] raises, [get] raises the
    same error, no later structure is evaluated and nothing is stored.
    The flag [average] plays no part. *)
Theorem get_collection_spec (c : list structure) (store_array average : bool)
  (kwargs : params) (tr : trace) :
  (forall vals,
      mapM (fun a => extract a (update default_params kwargs)) c = inr vals ->
      length vals = length c /\
      (store_array = false ->
       get (Collection c) store_array average kwargs tr =
       (inr (VList vals),
        tr ++ map (fun a => Extracted a (update default_params kwargs)) c)) /\
      (store_array = true ->
       set_array_check default_name (VList vals) = inr tt ->
       get (Collection c) store_array average kwargs tr =
       (inr (VList vals),
        tr ++ map (fun a => Extracted a (update default_params kwargs)) c
           ++ [SetArray default_name (VList vals)])) /\
      (forall e,
         store_array = true ->
         set_array_check default_name (VList vals) = inl e ->
         get (Collection c) store_array average kwargs tr =
         (inl e,
          tr ++ map (fun a => Extracted a (update default_params kwargs)) c))) /\
  (forall e,
      mapM (fun a => extract a (update default_params kwargs)) c = inl e ->
      exists k a,
        c !! k = Some a /\ extract a (update default_params kwargs) = inl e /\
        (forall j b, (j < k)%nat -> c !! j = Some b ->
           exists v, extract b (update default_params kwargs) = inr v) /\
        get (Collection c) store_array average kwargs tr =
        (inl e,
         tr ++ map (fun a => Extracted a (update default_params kwargs))
                   (take (S k) c))).
Proof.
  destruct (mapM_extract_events (call_extract kwargs)
              (fun a => extract a (update default_params kwargs))
              (fun a => Extracted a (update default_params kwargs)) c tr
              ltac:(reflexivity)) as [Hok Herr].
  split.
  - intros vals Hvals. split; [exact (mapM_res_length _ _ _ Hvals)|].
    split; [|split].
    + intros ->. cbn [get]. unfold mbind at 1, M_bind at 1.
      rewrite (Hok vals Hvals). reflexivity.
    + intros -> Hset. cbn [get]. unfold mbind at 1, M_bind at 1.
      rewrite (Hok vals Hvals).
      unfold collection_set_array, mbind, M_bind, mret, M_ret.
      rewrite Hset, <- app_assoc. reflexivity.
    + intros e -> Hset. cbn [get]. unfold mbind at 1, M_bind at 1.
      rewrite (Hok vals Hvals).
      unfold collection_set_array, mbind, M_bind.
      rewrite Hset. reflexivity.
  - intros e He. destruct (Herr e He) as (k & a & Hk & Ha & Hbefore & Hmap).
    exists k, a. split; [exact Hk|]. split; [exact Ha|]. split; [exact Hbefore|].
    cbn [get]. unfold mbind at 1, M_bind at 1. rewrite Hmap. reflexivity.
Qed.

(** *** Per-frame results that cannot be averaged *)

(** X2: with [average=True], when the first frame's result is [None], an
    empty list, or a list whose first entry carries no ['data'] attribute
    (a list of dictionaries or of plain lists, say), [get] raises a
    [TypeError]; every frame has been evaluated by then. *)
Theorem get_average_lists_raise (l : list (input structure)) (store_array : bool)
  (kwargs : params) (tr tr' : trace) (r0 : value) (rest : list value) :
  mapM (get_default kwargs) l tr = (inr (r0 :: rest), tr') ->
  r0 = VNone \/ r0 = VList [] \/
    (exists r00 first, r0 = VList (r00 :: first) /\ has_data r00 = false) ->
  get (PyList l) store_array true kwargs tr = (inl TypeError, tr').
Proof.
  intros Hres Hr0. rewrite get_average_unfold, Hres. f_equal.
  destruct Hr0 as [-> | [-> | (r00 & first & -> & Hdata)]].
  - reflexivity.
  - reflexivity.
  - change (fold_frames (VList (r00 :: first) :: rest))
      with (if has_data r00
            then tensor_average (VList (r00 :: first) :: rest)
            else mean_or_none (VList (r00 :: first) :: rest)).
    rewrite Hdata. reflexivity.
Qed.

(** *** What [get] stores when called on a list *)

Lemma input_nested_ind (Q : input structure -> Prop) :
  (forall a, Q (Atoms a)) ->
  (forall c, Q (Collection c)) ->
  (forall l, Forall Q l -> Q (PyList l)) ->
  forall s, Q s.
Proof.
  intros Ha Hc Hl. fix IH 1. intros [a|c|l]; [apply Ha|apply Hc|].
  apply Hl. induction l as [|x l IHl]; constructor; [apply IH|exact IHl].
Qed.

Lemma call_extract_events (kwargs : params) (c : list structure) (tr : trace) :
  exists evs, snd (mapM (call_extract kwargs) c tr) = tr ++ evs /\
              only_extracts kwargs evs.
Proof.
  revert tr. induction c as [|a c IH]; intros tr.
  - exists []. split; [simpl; rewrite app_nil_r; reflexivity|constructor].
  - rewrite mapM_M_cons. unfold call_extract at 1.
    destruct (extract a (update default_params kwargs)) as [e|v].
    + exists [Extracted a (update default_params kwargs)].
      split; [reflexivity|]. constructor; [eauto|constructor].
    + destruct (IH (tr ++ [Extracted a (update default_params kwargs)]))
        as (evs & Hevs & Honly).
      exists (Extracted a (update default_params kwargs) :: evs). split.
      * destruct (mapM (call_extract kwargs) c _) as [[e|vs] tr''];
          simpl in *; rewrite Hevs, <- app_assoc; reflexivity.
      * constructor; [eauto|exact Honly].
Qed.

Lemma py_last_In {A} (l : list A) (x : A) : py_last l = inr x -> In x l.
Proof.
  induction l as [|y l IH]; [discriminate|].
  destruct l as [|z l]; [intros [= <-]; left; reflexivity|].
  intros Hlast. right. apply IH. exact Hlast.
Qed.

Lemma get_default_events (kwargs : params) (s : input structure) :
  forall tr, exists evs,
    snd (get_default kwargs s tr) = tr ++ evs /\ only_extracts kwargs evs.
Proof.
  induction s as [a|c|l IH] using input_nested_ind; intros tr.
  - exists [Extracted a (update default_params kwargs)].
    split; [reflexivity|]. constructor; [eauto|constructor].
  - destruct (call_extract_events kwargs c tr) as (evs & Hevs & Honly).
    exists evs. split; [|exact Honly].
    simpl. unfold mbind, M_bind, mret, M_ret.
    destruct (mapM (call_extract kwargs) c tr) as [[e|arr] tr']; exact Hevs.
  - rewrite get_default_PyList.
    destruct (py_last l) as [e|x] eqn:Hlast.
    + exists []. split; [simpl; rewrite app_nil_r; reflexivity|constructor].
    + rewrite Forall_forall in IH. apply IH, list_elem_of_In, py_last_In, Hlast.
Qed.

Lemma frames_events (kwargs : params) (l : list (input structure)) (tr : trace) :
  exists evs, snd (mapM (get_default kwargs) l tr) = tr ++ evs /\
              only_extracts kwargs evs.
Proof.
  revert tr. induction l as [|s l IH]; intros tr.
  - exists []. split; [simpl; rewrite app_nil_r; reflexivity|constructor].
  - rewrite mapM_M_cons.
    destruct (get_default_events kwargs s tr) as (evs1 & Hevs1 & Honly1).
    destruct (get_default kwargs s tr) as [[e|v] tr1]; simpl in Hevs1; subst tr1.
    + exists evs1. split; [reflexivity|exact Honly1].
    + destruct (IH (tr ++ evs1)) as (evs2 & Hevs2 & Honly2).
      exists (evs1 ++ evs2). split.
      * destruct (mapM (get_default kwargs) l _) as [[e|vs] tr2];
          simpl in *; rewrite Hevs2, <- app_assoc; reflexivity.
      * apply Forall_app. split; assumption.
Qed.

(** X3: called on a Python list, [get] stores nothing, whatever
    [store_array] and [average] are and whatever the list holds
    (structures, collections, lists of these): all it does is call
    [extract], always with the default parameters updated by the keyword
    arguments. The two flags are not handed down to the elements. *)
Theorem get_list_never_stores (l : list (input structure))
  (store_array average : bool) (kwargs : params) (tr : trace) :
  exists evs,
    snd (get (PyList l) store_array average kwargs tr) = tr ++ evs /\
    Forall (fun ev => exists a, ev = Extracted a (update default_params kwargs)) evs.
Proof.
  destruct average.
  - rewrite get_average_unfold.
    destruct (frames_events kwargs l tr) as (evs & Hevs & Honly).
    exists evs. split; [|exact Honly].
    destruct (mapM (get_default kwargs) l tr) as [[e|results] tr']; exact Hevs.
  - destruct (get_default_events kwargs (PyList l) tr) as (evs & Hevs & Honly).
    exists evs. split; [|exact Honly].
    rewrite <- Hevs, get_default_PyList. simpl. unfold mbind, M_bind, lift.
    destruct (py_last l); reflexivity.
Qed.

End MoreGetFacts.

(** *** [__init__] and [__call__] *)

Section CallFacts.

Context {structure V object : Type}.
Context {P : Property structure (gmap string V) object}.
Context {H : Host object}.

Lemma validate_ok (class_name : string) (kw : list (string * V))
  (m : gmap string V) :
  Forall (fun p => is_Some (m !! p)) kw.*1 ->
  NoDup kw.*1 ->
  validate class_name m kw = inr (list_to_map kw ∪ m).
Proof.
  revert m. induction kw as [|[p v] kw IH]; intros m Hall Hnd.
  - simpl. rewrite (left_id_L ∅ (∪)). reflexivity.
  - cbn [validate]. cbn [fmap list_fmap fst] in Hall, Hnd.
    inversion Hall as [|? ? Hp Hrest]; subst.
    inversion Hnd as [|? ? Hfresh Hnd']; subst.
    rewrite bool_decide_eq_true_2 by exact Hp.
    rewrite IH.
    + f_equal. cbn [list_to_map foldr]. simpl.
      rewrite <- insert_union_l. rewrite <- insert_union_r; [reflexivity|].
      apply not_elem_of_list_to_map_1. exact Hfresh.
    + eapply Forall_impl; [exact Hrest|]. intros q Hq. simpl in Hq.
      destruct (decide (p = q)) as [->|Hne].
      * rewrite lookup_insert_eq. eauto.
      * rewrite lookup_insert_ne by exact Hne. exact Hq.
    + exact Hnd'.
Qed.

Lemma validate_same_keys (class_name : string) (kw : list (string * V))
  (m m' : gmap string V) :
  validate class_name m kw = inr m' ->
  Forall (fun p => is_Some (m !! p)) kw.*1 /\ dom m' = dom m.
Proof.
  revert m. induction kw as [|[p v] kw IH]; intros m.
  - intros [= <-]. split; [constructor|reflexivity].
  - cbn [validate]. destruct (bool_decide (is_Some (m !! p))) eqn:Hp; [|discriminate].
    apply bool_decide_eq_true_1 in Hp.
    intros Hval. destruct (IH _ Hval) as [Hall Hdom]. split.
    + constructor; [exact Hp|].
      eapply Forall_impl; [exact Hall|]. intros q Hq. simpl in Hq.
      destruct (decide (p = q)) as [->|Hne]; [exact Hp|].
      rewrite lookup_insert_ne in Hq by exact Hne. exact Hq.
    + rewrite Hdom. apply dom_insert_lookup_L, Hp.
Qed.

Lemma validate_error (class_name : string) (kw : list (string * V))
  (m : gmap string V) (p : string) :
  p ∈ kw.*1 -> m !! p = None ->
  validate class_name m kw =
  inl (ValueError ("Invalid argument passed to '" +:+ class_name +:+ "'")).
Proof.
  revert m. induction kw as [|[q v] kw IH]; intros m Hin Hnone.
  - inversion Hin.
  - cbn [validate]. destruct (bool_decide (is_Some (m !! q))) eqn:Hq; [|reflexivity].
    apply bool_decide_eq_true_1 in Hq.
    cbn [fmap list_fmap fst] in Hin. apply elem_of_cons in Hin as [->|Hin].
    + rewrite Hnone in Hq. destruct Hq; discriminate.
    + apply IH; [exact Hin|].
      rewrite lookup_insert_ne; [exact Hnone|].
      intros ->. rewrite Hnone in Hq. destruct Hq; discriminate.
Qed.

(** X4: [__init__] accepts the keyword arguments whose names are all
    parameters of the property, and raises a [ValueError] that names the
    class as soon as one is not. The instance it builds has the given
    name, or the default name when none is given, and a parameter
    dictionary with the very keys of [default_params]. *)
Theorem init_validates (class_name : string) (name : option string)
  (kw : list (string * V)) :
  ((forall p, p ∈ kw.*1 -> is_Some (default_params !! p)) ->
   exists self,
     __init__ class_name name kw = inr self /\
     self_name self = default default_name name /\
     dom (self_params self) = dom (default_params (Property := P))) /\
  (forall p, p ∈ kw.*1 -> default_params !! p = None ->
     __init__ class_name name kw =
     inl (ValueError ("Invalid argument passed to '" +:+ class_name +:+ "'"))).
Proof.
  split.
  - intros Hall. unfold __init__.
    destruct (validate class_name default_params kw) as [e|m] eqn:Hval.
    + exfalso. revert Hall Hval. generalize (default_params (Property := P)).
      induction kw as [|[p v] kw IH]; intros m Hall; [discriminate|].
      cbn [validate]. rewrite bool_decide_eq_true_2.
      * apply IH. intros q Hq.
        destruct (decide (p = q)) as [->|Hne]; [rewrite lookup_insert_eq; eauto|].
        rewrite lookup_insert_ne by exact Hne. apply Hall. right. exact Hq.
      * apply Hall. left.
    + eexists. split; [reflexivity|]. split.
      * destruct name; reflexivity.
      * exact (proj2 (validate_same_keys _ _ _ _ Hval)).
  - intros p Hin Hnone. unfold __init__.
    rewrite (validate_error class_name kw _ p Hin Hnone). reflexivity.
Qed.

Lemma mapM_M_ext {St A B} (f g : A -> M St B) (l : list A) (st : St) :
  (forall a st, f a st = g a st) -> mapM f l st = mapM g l st.
Proof.
  intros Hfg. revert st. induction l as [|a l IH]; intros st; [reflexivity|].
  rewrite !mapM_M_cons, Hfg. destruct (g a st) as [[e|b] st']; [reflexivity|].
  rewrite IH. reflexivity.
Qed.

(** X5: for a property whose [update] is that of dictionaries, calling the
    instance that [__init__] builds from keyword arguments is calling
    [get] with the same keyword arguments: on a structure always, and on a
    collection when nothing is stored or when the instance was given no
    name of its own. *)
Theorem call_agrees_with_get (class_name : string) (name : option string)
  (kw : list (string * V)) (self : instance V) :
  (forall d k : gmap string V, update d k = k ∪ d) ->
  NoDup kw.*1 ->
  __init__ class_name name kw = inr self ->
  self_params self = update default_params (list_to_map kw) /\
  (forall a store_array average tr,
      __call__ self (inl a) store_array tr =
      get (Atoms a) store_array average (list_to_map kw) tr) /\
  (forall c average tr,
      __call__ self (inr c) false tr =
      get (Collection c) false average (list_to_map kw) tr) /\
  (forall c average tr,
      name = None ->
      __call__ self (inr c) true tr =
      get (Collection c) true average (list_to_map kw) tr).
Proof.
  intros Hupdate Hnd Hinit. unfold __init__ in Hinit.
  destruct (validate class_name default_params kw) as [e|m] eqn:Hval; [discriminate|].
  injection Hinit as <-.
  destruct (validate_same_keys _ _ _ _ Hval) as [Hall _].
  rewrite (validate_ok class_name kw _ Hall Hnd) in Hval. injection Hval as <-.
  cbn [self_params self_name].
  assert (Hcall : forall a tr,
             call_instance
               {| self_name := match name with Some n => n | None => default_name end;
                  self_params := list_to_map kw ∪ default_params |} a tr =
             call_extract (list_to_map kw) a tr).
  { intros a tr. unfold call_instance, call_extract. cbn [self_params].
    rewrite Hupdate. reflexivity. }
  split; [rewrite Hupdate; reflexivity|].
  split; [intros a store_array average tr; apply Hcall|].
  split.
  - intros c average tr. cbn [__call__ get].
    unfold mbind at 1. unfold M_bind at 1.
    rewrite (mapM_M_ext _ (call_extract (list_to_map kw)) c tr Hcall). reflexivity.
  - intros c average tr ->. cbn [__call__ get self_name].
    unfold mbind at 1. unfold M_bind at 1.
    rewrite (mapM_M_ext _ (call_extract (list_to_map kw)) c tr Hcall). reflexivity.
Qed.

End CallFacts.

Section MoreInstances.

#[local] Existing Instance keyed_property.
#[local] Existing Instance plain_host.

(** Two structures with one and two sites: the results cannot be stored as
    one array, and [get] raises the error of [set_array]; without
    [store_array] the list is returned. *)
Lemma get_collection_ragged :
  get (P := sites_property) (H := sites_host)
    (Collection [1%nat; 2%nat]) true false tt [] =
    (inl (ValueError "setting an array element with a sequence"),
     [Extracted 1%nat tt; Extracted 2%nat tt]) /\
  get (P := sites_property) (H := sites_host)
    (Collection [1%nat; 2%nat]) false false tt [] =
    (inr (VList [VList [VObj 0%nat]; VList [VObj 0%nat; VObj 1%nat]]),
     [Extracted 1%nat tt; Extracted 2%nat tt]).
Proof. split; reflexivity. Qed.

Lemma get_average_lists_raise_witness :
  get (P := sites_property) (H := plain_host)
    (PyList [Atoms 2%nat; Atoms 1%nat]) false true tt [] =
  (inl TypeError, [Extracted 2%nat tt; Extracted 1%nat tt]).
Proof.
  apply (get_average_lists_raise (P := sites_property) (H := plain_host)
           [Atoms 2%nat; Atoms 1%nat] false tt []
           [Extracted 2%nat tt; Extracted 1%nat tt]
           (VList [VObj 0%nat; VObj 1%nat]) [VList [VObj 0%nat]] eq_refl).
  right. right. exists (VObj 0%nat), [VObj 1%nat]. split; reflexivity.
Defined.

Lemma call_agrees_with_get_witness :
  exists self,
    __init__ "Keyed" (Some "mine") [("order", 7%nat)] = inr self /\
    self_params self = {[ "order" := 7%nat ]} ∪ {[ "force_recalc" := 0%nat; "order" := 1%nat ]} /\
    forall tr, __call__ self (inl 2%nat) true tr =
               get (Atoms 2%nat) true false {[ "order" := 7%nat ]} tr.
Proof.
  eexists. split; [reflexivity|].
  destruct (call_agrees_with_get (P := keyed_property) (H := plain_host)
              "Keyed" (Some "mine") [("order", 7%nat)] _
              (fun _ _ => eq_refl) (NoDup_singleton _) eq_refl)
    as (Hparams & Hatoms & _).
  split.
  - rewrite Hparams. simpl. rewrite insert_empty. reflexivity.
  - intros tr. rewrite (Hatoms 2%nat true false tr). simpl.
    rewrite insert_empty. reflexivity.
Defined.

End MoreInstances.

End AtomsPropertyFacts.

(** ** [efg.py]: the guard, the isotope list, the NQR transitions *)

Module EFGFacts.
Import EFG.

(** *** Transition keys *)

Section Keys.

Lemma append_cons (c : ascii) (s1 s2 : string) :
  String c s1 +:+ s2 = String c (s1 +:+ s2).
Proof. reflexivity. Qed.

Lemma append_nil (s : string) : "" +:+ s = s.
Proof. reflexivity. Qed.

Lemma string_app_assoc (s1 s2 s3 : string) :
  (s1 +:+ s2) +:+ s3 = s1 +:+ (s2 +:+ s3).
Proof.
  induction s1 as [|c s1 IH]; [reflexivity|].
  rewrite !append_cons. f_equal. exact IH.
Qed.

(** A decimal numeral holds no point: what precedes the first point of a
    string determines the numeral. *)
Lemma digits_split (d1 d2 : Decimal.uint) (r1 r2 : string) :
  NilEmpty.string_of_uint d1 +:+ String "." r1 =
  NilEmpty.string_of_uint d2 +:+ String "." r2 ->
  d1 = d2 /\ r1 = r2.
Proof.
  revert d2. induction d1 as [|d1 IH|d1 IH|d1 IH|d1 IH|d1 IH|d1 IH|d1 IH|d1 IH|d1 IH|d1 IH];
    intros [|d2|d2|d2|d2|d2|d2|d2|d2|d2|d2]; simpl;
    rewrite ?append_cons, ?append_nil; intros Heq;
    try discriminate;
    try (injection Heq as Heq; destruct (IH _ Heq) as [-> ->]; split; reflexivity).
  injection Heq as ->. split; reflexivity.
Qed.

Lemma half_of (m : Q) (z : Z) : (m == z # 2)%Q -> Qred m = half z.
Proof. intros Hm. apply Qred_complete, Hm. Qed.

Lemma half_inj (z1 z2 : Z) : half z1 = half z2 -> z1 = z2.
Proof.
  intros Heq. assert (Hq : (z1 # 2 == z2 # 2)%Q).
  { rewrite <- (Qred_correct (z1 # 2)), <- (Qred_correct (z2 # 2)).
    unfold half in Heq. rewrite Heq. reflexivity. }
  unfold Qeq in Hq. simpl in Hq. lia.
Qed.

Lemma Qfloor_half (z : Z) : Qfloor (2 * half z) = z.
Proof.
  assert (Hq : (2 * half z == inject_Z z)%Q).
  { unfold half. rewrite Qred_correct. unfold Qeq. simpl. lia. }
  rewrite Hq. apply Qfloor_Z.
Qed.

Lemma half_succ (z : Z) : Qred (half z + 1) = half (z + 2).
Proof.
  apply Qred_complete. unfold half. rewrite Qred_correct.
  unfold Qeq. simpl. lia.
Qed.

Lemma half_nonneg (z : Z) : Qle_bool 0 (half z) = (0 <=? z)%Z.
Proof.
  apply eq_true_iff_eq. rewrite Qle_bool_iff, Z.leb_le.
  unfold half. rewrite Qred_correct. unfold Qle. simpl. lia.
Qed.

Lemma float_str_half (z : Z) :
  (0 <= z)%Z ->
  float_str (half z) =
  NilEmpty.string_of_uint (N.to_uint (Z.to_N (z / 2)))
  +:+ String "." (if Z.odd z then "5" else "0").
Proof.
  intros Hz. unfold float_str. rewrite Qfloor_half.
  destruct (Z.ltb_spec z 0) as [Hneg|_]; [lia|].
  rewrite Z.abs_eq by exact Hz. rewrite append_nil.
  destruct (Z.odd z); reflexivity.
Qed.

Lemma nqr_key_half (z : Z) :
  (0 <= z)%Z ->
  nqr_key (half z) =
  "m=" +:+ NilEmpty.string_of_uint (N.to_uint (Z.to_N (z / 2)))
  +:+ String "." ((if Z.odd z then "5" else "0") +:+ "->" +:+ float_str (half (z + 2))).
Proof.
  intros Hz. unfold nqr_key. rewrite half_succ, (float_str_half z Hz).
  rewrite string_app_assoc, append_cons. reflexivity.
Qed.

Lemma nqr_key_inj (z1 z2 : Z) :
  (0 <= z1)%Z -> (0 <= z2)%Z ->
  nqr_key (half z1) = nqr_key (half z2) -> z1 = z2.
Proof.
  intros H1 H2. rewrite (nqr_key_half z1 H1), (nqr_key_half z2 H2).
  rewrite !append_cons, !append_nil. intros [= Heq].
  apply digits_split in Heq as [Hd Hr].
  apply DecimalN.Unsigned.to_uint_inj in Hd.
  assert (Hdiv : (z1 / 2 = z2 / 2)%Z).
  { apply (f_equal Z.of_N) in Hd. rewrite !Z2N.id in Hd; [exact Hd| |];
      apply Z.div_pos; lia. }
  assert (Hodd : Z.odd z1 = Z.odd z2).
  { destruct (Z.odd z1), (Z.odd z2); rewrite !append_cons in Hr;
      congruence. }
  pose proof (Z.div_mod z1 2 ltac:(lia)) as E1.
  pose proof (Z.div_mod z2 2 ltac:(lia)) as E2.
  rewrite Zmod_odd in E1, E2. rewrite Hdiv, Hodd in E1. lia.
Qed.

(** *** The transition set *)

Lemma half_step (spin : Q) (n : Z) (k : nat) :
  (spin == n # 2)%Q ->
  Qred (- spin + inject_Z (Z.of_nat k)) = half (2 * Z.of_nat k - n).
Proof.
  intros Hspin. apply half_of. rewrite Hspin.
  unfold Qeq, Qplus, Qopp, inject_Z. simpl. lia.
Qed.

Lemma half_step_1 (spin : Q) (n : Z) (k : nat) :
  (spin == n # 2)%Q ->
  Qred (- spin + inject_Z (Z.of_nat k) * 1) = half (2 * Z.of_nat k - n).
Proof.
  intros Hspin. rewrite <- (half_step spin n k Hspin).
  apply Qred_complete. rewrite Qmult_1_r. reflexivity.
Qed.

Lemma filter_half (zs : list Z) :
  List.filter (fun m => Qle_bool 0 m) (map half zs) =
  map half (List.filter (fun z => (0 <=? z)%Z) zs).
Proof.
  induction zs as [|z zs IH]; [reflexivity|].
  simpl. rewrite half_nonneg, IH. destruct (0 <=? z)%Z; reflexivity.
Qed.

Lemma spec_transitions_half (spin : Q) (n : Z) :
  (spin == n # 2)%Q ->
  spec_transitions spin =
  map half (List.filter (fun z => (0 <=? z)%Z)
              (map (fun k => (2 * Z.of_nat k - n)%Z) (seq 0 (Z.to_nat n)))).
Proof.
  intros Hspin. unfold spec_transitions.
  assert (Hfloor : Qfloor (2 * spin) = n).
  { assert (Hq : (2 * spin == inject_Z n)%Q).
    { rewrite Hspin. unfold Qeq. simpl. lia. }
    rewrite Hq. apply Qfloor_Z. }
  rewrite Hfloor, <- filter_half, map_map. f_equal.
  apply map_ext. intros k. apply half_step, Hspin.
Qed.

Lemma nqr_ms_half (spin : Q) (n : Z) :
  (spin == n # 2)%Q -> (1 < n)%Z ->
  nqr_ms spin =
  map half (List.filter (fun z => (0 <=? z)%Z)
              (map (fun k => (2 * Z.of_nat k - n)%Z) (seq 0 (Z.to_nat n)))).
Proof.
  intros Hspin Hn. unfold nqr_ms, _frange.
  assert (Hceil : Qceiling ((spin + 1 - - spin) / 1) = (n + 1)%Z).
  { assert (Hq : ((spin + 1 - - spin) / 1 == inject_Z (n + 1))%Q).
    { rewrite Hspin. unfold Qeq. simpl. lia. }
    rewrite Hq. apply Qceiling_Z. }
  rewrite Hceil.
  replace (Z.to_nat (n + 1)) with (S (Z.to_nat n)) by lia.
  rewrite seq_S, map_app, List.filter_app. cbn [map List.filter Nat.add].
  rewrite (half_step_1 spin n _ Hspin), half_nonneg.
  replace (0 <=? 2 * Z.of_nat (Z.to_nat n) - n)%Z with true
    by (symmetry; apply Z.leb_le; lia).
  rewrite removelast_last.
  rewrite <- filter_half, map_map. f_equal.
  apply map_ext. intros k. apply half_step_1, Hspin.
Qed.

(** *** The dictionary of one atom *)

Lemma transitions_of_spec (A eta : R) (ms : list Q) (d : gmap string R) :
  NoDup (map nqr_key ms) ->
  (forall m, In m ms ->
     transitions_of A eta ms d !! nqr_key m = Some (nqr_fq A m eta)) /\
  (forall key, key ∉ map nqr_key ms ->
     transitions_of A eta ms d !! key = d !! key) /\
  ((forall m, In m ms -> d !! nqr_key m = None) ->
   size (transitions_of A eta ms d) = (size d + length ms)%nat).
Proof.
  revert d. induction ms as [|m ms IH]; intros d Hnd.
  - repeat split; [intros m []|simpl; lia].
  - cbn [map] in Hnd. apply NoDup_cons in Hnd as [Hm Hnd].
    specialize (IH (<[nqr_key m := nqr_fq A m eta]> d) Hnd).
    destruct IH as (IHin & IHout & IHsize).
    change (transitions_of A eta (m :: ms) d)
      with (transitions_of A eta ms (<[nqr_key m := nqr_fq A m eta]> d)).
    split; [|split].
    + intros m' [<-|Hin]; [|apply IHin, Hin].
      rewrite (IHout _ Hm). apply lookup_insert_eq.
    + intros key Hkey. cbn [map] in Hkey.
      apply not_elem_of_cons in Hkey as [Hne Hkey].
      rewrite (IHout _ Hkey). apply lookup_insert_ne. congruence.
    + intros Hfresh. rewrite IHsize.
      * rewrite map_size_insert_None by (apply Hfresh; left; reflexivity).
        simpl. lia.
      * intros m' Hin. rewrite lookup_insert_ne; [apply Hfresh; right; exact Hin|].
        intros Heq. apply Hm. rewrite Heq.
        apply list_elem_of_In, in_map, Hin.
Qed.

Lemma half_keys_NoDup (n : Z) (count : nat) :
  NoDup (map nqr_key
           (map half (List.filter (fun z => (0 <=? z)%Z)
                        (map (fun k => (2 * Z.of_nat k - n)%Z) (seq 0 count))))).
Proof.
  rewrite map_map. apply NoDup_fmap_2_strong.
  - intros z1 z2 H1 H2. apply list_elem_of_In, filter_In in H1 as [_ H1].
    apply list_elem_of_In, filter_In in H2 as [_ H2].
    apply Z.leb_le in H1, H2. apply nqr_key_inj; assumption.
  - apply NoDup_ListNoDup, List.NoDup_filter, Stdlib.Lists.Finite.Injective_map_NoDup.
    + intros k1 k2 Hk. lia.
    + apply seq_NoDup.
Qed.

End Keys.

Section ExtractFacts.

Context {E : Externals}.

Lemma has_efg_check_false {A} (f : M state A) (st : state) :
  arrays st !! "efg" = None ->
  _has_efg_check f st =
  (inl (RuntimeError "No electric field gradient data found for this system"), st).
Proof.
  intros Hnone. unfold _has_efg_check, has, gets, mbind, M_bind.
  rewrite Hnone. rewrite bool_decide_eq_false_2 by (intros [? [=]]).
  reflexivity.
Qed.

Lemma has_efg_check_true {A} (f : M state A) (st : state) :
  is_Some (arrays st !! "efg") -> _has_efg_check f st = f st.
Proof.
  intros Hsome. unfold _has_efg_check, has, gets, mbind, M_bind.
  rewrite bool_decide_eq_true_2 by exact Hsome. reflexivity.
Qed.

(** *** Computations that leave the standard output alone *)
















(** *** The invalid isotope list *)

Lemma EFGDiagonal_extract_symbols (save_array : bool) (st st1 : state)
  (r : res (list (list R * list (list R)))) :
  EFGDiagonal_extract save_array st = (r, st1) ->
  symbols st1 = symbols st /\
  (is_Some (arrays st !! "efg") -> is_Some (arrays st1 !! "efg")).
Proof.
  unfold EFGDiagonal_extract, _has_efg_check, has, get_array, set_array,
    modify, gets, lift, raise, mbind, M_bind, mret, M_ret.
  destruct (arrays st !! "efg") as [a|] eqn:Ha.
  2:{ rewrite bool_decide_eq_false_2 by apply is_Some_None. simpl.
      intros [= _ <-]. rewrite Ha. auto. }
  rewrite bool_decide_eq_true_2 by eauto. simpl. rewrite Ha.
  destruct (matrices a) as [e|efgs]; [intros [= _ <-]; rewrite Ha; auto|].
  destruct efgs as [|efg efgs]; [intros [= _ <-]; rewrite Ha; auto|].
  destruct save_array; simpl; intros [= _ <-]; simpl; [|rewrite Ha; auto].
  split; [reflexivity|]. intros _.
  rewrite !lookup_insert_ne by discriminate. rewrite Ha. eauto.
Qed.

Lemma ensure_diagonal_symbols (force_recalc : bool) (st st1 : state) (r : res unit) :
  ensure_diagonal force_recalc st = (r, st1) ->
  symbols st1 = symbols st /\
  (is_Some (arrays st !! "efg") -> is_Some (arrays st1 !! "efg")).
Proof.
  unfold ensure_diagonal, EFGDiagonal_get, has, gets, mbind, M_bind, mret, M_ret.
  destruct (negb _ || force_recalc); [|intros [= _ <-]; auto].
  destruct (EFGDiagonal_extract true st) as [[e|d] st'] eqn:Hd;
    intros [= _ <-]; eapply EFGDiagonal_extract_symbols, Hd.
Qed.

(** The diagonalisation step returns on every structure whose ["efg"] array
    holds at least one matrix, and leaves the Haeberlen-sorted eigenvalues
    of the matrices in the cache. *)
Lemma ensure_diagonal_fresh (force_recalc : bool) (st : state)
  (efgs : list (list (list R))) :
  arrays st !! "efg" = Some (Arr3 efgs) ->
  efgs <> [] ->
  arrays st !! "efg_diagonal_evals_hsort" = None \/ force_recalc = true ->
  exists st1,
    ensure_diagonal force_recalc st = (inr tt, st1) /\
    symbols st1 = symbols st /\
    arrays st1 !! "efg_diagonal_evals_hsort" =
    Some (Arr2 (_haeb_sort (map (fun efg => fst (eigh (symmetrise efg))) efgs))).
Proof.
  intros Hefg Hne Hrun.
  unfold ensure_diagonal, EFGDiagonal_get, EFGDiagonal_extract, _has_efg_check,
    has, get_array, set_array, modify, gets, lift, raise, mbind, M_bind, mret, M_ret.
  change (EFGDiagonal_default_name +:+ "_evals_hsort")
    with "efg_diagonal_evals_hsort".
  change (EFGDiagonal_default_name +:+ "_evals") with "efg_diagonal_evals".
  change (EFGDiagonal_default_name +:+ "_evecs") with "efg_diagonal_evecs".
  assert (Htest : negb (bool_decide
                          (is_Some (arrays st !! "efg_diagonal_evals_hsort")))
                  || force_recalc = true).
  { destruct Hrun as [Hnone| ->]; [|apply orb_true_r].
    rewrite Hnone, bool_decide_eq_false_2 by apply is_Some_None. reflexivity. }
  rewrite Htest, Hefg. rewrite bool_decide_eq_true_2 by eauto. simpl.
  rewrite Hefg. simpl.
  destruct efgs as [|efg efgs]; [contradiction|]. simpl.
  eexists. split; [reflexivity|]. split; [reflexivity|]. simpl.
  rewrite lookup_insert_ne by discriminate. rewrite lookup_insert_eq.
  unfold _haeb_sort. simpl. rewrite !map_map. reflexivity.
Qed.



Lemma bind_ok {A B} (m : M state A) (k : A -> M state B) (st st1 : state) (a : A) :
  m st = (inr a, st1) -> (m ≫= k) st = k a st1.
Proof. intros Hm. unfold mbind, M_bind. rewrite Hm. reflexivity. Qed.


(** *** The loop of [EFGNQR.extract] *)

Lemma EFGVzz_get_cached (st : state) (evals : list (list R)) (vzz : list R) :
  is_Some (arrays st !! "efg") ->
  arrays st !! "efg_diagonal_evals_hsort" = Some (Arr2 evals) ->
  mapM py_last evals = inr vzz ->
  EFGVzz_get st = (inr (Arr1 vzz), st).
Proof.
  intros Hefg Hcache Hlast. unfold EFGVzz_get, EFGVzz_extract.
  rewrite has_efg_check_true by exact Hefg.
  unfold ensure_diagonal, has, get_array, gets, lift, mbind, M_bind, mret, M_ret.
  change (EFGDiagonal_default_name +:+ "_evals_hsort")
    with "efg_diagonal_evals_hsort".
  rewrite Hcache. rewrite bool_decide_eq_true_2 by eauto. simpl.
  rewrite Hcache. simpl. rewrite Hlast. reflexivity.
Qed.

Lemma EFGAsymmetry_get_cached (st : state) (evals : list (list R)) :
  is_Some (arrays st !! "efg") ->
  arrays st !! "efg_diagonal_evals_hsort" = Some (Arr2 evals) ->
  EFGAsymmetry_get st = (inr (Arr1 (map asymmetry3 evals)), st).
Proof.
  intros Hefg Hcache. unfold EFGAsymmetry_get, EFGAsymmetry_extract.
  rewrite has_efg_check_true by exact Hefg.
  unfold ensure_diagonal, has, get_array, gets, lift, mbind, M_bind, mret, M_ret.
  change (EFGDiagonal_default_name +:+ "_evals_hsort")
    with "efg_diagonal_evals_hsort".
  rewrite Hcache. rewrite bool_decide_eq_true_2 by eauto. simpl.
  rewrite Hcache. reflexivity.
Qed.

Lemma nqr_fill_ok (A eta : R) (etas : list R) (i : nat) (ms : list Q)
  (nqr : list (gmap string R)) (d : gmap string R) :
  etas !! i = Some eta ->
  nqr !! i = Some d ->
  nqr_fill A (Arr1 etas) i ms nqr = inr (<[i := transitions_of A eta ms d]> nqr).
Proof.
  intros Heta. revert nqr d. induction ms as [|m ms IH]; intros nqr d Hd.
  - simpl. rewrite list_insert_id by exact Hd. reflexivity.
  - simpl. rewrite Heta. unfold py_index. rewrite Hd. cbn [mbind res_bind].
    rewrite (IH _ (<[nqr_key m := nqr_fq A m eta]> d)).
    + rewrite list_insert_insert_eq. reflexivity.
    + apply list_lookup_insert_eq. eapply lookup_lt_Some, Hd.
Qed.

Lemma nqr_atom_ok (st : state) (vzz etas : list R) (q_list I_list : list Q)
  (i : nat) (nqr : list (gmap string R)) (Vzz eta : R) (moment spin : Q)
  (d : gmap string R) :
  EFGVzz_get st = (inr (Arr1 vzz), st) ->
  vzz !! i = Some Vzz -> etas !! i = Some eta ->
  q_list !! i = Some moment -> I_list !! i = Some spin ->
  nqr !! i = Some d ->
  nqr_atom q_list I_list (Arr1 etas) i nqr st =
  (inr (<[i := transitions_of (nqr_A Vzz moment spin) eta (nqr_ms spin) d]> nqr), st).
Proof.
  intros Hvzz HV Heta Hq HI Hd. unfold nqr_atom.
  rewrite (bind_ok _ _ _ _ _ Hvzz).
  unfold lift, mbind, M_bind, item, py_index. rewrite HV, Hq, HI.
  rewrite (nqr_fill_ok _ eta _ _ _ _ d Heta Hd). reflexivity.
Qed.

Lemma nqr_loop_ok (st : state) (vzz etas : list R) (q_list I_list : list Q)
  (idx : list nat) (nqr : list (gmap string R)) :
  EFGVzz_get st = (inr (Arr1 vzz), st) ->
  length vzz = length nqr -> length etas = length nqr ->
  length q_list = length nqr -> length I_list = length nqr ->
  NoDup idx -> Forall (fun i => (i < length nqr)%nat) idx ->
  exists nqr',
    nqr_loop q_list I_list (Arr1 etas) idx nqr st = (inr nqr', st) /\
    length nqr' = length nqr /\
    (forall i, i ∉ idx -> nqr' !! i = nqr !! i) /\
    (forall i Vzz eta moment spin d,
        i ∈ idx ->
        vzz !! i = Some Vzz -> etas !! i = Some eta ->
        q_list !! i = Some moment -> I_list !! i = Some spin ->
        nqr !! i = Some d ->
        nqr' !! i =
        Some (transitions_of (nqr_A Vzz moment spin) eta (nqr_ms spin) d)).
Proof.
  intros Hvzz. revert nqr.
  induction idx as [|i idx IH]; intros nqr Lv Le Lq LI Hnd Hlt.
  - exists nqr. split; [reflexivity|]. split; [reflexivity|].
    split; [reflexivity|]. intros ? ? ? ? ? ? Hin. inversion Hin.
  - apply NoDup_cons in Hnd as [Hi Hnd].
    apply Forall_cons in Hlt as [Hilt Hlt].
    destruct (lookup_lt_is_Some_2 vzz i ltac:(lia)) as [V HV].
    destruct (lookup_lt_is_Some_2 etas i ltac:(lia)) as [eta Heta].
    destruct (lookup_lt_is_Some_2 q_list i ltac:(lia)) as [q Hq].
    destruct (lookup_lt_is_Some_2 I_list i ltac:(lia)) as [spin HI].
    destruct (lookup_lt_is_Some_2 nqr i Hilt) as [d Hd].
    set (nqr1 := <[i := transitions_of (nqr_A V q spin) eta (nqr_ms spin) d]> nqr).
    assert (L1 : length nqr1 = length nqr) by apply length_insert.
    destruct (IH nqr1) as (nqr' & Hrun & Hlen & Hout & Hin);
      rewrite ?L1; try assumption.
    exists nqr'. split; [|split; [|split]].
    + simpl. rewrite (bind_ok _ _ _ _ _
                        (nqr_atom_ok st vzz etas q_list I_list i nqr V eta q spin d
                           Hvzz HV Heta Hq HI Hd)).
      exact Hrun.
    + lia.
    + intros j Hj. apply not_elem_of_cons in Hj as [Hji Hj].
      rewrite (Hout j Hj). unfold nqr1. apply list_lookup_insert_ne. congruence.
    + intros j V' eta' q' spin' d' Hj HV' Heta' Hq' HI' Hd'.
      apply elem_of_cons in Hj as [->|Hj].
      * rewrite (Hout i Hi). unfold nqr1.
        rewrite list_lookup_insert_eq by exact Hilt. congruence.
      * apply (Hin j V' eta' q' spin' d' Hj HV' Heta' Hq' HI').
        unfold nqr1. rewrite list_lookup_insert_ne; [exact Hd'|].
        intros ->. contradiction.
Qed.

Lemma check_isotope_list_run (isotope_list : option (list (option nat)))
  (elems : list string) (st : state) :
  exists st',
    check_isotope_list isotope_list elems st =
      (inr (valid_isotope_list elems isotope_list), st') /\
    symbols st' = symbols st /\ arrays st' = arrays st.
Proof.
  unfold check_isotope_list, valid_isotope_list.
  destruct isotope_list as [l|]; [|exists st; auto].
  destruct (length l =? length elems)%nat; [exists st; auto|].
  exists (add_line warning st). auto.
Qed.

Lemma get_isotope_list_length (elems : list string) (isotopes : gmap string nat)
  (isotope_list : option (list (option nat))) (use_q : bool) (isos : list nat) :
  _get_isotope_list elems isotopes isotope_list use_q = inr isos ->
  length isos = length elems.
Proof.
  intros Hres. apply mapM_res_length in Hres.
  rewrite Hres. apply length_imap.
Qed.

Lemma get_isotope_data_length (elems : list string) (key : string)
  (isotopes : gmap string nat) (isotope_list : option (list (option nat)))
  (use_q : bool) (values : list Q) :
  _get_isotope_data elems key isotopes isotope_list use_q = inr values ->
  length values = length elems.
Proof.
  unfold _get_isotope_data.
  destruct (_get_isotope_list elems isotopes isotope_list use_q) as [e|isos] eqn:Hisos;
    [discriminate|].
  cbn [mbind res_bind]. intros Hres. apply mapM_res_length in Hres.
  rewrite Hres, length_zip, (get_isotope_list_length _ _ _ _ _ Hisos). lia.
Qed.

Lemma nqr_active_spec (I_list : list Q) (i : nat) :
  i ∈ nqr_active I_list <->
  exists spin, I_list !! i = Some spin /\ Qle_bool spin (1 # 2) = false.
Proof.
  unfold nqr_active. rewrite list_elem_of_In, filter_In, in_seq. split.
  - intros [_ Hspin]. destruct (I_list !! i) as [spin|]; [|discriminate].
    exists spin. split; [reflexivity|]. apply negb_true_iff, Hspin.
  - intros (spin & Hi & Hspin). split.
    + apply lookup_lt_Some in Hi. lia.
    + rewrite Hi. apply negb_true_iff, Hspin.
Qed.

Lemma nqr_active_NoDup (I_list : list Q) : NoDup (nqr_active I_list).
Proof. apply NoDup_ListNoDup, List.NoDup_filter, seq_NoDup. Qed.

Lemma EFGNQR_extract_run (st st1 : state) (force_recalc use_q : bool)
  (isotopes : gmap string nat) (isotope_list : option (list (option nat)))
  (evals : list (list R)) (vzz : list R) (q_list I_list : list Q) :
  is_Some (arrays st !! "efg") ->
  ensure_diagonal force_recalc st = (inr tt, st1) ->
  arrays st1 !! "efg_diagonal_evals_hsort" = Some (Arr2 evals) ->
  mapM py_last evals = inr vzz ->
  length evals = length (symbols st) ->
  _get_isotope_data (symbols st) "Q" isotopes
    (valid_isotope_list (symbols st) isotope_list) use_q = inr q_list ->
  _get_isotope_data (symbols st) "I" isotopes
    (valid_isotope_list (symbols st) isotope_list) use_q = inr I_list ->
  exists nqr st2,
    EFGNQR_extract force_recalc use_q isotopes isotope_list st = (inr nqr, st2) /\
    length nqr = length (symbols st) /\
    forall i spin moment Vzz row,
      I_list !! i = Some spin -> q_list !! i = Some moment ->
      vzz !! i = Some Vzz -> evals !! i = Some row ->
      nqr !! i =
      Some (if Qle_bool spin (1 # 2) then ∅
            else transitions_of (nqr_A Vzz moment spin) (asymmetry3 row)
                   (nqr_ms spin) ∅).
Proof.
  intros Hefg Hdiag Hcache Hlast Hlen Hq HI.
  destruct (ensure_diagonal_symbols _ _ _ _ Hdiag) as [Hsym Hefg1].
  specialize (Hefg1 Hefg).
  destruct (check_isotope_list_run isotope_list (symbols st1) st1)
    as (st2 & Hcheck & Hsym2 & Harr2).
  assert (Hvzz : EFGVzz_get st2 = (inr (Arr1 vzz), st2)).
  { apply (EFGVzz_get_cached st2 evals); rewrite ?Harr2; assumption. }
  assert (Heta : EFGAsymmetry_get st2 = (inr (Arr1 (map asymmetry3 evals)), st2)).
  { apply EFGAsymmetry_get_cached; rewrite ?Harr2; assumption. }
  pose proof (mapM_res_length _ _ _ Hlast) as Lv.
  pose proof (get_isotope_data_length _ _ _ _ _ _ Hq) as Lq.
  pose proof (get_isotope_data_length _ _ _ _ _ _ HI) as LI.
  set (nqr0 := replicate (length (symbols st1)) (∅ : gmap string R)).
  assert (L0 : length nqr0 = length (symbols st)).
  { unfold nqr0. rewrite length_replicate. congruence. }
  destruct (nqr_loop_ok st2 vzz (map asymmetry3 evals) q_list I_list
              (nqr_active I_list) nqr0 Hvzz)
    as (nqr & Hrun & Hlen' & Hout & Hin);
    rewrite ?length_map; try lia.
  { apply nqr_active_NoDup. }
  { apply Forall_forall. intros i Hi. apply nqr_active_spec in Hi as (spin & Hi & _).
    apply lookup_lt_Some in Hi. lia. }
  exists nqr, st2. split; [|split; [lia|]].
  - unfold EFGNQR_extract. rewrite has_efg_check_true by exact Hefg.
    rewrite (bind_ok _ _ _ _ _ Hdiag).
    unfold get_chemical_symbols at 1, gets at 1.
    unfold mbind at 1, M_bind at 1.
    rewrite (bind_ok _ _ _ _ _ Hcheck).
    rewrite Hsym, Hq, HI.
    unfold lift at 1 2. unfold mbind at 1 2, M_bind at 1 2.
    rewrite (bind_ok _ _ _ _ _ Heta). rewrite <- Hsym. exact Hrun.
  - intros i spin moment Vzz row Hi Hmom HV Hrow.
    assert (H0 : nqr0 !! i = Some (∅ : gmap string R)).
    { unfold nqr0. apply lookup_replicate_2. rewrite Hsym.
      apply lookup_lt_Some in Hi. lia. }
    destruct (Qle_bool spin (1 # 2)) eqn:Hspin.
    + rewrite Hout; [exact H0|].
      intros Hact. apply nqr_active_spec in Hact as (spin' & Hi' & Hspin').
      congruence.
    + apply (Hin i Vzz (asymmetry3 row) moment spin ∅); try assumption.
      * apply nqr_active_spec. eauto.
      * rewrite list_lookup_fmap, Hrow. reflexivity.
Qed.

(** C1: once the tensors are diagonalised and the isotopes resolved,
    [EFGNQR.extract] returns one dictionary per atom. For an atom of spin
    [I > 1/2] (a multiple of one half) it has one entry per [m] of
    [-I, -I+1, ..., I-1] with [m >= 0], under the key ["m=<m>-><m+1>"],
    of value [3 A (2m+1) sqrt(1 + eta^2/3)] with
    [A = EFG_TO_CHI Q Vzz / (4 I (2I - 1))]; for an atom of spin
    [I <= 1/2] it is empty. *)
Theorem nqr_transitions (st st1 : state) (force_recalc use_q : bool)
  (isotopes : gmap string nat) (isotope_list : option (list (option nat)))
  (evals : list (list R)) (vzz : list R) (q_list I_list : list Q) :
  is_Some (arrays st !! "efg") ->
  ensure_diagonal force_recalc st = (inr tt, st1) ->
  arrays st1 !! "efg_diagonal_evals_hsort" = Some (Arr2 evals) ->
  mapM py_last evals = inr vzz ->
  length evals = length (symbols st) ->
  _get_isotope_data (symbols st) "Q" isotopes
    (valid_isotope_list (symbols st) isotope_list) use_q = inr q_list ->
  _get_isotope_data (symbols st) "I" isotopes
    (valid_isotope_list (symbols st) isotope_list) use_q = inr I_list ->
  exists nqr st2,
    EFGNQR_extract force_recalc use_q isotopes isotope_list st = (inr nqr, st2) /\
    length nqr = length (symbols st) /\
    forall i spin moment Vzz row,
      I_list !! i = Some spin -> q_list !! i = Some moment ->
      vzz !! i = Some Vzz -> evals !! i = Some row ->
      exists d,
        nqr !! i = Some d /\
        ((spin <= 1 # 2)%Q -> d = ∅) /\
        ((1 # 2 < spin)%Q -> half_integer spin ->
         let A := (EFG_TO_CHI * Q2R moment * Vzz
                   / (4 * Q2R spin * (2 * Q2R spin - 1)))%R in
         let eta := asymmetry3 row in
         size d = length (spec_transitions spin) /\
         forall m, In m (spec_transitions spin) ->
           d !! ("m=" +:+ float_str m +:+ "->" +:+ float_str (Qred (m + 1))) =
           Some (3 * A * (2 * Q2R m + 1) * sqrt (1 + eta ^ 2 / 3))%R).
Proof.
  intros Hefg Hdiag Hcache Hlast Hlen Hq HI.
  destruct (EFGNQR_extract_run st st1 force_recalc use_q isotopes isotope_list
              evals vzz q_list I_list Hefg Hdiag Hcache Hlast Hlen Hq HI)
    as (nqr & st2 & Hrun & Hlen' & Hentry).
  exists nqr, st2. split; [exact Hrun|]. split; [exact Hlen'|].
  intros i spin moment Vzz row Hi Hmom HV Hrow.
  specialize (Hentry i spin moment Vzz row Hi Hmom HV Hrow).
  destruct (Qle_bool spin (1 # 2)) eqn:Hspin;
    (eexists; split; [exact Hentry|]).
  - split; [reflexivity|]. intros Hlt.
    apply Qle_bool_iff in Hspin. apply Qlt_not_le in Hlt. contradiction.
  - split.
    { intros Hle. apply Qle_bool_iff in Hle. congruence. }
    intros Hlt [n Hn] A eta. subst A eta.
    assert (Hn1 : (1 < n)%Z).
    { rewrite Hn in Hlt. unfold Qlt in Hlt. simpl in Hlt. lia. }
    rewrite (nqr_ms_half spin n Hn Hn1), (spec_transitions_half spin n Hn).
    destruct (transitions_of_spec (nqr_A Vzz moment spin) (asymmetry3 row) _ ∅
                (half_keys_NoDup n (Z.to_nat n))) as (Hin & _ & Hsize).
    split.
    + rewrite Hsize by (intros; apply lookup_empty). rewrite map_size_empty.
      reflexivity.
    + intros m Hm. fold (nqr_key m). rewrite (Hin m Hm). f_equal.
      unfold nqr_fq, nqr_A, Rdiv. ring.
Qed.

(** C2 (amended): for an atom of spin 3/2 and asymmetry 0 the dictionary
    has exactly one transition; its key is ["m=0.5->1.5"] (the floats as
    an f-string prints them) and its frequency is [3 A 2] with
    [A = EFG_TO_CHI Q V / (4 * 1.5 * 2)]. *)
Theorem nqr_spin_three_halves (st st1 : state) (force_recalc use_q : bool)
  (isotopes : gmap string nat) (isotope_list : option (list (option nat)))
  (evals : list (list R)) (vzz : list R) (q_list I_list : list Q)
  (i : nat) (spin moment : Q) (V : R) (row : list R) :
  is_Some (arrays st !! "efg") ->
  ensure_diagonal force_recalc st = (inr tt, st1) ->
  arrays st1 !! "efg_diagonal_evals_hsort" = Some (Arr2 evals) ->
  mapM py_last evals = inr vzz ->
  length evals = length (symbols st) ->
  _get_isotope_data (symbols st) "Q" isotopes
    (valid_isotope_list (symbols st) isotope_list) use_q = inr q_list ->
  _get_isotope_data (symbols st) "I" isotopes
    (valid_isotope_list (symbols st) isotope_list) use_q = inr I_list ->
  I_list !! i = Some spin -> (spin == 3 # 2)%Q ->
  q_list !! i = Some moment ->
  vzz !! i = Some V ->
  evals !! i = Some row -> asymmetry3 row = 0%R ->
  exists nqr st2,
    EFGNQR_extract force_recalc use_q isotopes isotope_list st = (inr nqr, st2) /\
    nqr !! i =
    Some {[ "m=0.5->1.5" :=
              (3 * (EFG_TO_CHI * Q2R moment * V / (4 * 1.5 * 2)) * 2)%R ]}.
Proof.
  intros Hefg Hdiag Hcache Hlast Hlen Hq HI Hi Hspin Hmom HV Hrow Heta.
  destruct (EFGNQR_extract_run st st1 force_recalc use_q isotopes isotope_list
              evals vzz q_list I_list Hefg Hdiag Hcache Hlast Hlen Hq HI)
    as (nqr & st2 & Hrun & _ & Hentry).
  exists nqr, st2. split; [exact Hrun|].
  rewrite (Hentry i spin moment V row Hi Hmom HV Hrow).
  assert (Hgt : Qle_bool spin (1 # 2) = false).
  { apply not_true_iff_false. rewrite Qle_bool_iff, Hspin.
    unfold Qle. simpl. lia. }
  rewrite Hgt, (nqr_ms_half spin 3 Hspin ltac:(lia)), Heta.
  change (map half
            (List.filter (fun z => (0 <=? z)%Z)
               (map (fun k => (2 * Z.of_nat k - 3)%Z) (seq 0 (Z.to_nat 3)))))
    with [1 # 2]%Q.
  unfold transitions_of. cbn [fold_left].
  change (nqr_key (1 # 2)) with "m=0.5->1.5".
  rewrite insert_empty. do 2 f_equal.
  unfold nqr_fq, nqr_A. rewrite (Qeq_eqR _ _ Hspin).
  replace (1 + 0 ^ 2 / 3)%R with 1%R by lra. rewrite sqrt_1.
  generalize (Q2R moment). intros x. unfold Q2R. simpl. field.
Qed.

(** C4: on a structure without the ["efg"] array a wrapped extraction
    raises the [RuntimeError] that names the electric field gradient data,
    whatever the wrapped function is, and leaves the structure and the
    output as they were; in particular so do the extractions of this
    module. *)
Theorem missing_efg_raises (st : state) :
  arrays st !! "efg" = None ->
  let err : exn :=
    RuntimeError "No electric field gradient data found for this system" in
  (forall (A : Type) (f : M state A), _has_efg_check f st = (inl err, st)) /\
  (forall order use_q isotopes isotope_list,
      EFGTensor_extract order use_q isotopes isotope_list st = (inl err, st)) /\
  (forall save_array, EFGDiagonal_extract save_array st = (inl err, st)) /\
  (forall force_recalc, EFGVzz_extract force_recalc st = (inl err, st)) /\
  (forall force_recalc, EFGAsymmetry_extract force_recalc st = (inl err, st)) /\
  (forall force_recalc use_q isotopes isotope_list,
      EFGQuadrupolarConstant_extract force_recalc use_q isotopes isotope_list st =
      (inl err, st)) /\
  (forall force_recalc use_q isotopes isotope_list,
      EFGNQR_extract force_recalc use_q isotopes isotope_list st = (inl err, st)) /\
  (forall force_recalc use_q isotopes isotope_list,
      EFGQuadrupolarProduct_extract force_recalc use_q isotopes isotope_list st =
      (inl err, st)).
Proof.
  intros Hnone err.
  repeat split; intros; apply has_efg_check_false; exact Hnone.
Qed.

End ExtractFacts.

Lemma missing_efg_raises_witness :
  arrays example_bare !! "efg" = None /\
  EFGDiagonal_extract (E := example_externals) true example_bare =
  (inl (RuntimeError "No electric field gradient data found for this system"),
   example_bare).
Proof.
  split; [reflexivity|].
  destruct (missing_efg_raises (E := example_externals) example_bare eq_refl)
    as (_ & _ & Hdiag & _).
  exact (Hdiag true).
Defined.

Section ExampleRun.

#[local] Existing Instance example_externals.

Lemma example_has_efg : is_Some (arrays example_atoms !! "efg").
Proof. eexists. reflexivity. Qed.

Lemma example_ensure_diagonal :
  ensure_diagonal false example_atoms = (inr tt, example_diagonalised).
Proof. reflexivity. Qed.

Lemma example_cache :
  arrays example_diagonalised !! "efg_diagonal_evals_hsort" =
  Some (Arr2 example_evals).
Proof. reflexivity. Qed.

Lemma example_moments :
  _get_isotope_data (symbols example_atoms) "Q" ∅
    (valid_isotope_list (symbols example_atoms) None) false =
  inr [- (8165 # 100)]%Q.
Proof. vm_compute. reflexivity. Qed.

Lemma example_spins :
  _get_isotope_data (symbols example_atoms) "I" ∅
    (valid_isotope_list (symbols example_atoms) None) false =
  inr [3 # 2]%Q.
Proof. vm_compute. reflexivity. Qed.

Lemma nqr_transitions_witness :
  exists nqr st2 d,
    EFGNQR_extract false false ∅ None example_atoms = (inr nqr, st2) /\
    nqr !! 0%nat = Some d /\
    size d = 1%nat /\
    d !! "m=0.5->1.5" =
    Some (3 * (EFG_TO_CHI * Q2R (- (8165 # 100)) * ((2 + 2) / 2)
               / (4 * Q2R (3 # 2) * (2 * Q2R (3 # 2) - 1)))
            * (2 * Q2R (1 # 2) + 1) * sqrt (1 + 0 ^ 2 / 3))%R.
Proof.
  destruct (nqr_transitions example_atoms example_diagonalised false false ∅ None
              example_evals [((2 + 2) / 2)%R] [- (8165 # 100)]%Q [3 # 2]%Q
              example_has_efg example_ensure_diagonal example_cache
              eq_refl eq_refl example_moments example_spins)
    as (nqr & st2 & Hrun & _ & Hall).
  destruct (Hall 0%nat (3 # 2)%Q (- (8165 # 100))%Q ((2 + 2) / 2)%R
              [(-1 + -1) / 2; (-1 + -1) / 2; (2 + 2) / 2]%R
              eq_refl eq_refl eq_refl eq_refl)
    as (d & Hd & _ & Hactive).
  destruct (Hactive eq_refl (ex_intro _ 3%Z (Qeq_refl _))) as [Hsize Hin].
  exists nqr, st2, d. split; [exact Hrun|]. split; [exact Hd|].
  split; [exact Hsize|]. exact (Hin (1 # 2)%Q (or_introl eq_refl)).
Defined.

Lemma nqr_spin_three_halves_witness :
  exists nqr st2,
    EFGNQR_extract false false ∅ None example_atoms = (inr nqr, st2) /\
    nqr !! 0%nat =
    Some {[ "m=0.5->1.5" :=
              (3 * (EFG_TO_CHI * Q2R (- (8165 # 100)) * ((2 + 2) / 2)
                    / (4 * 1.5 * 2)) * 2)%R ]}.
Proof.
  exact (nqr_spin_three_halves example_atoms example_diagonalised false false ∅ None
           example_evals [((2 + 2) / 2)%R] [- (8165 # 100)]%Q [3 # 2]%Q
           0%nat (3 # 2)%Q (- (8165 # 100))%Q ((2 + 2) / 2)%R
           [(-1 + -1) / 2; (-1 + -1) / 2; (2 + 2) / 2]%R
           example_has_efg example_ensure_diagonal example_cache
           eq_refl eq_refl example_moments example_spins
           eq_refl (Qeq_refl _) eq_refl eq_refl eq_refl eq_refl).
Defined.

(** C2 as stated fails on its key: for the chlorine-35 atom of
    [example_atoms] (spin 3/2, asymmetry 0) the dictionary has one entry,
    under ["m=0.5->1.5"], and none under ["m=1/2->3/2"]. *)
Lemma nqr_key_is_decimal :
  _get_isotope_data (symbols example_atoms) "I" ∅ None false = inr [3 # 2]%Q /\
  map asymmetry3 example_evals = [0%R] /\
  exists nqr st2 d,
    EFGNQR_extract false false ∅ None example_atoms = (inr nqr, st2) /\
    nqr !! 0%nat = Some d /\
    d !! "m=1/2->3/2" = None /\
    is_Some (d !! "m=0.5->1.5").
Proof.
  split; [exact example_spins|]. split; [reflexivity|].
  destruct (EFGNQR_extract_run example_atoms example_diagonalised false false ∅ None
              example_evals [((2 + 2) / 2)%R] [- (8165 # 100)]%Q [3 # 2]%Q
              example_has_efg example_ensure_diagonal example_cache
              eq_refl eq_refl example_moments example_spins)
    as (nqr & st2 & Hrun & _ & Hall).
  specialize (Hall 0%nat (3 # 2)%Q (- (8165 # 100))%Q ((2 + 2) / 2)%R
                [(-1 + -1) / 2; (-1 + -1) / 2; (2 + 2) / 2]%R
                eq_refl eq_refl eq_refl eq_refl).
  change (Qle_bool (3 # 2) (1 # 2)) with false in Hall.
  change (nqr_ms (3 # 2)) with [1 # 2]%Q in Hall.
  unfold transitions_of in Hall. cbn [fold_left] in Hall.
  change (nqr_key (1 # 2)) with "m=0.5->1.5" in Hall.
  eexists nqr, st2, _. split; [exact Hrun|]. split; [exact Hall|].
  split.
  - rewrite lookup_insert_ne by discriminate. apply lookup_empty.
  - rewrite lookup_insert_eq. eexists. reflexivity.
Qed.


End ExampleRun.

Section DerivedFacts.

Context {E : Externals} {Rd : Reductions}.

Lemma state_eta (st : state) :
  {| symbols := symbols st; arrays := arrays st; stdout := stdout st |} = st.
Proof. destruct st. reflexivity. Qed.

(** The opening lines of a derived property on a structure that holds the
    cache: nothing is computed, nothing is written. *)
Lemma derived_cached {A} (reduce : ndarray -> res A) (st : state) (cache : ndarray) :
  is_Some (arrays st !! "efg") ->
  arrays st !! "efg_diagonal_evals_hsort" = Some cache ->
  _has_efg_check (
    ensure_diagonal false;;
    efg_evals ← get_array (EFGDiagonal_default_name +:+ "_evals_hsort");
    lift (reduce efg_evals)) st = (reduce cache, st).
Proof.
  intros Hefg Hcache. rewrite has_efg_check_true by exact Hefg.
  unfold ensure_diagonal, has, get_array, gets, lift, mbind, M_bind, mret, M_ret.
  change (EFGDiagonal_default_name +:+ "_evals_hsort")
    with "efg_diagonal_evals_hsort".
  rewrite Hcache. rewrite bool_decide_eq_true_2 by eauto. simpl.
  rewrite Hcache. reflexivity.
Qed.

(** X6: on a structure that holds the cached Haeberlen-sorted eigenvalues,
    the six derived properties called with [force_recalc=False] compute
    from the cache alone: the ["efg"] array is not read again, nothing is
    diagonalised, and the structure and the output are left as they
    were. *)
Theorem derived_properties_use_cache (st : state) (evals : list (list R)) :
  is_Some (arrays st !! "efg") ->
  arrays st !! "efg_diagonal_evals_hsort" = Some (Arr2 evals) ->
  EFGVzz_extract false st = (Arr1 <$> mapM py_last evals, st) /\
  EFGAnisotropy_extract false st = (inr (Arr1 (map (anisotropy3 false) evals)), st) /\
  EFGReducedAnisotropy_extract false st =
    (inr (Arr1 (map (anisotropy3 true) evals)), st) /\
  EFGAsymmetry_extract false st = (inr (Arr1 (map asymmetry3 evals)), st) /\
  EFGSpan_extract false st = (inr (Arr1 (map span3 evals)), st) /\
  EFGSkew_extract false st = (inr (Arr1 (map skew3 evals)), st).
Proof.
  intros Hefg Hcache.
  repeat split.
  - apply (derived_cached last_column st _ Hefg Hcache).
  - apply (derived_cached (fun a => _anisotropy a false) st _ Hefg Hcache).
  - apply (derived_cached (fun a => _anisotropy a true) st _ Hefg Hcache).
  - apply (derived_cached _asymmetry st _ Hefg Hcache).
  - apply (derived_cached _span st _ Hefg Hcache).
  - apply (derived_cached _skew st _ Hefg Hcache).
Qed.

(** *** [EFGDiagonal.extract] *)

Lemma EFGDiagonal_extract_run (save_array : bool) (st : state)
  (efgs : list (list (list R))) :
  arrays st !! "efg" = Some (Arr3 efgs) ->
  efgs <> [] ->
  EFGDiagonal_extract save_array st =
  (inr (map (fun efg => eigh (symmetrise efg)) efgs),
   if save_array then stored st (map (fun efg => eigh (symmetrise efg)) efgs) else st).
Proof.
  intros Hefg Hne. unfold EFGDiagonal_extract.
  rewrite has_efg_check_true by (rewrite Hefg; eauto).
  unfold get_array, set_array, modify, lift, raise, mbind, M_bind, mret, M_ret.
  rewrite Hefg. cbn [matrices].
  destruct efgs as [|efg efgs]; [contradiction|].
  destruct save_array; reflexivity.
Qed.

Lemma stored_lookup_other (st : state) (efg_diag : list (list R * list (list R)))
  (name : string) :
  name <> "efg_diagonal_evals" -> name <> "efg_diagonal_evals_hsort" ->
  name <> "efg_diagonal_evecs" ->
  arrays (stored st efg_diag) !! name = arrays st !! name.
Proof.
  intros H1 H2 H3. unfold stored. cbn [arrays].
  rewrite !lookup_insert_ne by congruence. reflexivity.
Qed.

Lemma stored_idempotent (st : state) (efg_diag : list (list R * list (list R))) :
  stored (stored st efg_diag) efg_diag = stored st efg_diag.
Proof.
  unfold stored. cbn [symbols arrays stdout]. f_equal.
  apply map_eq. intros name.
  destruct (decide (name = "efg_diagonal_evecs")) as [->|H3];
    [|destruct (decide (name = "efg_diagonal_evals_hsort")) as [->|H2];
      [|destruct (decide (name = "efg_diagonal_evals")) as [->|H1]]];
    repeat first [ rewrite lookup_insert_eq
                 | rewrite lookup_insert_ne by (discriminate || congruence) ];
    reflexivity.
Qed.

(** X7: on a structure whose ["efg"] array holds at least one matrix,
    [EFGDiagonal.extract] returns, for every matrix, the eigen-decomposition
    of its symmetric part. With [save_array=False] the structure is left as
    it was; with [save_array=True] exactly three arrays are set, the
    eigenvalues, their Haeberlen-sorted version and the eigenvectors, and
    every other array (["efg"] among them) is as before. The result does
    not depend on [save_array], and a second call changes nothing
    more. *)
Theorem EFGDiagonal_extract_spec (st : state) (efgs : list (list (list R))) :
  arrays st !! "efg" = Some (Arr3 efgs) ->
  efgs <> [] ->
  let efg_diag := map (fun efg => eigh (symmetrise efg)) efgs in
  EFGDiagonal_extract false st = (inr efg_diag, st) /\
  exists st1,
    EFGDiagonal_extract true st = (inr efg_diag, st1) /\
    symbols st1 = symbols st /\ stdout st1 = stdout st /\
    arrays st1 !! "efg_diagonal_evals" = Some (Arr2 (map fst efg_diag)) /\
    arrays st1 !! "efg_diagonal_evals_hsort" =
      Some (Arr2 (_haeb_sort (map fst efg_diag))) /\
    arrays st1 !! "efg_diagonal_evecs" = Some (Arr3 (map snd efg_diag)) /\
    (forall name,
        name <> "efg_diagonal_evals" -> name <> "efg_diagonal_evals_hsort" ->
        name <> "efg_diagonal_evecs" ->
        arrays st1 !! name = arrays st !! name) /\
    EFGDiagonal_extract true st1 = (inr efg_diag, st1).
Proof.
  intros Hefg Hne efg_diag.
  split; [apply (EFGDiagonal_extract_run false st efgs Hefg Hne)|].
  exists (stored st efg_diag).
  split; [apply (EFGDiagonal_extract_run true st efgs Hefg Hne)|].
  split; [reflexivity|]. split; [reflexivity|].
  split; [unfold stored; cbn [arrays];
          rewrite !lookup_insert_ne by discriminate; apply lookup_insert_eq|].
  split; [unfold stored; cbn [arrays];
          rewrite lookup_insert_ne by discriminate; apply lookup_insert_eq|].
  split; [apply lookup_insert_eq|].
  split; [intros name; apply stored_lookup_other|].
  rewrite (EFGDiagonal_extract_run true (stored st efg_diag) efgs).
  - fold efg_diag. rewrite stored_idempotent. reflexivity.
  - rewrite stored_lookup_other by discriminate. exact Hefg.
  - exact Hne.
Qed.

End DerivedFacts.

Section RecomputeFacts.

Context {E : Externals} {Rd : Reductions}.

(** *** A forced or first diagonalisation *)

Lemma ensure_diagonal_run (force_recalc : bool) (st : state)
  (efgs : list (list (list R))) :
  arrays st !! "efg" = Some (Arr3 efgs) ->
  efgs <> [] ->
  arrays st !! "efg_diagonal_evals_hsort" = None \/ force_recalc = true ->
  ensure_diagonal force_recalc st =
  (inr tt, stored st (map (fun efg => eigh (symmetrise efg)) efgs)).
Proof.
  intros Hefg Hne Hrun. unfold ensure_diagonal, EFGDiagonal_get.
  unfold has at 1, gets at 1, mbind at 1, M_bind at 1.
  change (EFGDiagonal_default_name +:+ "_evals_hsort")
    with "efg_diagonal_evals_hsort".
  assert (Htest : negb (bool_decide
                          (is_Some (arrays st !! "efg_diagonal_evals_hsort")))
                  || force_recalc = true).
  { destruct Hrun as [Hnone| ->]; [|apply orb_true_r].
    rewrite Hnone, bool_decide_eq_false_2 by apply is_Some_None. reflexivity. }
  rewrite Htest. unfold mbind, M_bind.
  rewrite (EFGDiagonal_extract_run true st efgs Hefg Hne). reflexivity.
Qed.

Lemma derived_fresh {A} (reduce : ndarray -> res A) (force_recalc : bool)
  (st : state) (efgs : list (list (list R))) :
  arrays st !! "efg" = Some (Arr3 efgs) ->
  efgs <> [] ->
  arrays st !! "efg_diagonal_evals_hsort" = None \/ force_recalc = true ->
  let efg_diag := map (fun efg => eigh (symmetrise efg)) efgs in
  _has_efg_check (
    ensure_diagonal force_recalc;;
    efg_evals ← get_array (EFGDiagonal_default_name +:+ "_evals_hsort");
    lift (reduce efg_evals)) st =
  (reduce (Arr2 (_haeb_sort (map fst efg_diag))), stored st efg_diag).
Proof.
  intros Hefg Hne Hrun efg_diag.
  rewrite has_efg_check_true by (rewrite Hefg; eauto).
  rewrite (bind_ok _ _ _ _ _ (ensure_diagonal_run force_recalc st efgs Hefg Hne Hrun)).
  fold efg_diag. unfold get_array, lift, mbind, M_bind.
  change (EFGDiagonal_default_name +:+ "_evals_hsort")
    with "efg_diagonal_evals_hsort".
  unfold stored at 1. cbn [arrays].
  rewrite lookup_insert_ne by discriminate. rewrite lookup_insert_eq. reflexivity.
Qed.

(** X8: when the cache is absent, or [force_recalc] is set, a derived
    property diagonalises the current ["efg"] array (whatever an older
    cache holds), computes from the Haeberlen-sorted eigenvalues of its
    matrices, and leaves the three arrays of [EFGDiagonal] on the
    structure; the same call repeated with [force_recalc=False] then gives
    the same value and changes nothing. *)
Theorem derived_properties_recompute (force_recalc : bool) (st : state)
  (efgs : list (list (list R))) :
  arrays st !! "efg" = Some (Arr3 efgs) ->
  efgs <> [] ->
  arrays st !! "efg_diagonal_evals_hsort" = None \/ force_recalc = true ->
  let efg_diag := map (fun efg => eigh (symmetrise efg)) efgs in
  let evals := _haeb_sort (map fst efg_diag) in
  let st1 := stored st efg_diag in
  EFGVzz_extract force_recalc st = (Arr1 <$> mapM py_last evals, st1) /\
  EFGAnisotropy_extract force_recalc st =
    (inr (Arr1 (map (anisotropy3 false) evals)), st1) /\
  EFGReducedAnisotropy_extract force_recalc st =
    (inr (Arr1 (map (anisotropy3 true) evals)), st1) /\
  EFGAsymmetry_extract force_recalc st = (inr (Arr1 (map asymmetry3 evals)), st1) /\
  EFGSpan_extract force_recalc st = (inr (Arr1 (map span3 evals)), st1) /\
  EFGSkew_extract force_recalc st = (inr (Arr1 (map skew3 evals)), st1) /\
  EFGVzz_extract false st1 = (Arr1 <$> mapM py_last evals, st1) /\
  EFGAsymmetry_extract false st1 = (inr (Arr1 (map asymmetry3 evals)), st1).
Proof.
  intros Hefg Hne Hrun efg_diag evals st1.
  assert (Hefg1 : is_Some (arrays st1 !! "efg")).
  { unfold st1. rewrite stored_lookup_other by discriminate. rewrite Hefg. eauto. }
  assert (Hcache : arrays st1 !! "efg_diagonal_evals_hsort" = Some (Arr2 evals)).
  { unfold st1, stored. cbn [arrays].
    rewrite lookup_insert_ne by discriminate. apply lookup_insert_eq. }
  split; [apply (derived_fresh last_column force_recalc st efgs Hefg Hne Hrun)|].
  split; [apply (derived_fresh (fun a => _anisotropy a false) force_recalc st efgs
                   Hefg Hne Hrun)|].
  split; [apply (derived_fresh (fun a => _anisotropy a true) force_recalc st efgs
                   Hefg Hne Hrun)|].
  split; [apply (derived_fresh _asymmetry force_recalc st efgs Hefg Hne Hrun)|].
  split; [apply (derived_fresh _span force_recalc st efgs Hefg Hne Hrun)|].
  split; [apply (derived_fresh _skew force_recalc st efgs Hefg Hne Hrun)|].
  split.
  - apply (derived_cached last_column st1 _ Hefg1 Hcache).
  - apply (derived_cached _asymmetry st1 _ Hefg1 Hcache).
Qed.

(** *** The structure without atoms *)

Lemma EFGDiagonal_extract_empty (save_array : bool) (st : state) :
  arrays st !! "efg" = Some (Arr3 []) ->
  EFGDiagonal_extract save_array st =
  (inl (ValueError "not enough values to unpack (expected 2, got 0)"), st).
Proof.
  intros Hefg. unfold EFGDiagonal_extract.
  rewrite has_efg_check_true by (rewrite Hefg; eauto).
  unfold get_array, lift, raise, mbind, M_bind. rewrite Hefg. reflexivity.
Qed.

Lemma derived_empty {A} (k : M state A) (force_recalc : bool) (st : state) :
  arrays st !! "efg" = Some (Arr3 []) ->
  arrays st !! "efg_diagonal_evals_hsort" = None \/ force_recalc = true ->
  _has_efg_check (ensure_diagonal force_recalc;; k) st =
  (inl (ValueError "not enough values to unpack (expected 2, got 0)"), st).
Proof.
  intros Hefg Hrun. rewrite has_efg_check_true by (rewrite Hefg; eauto).
  unfold ensure_diagonal, EFGDiagonal_get.
  unfold mbind at 1, M_bind at 1.
  unfold has at 1, gets at 1, mbind at 1, M_bind at 1.
  change (EFGDiagonal_default_name +:+ "_evals_hsort")
    with "efg_diagonal_evals_hsort".
  assert (Htest : negb (bool_decide
                          (is_Some (arrays st !! "efg_diagonal_evals_hsort")))
                  || force_recalc = true).
  { destruct Hrun as [Hnone| ->]; [|apply orb_true_r].
    rewrite Hnone, bool_decide_eq_false_2 by apply is_Some_None. reflexivity. }
  rewrite Htest. unfold mbind, M_bind.
  rewrite (EFGDiagonal_extract_empty true st Hefg). reflexivity.
Qed.

(** X9: on a structure whose ["efg"] array holds no matrix (a structure
    without atoms) [EFGDiagonal.extract] raises the [ValueError] of the
    unpacking in line 146, and so does every property that has to
    diagonalise first; the structure is left as it was. *)
Theorem empty_structure_raises (st : state) (force_recalc : bool) :
  arrays st !! "efg" = Some (Arr3 []) ->
  arrays st !! "efg_diagonal_evals_hsort" = None \/ force_recalc = true ->
  let err : exn := ValueError "not enough values to unpack (expected 2, got 0)" in
  (forall save_array, EFGDiagonal_extract save_array st = (inl err, st)) /\
  EFGVzz_extract force_recalc st = (inl err, st) /\
  EFGAnisotropy_extract force_recalc st = (inl err, st) /\
  EFGReducedAnisotropy_extract force_recalc st = (inl err, st) /\
  EFGAsymmetry_extract force_recalc st = (inl err, st) /\
  EFGSpan_extract force_recalc st = (inl err, st) /\
  EFGSkew_extract force_recalc st = (inl err, st) /\
  (forall use_q isotopes isotope_list,
      EFGQuadrupolarConstant_extract force_recalc use_q isotopes isotope_list st =
        (inl err, st) /\
      EFGNQR_extract force_recalc use_q isotopes isotope_list st = (inl err, st) /\
      EFGQuadrupolarProduct_extract force_recalc use_q isotopes isotope_list st =
        (inl err, st)).
Proof.
  intros Hefg Hrun err.
  split; [intros save_array; apply EFGDiagonal_extract_empty, Hefg|].
  repeat split; apply derived_empty; assumption.
Qed.

(** *** The quadrupolar constant and the quadrupolar product *)

Lemma broadcast_same_length (f : R -> R -> R) (xs ys : list R) :
  length xs = length ys -> broadcast f xs ys = inr (zip_with f xs ys).
Proof. unfold broadcast. intros ->. rewrite Nat.eqb_refl. reflexivity. Qed.

Lemma lift_ok {A} (a : A) (st : state) : lift (inr a) st = (inr a, st).
Proof. reflexivity. Qed.

Lemma quadrupolar_run (st st1 : state) (force_recalc use_q : bool)
  (isotopes : gmap string nat) (isotope_list : option (list (option nat)))
  (evals : list (list R)) (vzz : list R) (q_list : list Q) :
  is_Some (arrays st !! "efg") ->
  ensure_diagonal force_recalc st = (inr tt, st1) ->
  arrays st1 !! "efg_diagonal_evals_hsort" = Some (Arr2 evals) ->
  mapM py_last evals = inr vzz ->
  length evals = length (symbols st) ->
  _get_isotope_data (symbols st) "Q" isotopes
    (valid_isotope_list (symbols st) isotope_list) use_q = inr q_list ->
  let cq := zip_with (fun q V => (EFG_TO_CHI * Q2R q * V)%R) q_list vzz in
  exists st2,
    EFGQuadrupolarConstant_extract force_recalc use_q isotopes isotope_list st =
      (inr cq, st2) /\
    EFGQuadrupolarProduct_extract force_recalc use_q isotopes isotope_list st =
      (inr (zip_with Rmult cq
              (map (fun row => sqrt (1 + asymmetry3 row ^ 2 / 3)) evals)), st2) /\
    length cq = length (symbols st).
Proof.
  intros Hefg Hdiag Hcache Hlast Hlen Hq cq.
  destruct (ensure_diagonal_symbols _ _ _ _ Hdiag) as [Hsym Hefg1].
  specialize (Hefg1 Hefg).
  destruct (check_isotope_list_run isotope_list (symbols st1) st1)
    as (st2 & Hcheck & Hsym2 & Harr2).
  assert (Hvzz : EFGVzz_get st2 = (inr (Arr1 vzz), st2)).
  { apply (EFGVzz_get_cached st2 evals); rewrite ?Harr2; assumption. }
  assert (Heta : EFGAsymmetry_get st2 = (inr (Arr1 (map asymmetry3 evals)), st2)).
  { apply EFGAsymmetry_get_cached; rewrite ?Harr2; assumption. }
  pose proof (mapM_res_length _ _ _ Hlast) as Lv.
  pose proof (get_isotope_data_length _ _ _ _ _ _ Hq) as Lq.
  assert (Hcq : broadcast Rmult (map (fun q => (EFG_TO_CHI * Q2R q)%R) q_list) vzz
                = inr cq).
  { rewrite broadcast_same_length by (rewrite length_map; lia).
    unfold cq. rewrite zip_with_fmap_l. reflexivity. }
  assert (Lcq : length cq = length (symbols st)).
  { unfold cq. rewrite length_zip_with. lia. }
  exists st2. split; [|split; [|exact Lcq]].
  - unfold EFGQuadrupolarConstant_extract.
    rewrite has_efg_check_true by exact Hefg.
    rewrite (bind_ok _ _ _ _ _ Hdiag).
    unfold get_chemical_symbols at 1, gets at 1.
    unfold mbind at 1, M_bind at 1.
    rewrite (bind_ok _ _ _ _ _ Hcheck).
    rewrite Hsym, Hq.
    rewrite (bind_ok _ _ _ _ _ (lift_ok q_list st2)).
    rewrite (bind_ok _ _ _ _ _ Hvzz).
    cbn [vector]. rewrite (bind_ok _ _ _ _ _ (lift_ok vzz st2)).
    unfold lift. rewrite Hcq. reflexivity.
  - unfold EFGQuadrupolarProduct_extract.
    rewrite has_efg_check_true by exact Hefg.
    rewrite (bind_ok _ _ _ _ _ Hdiag).
    unfold get_chemical_symbols at 1, gets at 1.
    unfold mbind at 1, M_bind at 1.
    rewrite (bind_ok _ _ _ _ _ Hcheck).
    rewrite Hsym, Hq.
    rewrite (bind_ok _ _ _ _ _ (lift_ok q_list st2)).
    rewrite (bind_ok _ _ _ _ _ Hvzz).
    cbn [vector]. rewrite (bind_ok _ _ _ _ _ (lift_ok vzz st2)).
    rewrite Hcq. rewrite (bind_ok _ _ _ _ _ (lift_ok cq st2)).
    rewrite (bind_ok _ _ _ _ _ Heta).
    cbn [vector]. rewrite (bind_ok _ _ _ _ _ (lift_ok _ st2)).
    unfold lift.
    rewrite broadcast_same_length by (rewrite !length_map; lia).
    rewrite map_map. reflexivity.
Qed.

(** X10: once the tensors are diagonalised and the isotopes resolved,
    [EFGQuadrupolarConstant.extract] returns one value per atom, the
    product [EFG_TO_CHI * Q * Vzz] of the atom's quadrupole moment and its
    Haeberlen [Vzz]; it is zero for an atom whose isotope has no
    quadrupole moment. *)
Theorem quadrupolar_constant_spec (st st1 : state) (force_recalc use_q : bool)
  (isotopes : gmap string nat) (isotope_list : option (list (option nat)))
  (evals : list (list R)) (vzz : list R) (q_list : list Q) :
  is_Some (arrays st !! "efg") ->
  ensure_diagonal force_recalc st = (inr tt, st1) ->
  arrays st1 !! "efg_diagonal_evals_hsort" = Some (Arr2 evals) ->
  mapM py_last evals = inr vzz ->
  length evals = length (symbols st) ->
  _get_isotope_data (symbols st) "Q" isotopes
    (valid_isotope_list (symbols st) isotope_list) use_q = inr q_list ->
  exists cq st2,
    EFGQuadrupolarConstant_extract force_recalc use_q isotopes isotope_list st =
      (inr cq, st2) /\
    length cq = length (symbols st) /\
    forall i moment Vzz,
      q_list !! i = Some moment -> vzz !! i = Some Vzz ->
      cq !! i = Some (EFG_TO_CHI * Q2R moment * Vzz)%R /\
      ((moment == 0)%Q -> cq !! i = Some 0%R).
Proof.
  intros Hefg Hdiag Hcache Hlast Hlen Hq.
  destruct (quadrupolar_run st st1 force_recalc use_q isotopes isotope_list
              evals vzz q_list Hefg Hdiag Hcache Hlast Hlen Hq)
    as (st2 & Hrun & _ & Lcq).
  eexists _, st2. split; [exact Hrun|]. split; [exact Lcq|].
  intros i moment Vzz Hmom HV.
  assert (Hi : zip_with (fun q V => (EFG_TO_CHI * Q2R q * V)%R) q_list vzz !! i =
               Some (EFG_TO_CHI * Q2R moment * Vzz)%R).
  { rewrite lookup_zip_with, Hmom, HV. reflexivity. }
  split; [exact Hi|].
  intros Hzero. rewrite Hi. f_equal.
  rewrite (Qeq_eqR _ _ Hzero). unfold Q2R. simpl. lra.
Qed.

(** X11: under the same conditions [EFGQuadrupolarProduct.extract] returns,
    atom by atom, the quadrupolar constant that
    [EFGQuadrupolarConstant.extract] returns times
    [sqrt(1 + eta^2 / 3)], [eta] being the asymmetry of the atom: the two
    agree where the asymmetry is zero, and the product is never smaller in
    magnitude than the constant. *)
Theorem quadrupolar_product_spec (st st1 : state) (force_recalc use_q : bool)
  (isotopes : gmap string nat) (isotope_list : option (list (option nat)))
  (evals : list (list R)) (vzz : list R) (q_list : list Q) :
  is_Some (arrays st !! "efg") ->
  ensure_diagonal force_recalc st = (inr tt, st1) ->
  arrays st1 !! "efg_diagonal_evals_hsort" = Some (Arr2 evals) ->
  mapM py_last evals = inr vzz ->
  length evals = length (symbols st) ->
  _get_isotope_data (symbols st) "Q" isotopes
    (valid_isotope_list (symbols st) isotope_list) use_q = inr q_list ->
  exists cq pq st2,
    EFGQuadrupolarConstant_extract force_recalc use_q isotopes isotope_list st =
      (inr cq, st2) /\
    EFGQuadrupolarProduct_extract force_recalc use_q isotopes isotope_list st =
      (inr pq, st2) /\
    length pq = length cq /\
    forall i c row,
      cq !! i = Some c -> evals !! i = Some row ->
      pq !! i = Some (c * sqrt (1 + asymmetry3 row ^ 2 / 3))%R /\
      (asymmetry3 row = 0%R -> pq !! i = Some c) /\
      (forall p, pq !! i = Some p -> (Rabs c <= Rabs p)%R).
Proof.
  intros Hefg Hdiag Hcache Hlast Hlen Hq.
  destruct (quadrupolar_run st st1 force_recalc use_q isotopes isotope_list
              evals vzz q_list Hefg Hdiag Hcache Hlast Hlen Hq)
    as (st2 & Hcq & Hpq & Lcq).
  eexists _, _, st2. split; [exact Hcq|]. split; [exact Hpq|].
  split; [rewrite length_zip_with, length_map; lia|].
  intros i c row Hc Hrow.
  assert (Hi : zip_with Rmult
                 (zip_with (fun q V => (EFG_TO_CHI * Q2R q * V)%R) q_list vzz)
                 (map (fun row => sqrt (1 + asymmetry3 row ^ 2 / 3)) evals) !! i =
               Some (c * sqrt (1 + asymmetry3 row ^ 2 / 3))%R).
  { rewrite lookup_zip_with, Hc, list_lookup_fmap, Hrow. reflexivity. }
  split; [exact Hi|]. split.
  - intros Heta. rewrite Hi, Heta. f_equal.
    replace (1 + 0 ^ 2 / 3)%R with 1%R by lra. rewrite sqrt_1. lra.
  - intros p Hp.
    assert (Hs : (1 <= sqrt (1 + asymmetry3 row ^ 2 / 3))%R).
    { rewrite <- sqrt_1 at 1. apply sqrt_le_1_alt.
      pose proof (pow2_ge_0 (asymmetry3 row)). lra. }
    set (s := sqrt (1 + asymmetry3 row ^ 2 / 3)) in *.
    assert (Hp' : p = (c * s)%R) by congruence.
    rewrite Hp', Rabs_mult, (Rabs_right s) by lra.
    pose proof (Rabs_pos c). nra.
Qed.

End RecomputeFacts.

(** *** The number of NQR transitions *)

Lemma filter_seq_ge (a count : nat) :
  List.filter (fun k => (a <=? k)%nat) (seq 0 count) = seq a (count - a).
Proof.
  induction count as [|count IH]; [reflexivity|].
  rewrite seq_S, List.filter_app, IH. cbn [List.filter Nat.add].
  destruct (Nat.leb_spec a count) as [Hle|Hgt].
  - replace (S count - a)%nat with (S (count - a)) by lia.
    rewrite seq_S. do 2 f_equal. lia.
  - replace (count - a)%nat with 0%nat by lia.
    replace (S count - a)%nat with 0%nat by lia. reflexivity.
Qed.

Lemma transitions_count (n : Z) :
  (0 <= n)%Z ->
  length (List.filter (fun z => (0 <=? z)%Z)
            (map (fun k => (2 * Z.of_nat k - n)%Z) (seq 0 (Z.to_nat n)))) =
  Z.to_nat (n / 2).
Proof.
  intros Hn. rewrite filter_map_swap, length_map.
  pose proof (Z.div_mod n 2 ltac:(lia)) as Hdiv.
  pose proof (Z.mod_pos_bound n 2 ltac:(lia)) as Hmod.
  rewrite (filter_ext _ (fun k => (Z.to_nat (n - n / 2) <=? k)%nat)).
  - rewrite filter_seq_ge, length_seq. lia.
  - intros k. apply eq_true_iff_eq. rewrite Z.leb_le, Nat.leb_le. lia.
Qed.

Section CountFacts.

Context {E : Externals}.

(** X12: for an atom whose spin [I] is a multiple of one half above one
    half, the dictionary that [EFGNQR.extract] returns for the atom has
    exactly [floor(I)] transitions: one for spin 1 and for spin 3/2, two
    for spin 5/2, and so on. *)
Theorem nqr_transition_count (st st1 : state) (force_recalc use_q : bool)
  (isotopes : gmap string nat) (isotope_list : option (list (option nat)))
  (evals : list (list R)) (vzz : list R) (q_list I_list : list Q)
  (i : nat) (spin : Q) (n : Z) :
  is_Some (arrays st !! "efg") ->
  ensure_diagonal force_recalc st = (inr tt, st1) ->
  arrays st1 !! "efg_diagonal_evals_hsort" = Some (Arr2 evals) ->
  mapM py_last evals = inr vzz ->
  length evals = length (symbols st) ->
  _get_isotope_data (symbols st) "Q" isotopes
    (valid_isotope_list (symbols st) isotope_list) use_q = inr q_list ->
  _get_isotope_data (symbols st) "I" isotopes
    (valid_isotope_list (symbols st) isotope_list) use_q = inr I_list ->
  I_list !! i = Some spin -> (spin == n # 2)%Q -> (1 < n)%Z ->
  exists nqr st2 d,
    EFGNQR_extract force_recalc use_q isotopes isotope_list st = (inr nqr, st2) /\
    nqr !! i = Some d /\
    size d = Z.to_nat (Qfloor spin).
Proof.
  intros Hefg Hdiag Hcache Hlast Hlen Hq HI Hi Hspin Hn.
  destruct (EFGNQR_extract_run st st1 force_recalc use_q isotopes isotope_list
              evals vzz q_list I_list Hefg Hdiag Hcache Hlast Hlen Hq HI)
    as (nqr & st2 & Hrun & Hlen' & Hentry).
  pose proof (get_isotope_data_length _ _ _ _ _ _ Hq) as Lq.
  pose proof (get_isotope_data_length _ _ _ _ _ _ HI) as LI.
  pose proof (mapM_res_length _ _ _ Hlast) as Lv.
  pose proof (lookup_lt_Some _ _ _ Hi) as Hlt.
  destruct (lookup_lt_is_Some_2 q_list i ltac:(lia)) as [moment Hmom].
  destruct (lookup_lt_is_Some_2 vzz i ltac:(lia)) as [V HV].
  destruct (lookup_lt_is_Some_2 evals i ltac:(lia)) as [row Hrow].
  specialize (Hentry i spin moment V row Hi Hmom HV Hrow).
  assert (Hgt : Qle_bool spin (1 # 2) = false).
  { apply not_true_iff_false. rewrite Qle_bool_iff, Hspin.
    unfold Qle. simpl. lia. }
  rewrite Hgt in Hentry.
  eexists nqr, st2, _. split; [exact Hrun|]. split; [exact Hentry|].
  rewrite (nqr_ms_half spin n Hspin Hn).
  destruct (transitions_of_spec (nqr_A V moment spin) (asymmetry3 row) _ ∅
              (half_keys_NoDup n (Z.to_nat n))) as (_ & _ & Hsize).
  rewrite Hsize by (intros; apply lookup_empty).
  rewrite map_size_empty, length_map, transitions_count by lia.
  simpl. f_equal. rewrite Hspin. unfold Qfloor. simpl. reflexivity.
Qed.

End CountFacts.

(** *** The symmetric part of a tensor *)

Lemma entry_lookup (m : list (list R)) (i j : nat) (row : list R) (x : R) :
  m !! i = Some row -> row !! j = Some x -> entry m i j = x.
Proof. intros Hi Hj. unfold entry. rewrite Hi. simpl. rewrite Hj. reflexivity. Qed.

Lemma entry_symmetrise (n : nat) (m : list (list R)) (i j : nat) :
  square n m -> (i < n)%nat -> (j < n)%nat ->
  entry (symmetrise m) i j = ((entry m i j + entry m j i) / 2)%R.
Proof.
  intros [Hlen Hrows] Hi Hj.
  destruct (lookup_lt_is_Some_2 m i ltac:(lia)) as [row Hrow].
  pose proof (Forall_lookup_1 _ _ _ _ Hrows Hrow) as Hrowlen. simpl in Hrowlen.
  destruct (lookup_lt_is_Some_2 row j ltac:(lia)) as [x Hx].
  rewrite (entry_lookup m i j row x Hrow Hx).
  unfold entry at 1, symmetrise.
  rewrite list_lookup_imap, Hrow. simpl.
  rewrite list_lookup_imap, Hx. reflexivity.
Qed.

Lemma entry_out_of_range (n : nat) (m : list (list R)) (i j : nat) :
  square n m -> (n <= i)%nat \/ (n <= j)%nat -> entry m i j = 0%R.
Proof.
  intros [Hlen Hrows] Hout. unfold entry.
  destruct (m !! i) as [row|] eqn:Hrow; [|reflexivity]. simpl.
  pose proof (Forall_lookup_1 _ _ _ _ Hrows Hrow) as Hrowlen. simpl in Hrowlen.
  apply lookup_lt_Some in Hrow.
  rewrite lookup_ge_None_2 by lia. reflexivity.
Qed.

Lemma symmetrise_square (n : nat) (m : list (list R)) :
  square n m -> square n (symmetrise m).
Proof.
  intros [Hlen Hrows]. unfold symmetrise. split; [rewrite length_imap; exact Hlen|].
  apply Forall_forall. intros row' Hin.
  apply list_elem_of_lookup in Hin as [i Hi].
  rewrite list_lookup_imap in Hi.
  destruct (m !! i) as [row|] eqn:Hrow; [|discriminate].
  injection Hi as <-. rewrite length_imap.
  exact (Forall_lookup_1 _ _ _ _ Hrows Hrow).
Qed.

Lemma square_ext (n : nat) (m1 m2 : list (list R)) :
  square n m1 -> square n m2 ->
  (forall i j, (i < n)%nat -> (j < n)%nat -> entry m1 i j = entry m2 i j) ->
  m1 = m2.
Proof.
  intros [L1 R1] [L2 R2] Hext. apply list_eq_same_length with n; [exact L2|exact L1|].
  intros i row1 row2 Hi H1 H2.
  pose proof (Forall_lookup_1 _ _ _ _ R1 H1) as Hr1.
  pose proof (Forall_lookup_1 _ _ _ _ R2 H2) as Hr2. simpl in Hr1, Hr2.
  apply list_eq_same_length with n; [exact Hr2|exact Hr1|].
  intros j x1 x2 Hj Hx1 Hx2.
  rewrite <- (entry_lookup m1 i j row1 x1 H1 Hx1).
  rewrite <- (entry_lookup m2 i j row2 x2 H2 Hx2).
  apply Hext; assumption.
Qed.

(** X13: the matrix [(efg + efg.T) / 2] that [EFGDiagonal.extract] hands
    to the eigen-solver is symmetric, whatever the stored tensor is; its
    entries are the means of the entries across the diagonal; a symmetric
    tensor is handed over unchanged, so that symmetrising twice is
    symmetrising once. *)
Theorem symmetrise_spec (n : nat) (m : list (list R)) :
  square n m ->
  square n (symmetrise m) /\
  (forall i j, (i < n)%nat -> (j < n)%nat ->
     entry (symmetrise m) i j = ((entry m i j + entry m j i) / 2)%R) /\
  (forall i j, entry (symmetrise m) i j = entry (symmetrise m) j i) /\
  ((forall i j, entry m i j = entry m j i) -> symmetrise m = m) /\
  symmetrise (symmetrise m) = symmetrise m.
Proof.
  intros Hsq. pose proof (symmetrise_square n m Hsq) as Hsq'.
  assert (Hsym : forall i j, entry (symmetrise m) i j = entry (symmetrise m) j i).
  { intros i j.
    destruct (Nat.lt_ge_cases i n) as [Hi|Hi];
      [destruct (Nat.lt_ge_cases j n) as [Hj|Hj]|].
    - rewrite !(entry_symmetrise n) by assumption. lra.
    - rewrite !(entry_out_of_range n) by (assumption || lia). reflexivity.
    - rewrite !(entry_out_of_range n) by (assumption || lia). reflexivity. }
  assert (Hfix : forall m', square n m' ->
                   (forall i j, entry m' i j = entry m' j i) -> symmetrise m' = m').
  { intros m' Hm' Hm'sym. apply (square_ext n).
    - apply symmetrise_square, Hm'.
    - exact Hm'.
    - intros i j Hi Hj. rewrite (entry_symmetrise n) by assumption.
      rewrite (Hm'sym j i). lra. }
  split; [exact Hsq'|]. split; [intros i j; apply entry_symmetrise, Hsq|].
  split; [exact Hsym|]. split; [apply Hfix, Hsq|].
  apply Hfix; assumption.
Qed.

Lemma symmetrise_spec_witness :
  symmetrise [[1; 2]; [4; 3]]%R = [[(1 + 1) / 2; (2 + 4) / 2]; [(4 + 2) / 2; (3 + 3) / 2]]%R /\
  symmetrise (symmetrise [[1; 2]; [4; 3]]%R) = symmetrise [[1; 2]; [4; 3]]%R.
Proof.
  split; [reflexivity|].
  apply (symmetrise_spec 2 [[1; 2]; [4; 3]]%R).
  split; [reflexivity|repeat constructor].
Defined.

Section TensorFacts.

Context {E : Externals}.
Context {quaternion : Type} {T : TensorMethods quaternion}.

Lemma get_isotope_list_lookup (elems : list string) (isotopes : gmap string nat)
  (isotope_list : option (list (option nat))) (use_q : bool) (isos : list nat) :
  _get_isotope_list elems isotopes isotope_list use_q = inr isos ->
  length isos = length elems.
Proof. apply get_isotope_list_length. Qed.

Lemma tensors_accepted (order : string) (l : list (list (list R) * string)) :
  Forall (fun '(efg, label) => tensor_check efg label order = inr tt) l ->
  mapM (fun '(efg, species) => ElectricFieldGradient_init efg species order) l =
  inr (map (fun '(efg, species) =>
              {| data := efg; species := species; EFG.order := order |}) l).
Proof.
  induction l as [|[efg label] l IH]; intros Hall; [reflexivity|].
  apply Forall_cons in Hall as [Hok Hall].
  rewrite mapM_res_cons, (IH Hall). unfold ElectricFieldGradient_init.
  rewrite Hok. reflexivity.
Qed.

Lemma tensor_rejected (order : string) (front back : list (list (list R) * string))
  (efg : list (list R)) (label : string) (e : exn) :
  Forall (fun '(efg, label) => tensor_check efg label order = inr tt) front ->
  tensor_check efg label order = inl e ->
  mapM (fun '(efg, species) => ElectricFieldGradient_init efg species order)
       (front ++ (efg, label) :: back) = inl e.
Proof.
  intros Hfront Hbad. induction front as [|[efg' label'] front IH].
  - simpl app. rewrite mapM_res_cons. unfold ElectricFieldGradient_init.
    rewrite Hbad. reflexivity.
  - apply Forall_cons in Hfront as [Hok Hfront]. simpl app.
    rewrite mapM_res_cons, (IH Hfront). unfold ElectricFieldGradient_init.
    rewrite Hok. reflexivity.
Qed.

Lemma EFGTensor_extract_run (st : state) (order : string) (use_q : bool)
  (isotopes : gmap string nat) (isotope_list : option (list (option nat)))
  (efgs : list (list (list R))) (isos : list nat) :
  arrays st !! "efg" = Some (Arr3 efgs) ->
  _get_isotope_list (symbols st) isotopes
    (valid_isotope_list (symbols st) isotope_list) use_q = inr isos ->
  exists st',
    symbols st' = symbols st /\ arrays st' = arrays st /\
    EFGTensor_extract order use_q isotopes isotope_list st =
    (mapM (fun '(efg, species) => ElectricFieldGradient_init efg species order)
          (zip efgs (zip_with (fun iso elem => str_nat iso +:+ elem) isos (symbols st))),
     st').
Proof.
  intros Hefg Hisos.
  destruct (check_isotope_list_run isotope_list (symbols st) st)
    as (st' & Hcheck & Hsym & Harr).
  exists st'. split; [exact Hsym|]. split; [exact Harr|].
  unfold EFGTensor_extract.
  rewrite has_efg_check_true by (rewrite Hefg; eauto).
  unfold get_chemical_symbols at 1, gets at 1.
  unfold mbind at 1, M_bind at 1.
  rewrite (bind_ok _ _ _ _ _ Hcheck).
  rewrite Hisos. rewrite (bind_ok _ _ _ _ _ (lift_ok isos st')).
  unfold get_array, lift, mbind, M_bind, mret, M_ret.
  rewrite Harr, Hefg. cbn [matrices]. reflexivity.
Qed.

(** X14: on a structure that has its ["efg"] array, and once the isotopes
    are resolved, [EFGTensor.extract] calls the tensor constructor for the
    atoms in their order (as many as there are atoms and matrices both),
    each time with the matrix as it is stored (not its symmetric part),
    the label made of the isotope number and the element symbol, and the
    order asked for. When the constructor accepts every call, the tensors
    built from these arguments are returned, one per atom; when it rejects
    one (an order that is none of ['i'], ['d'], ['h'], ['n'], say), the
    extraction raises the error of the first call rejected. In both cases
    no array of the structure is set or changed. *)
Theorem EFGTensor_extract_spec (st : state) (order : string) (use_q : bool)
  (isotopes : gmap string nat) (isotope_list : option (list (option nat)))
  (efgs : list (list (list R))) (isos : list nat) :
  arrays st !! "efg" = Some (Arr3 efgs) ->
  _get_isotope_list (symbols st) isotopes
    (valid_isotope_list (symbols st) isotope_list) use_q = inr isos ->
  let labels := zip_with (fun iso el => str_nat iso +:+ el) isos (symbols st) in
  exists st',
    symbols st' = symbols st /\ arrays st' = arrays st /\
    (Forall (fun '(efg, label) => tensor_check efg label order = inr tt)
            (zip efgs labels) ->
     exists tensors,
       EFGTensor_extract order use_q isotopes isotope_list st = (inr tensors, st') /\
       length tensors = Nat.min (length efgs) (length (symbols st)) /\
       forall i t, tensors !! i = Some t ->
         exists el iso,
           symbols st !! i = Some el /\ isos !! i = Some iso /\
           efgs !! i = Some (data t) /\
           species t = str_nat iso +:+ el /\
           EFG.order t = order) /\
    (forall front efg label back e,
       zip efgs labels = front ++ (efg, label) :: back ->
       Forall (fun '(efg, label) => tensor_check efg label order = inr tt) front ->
       tensor_check efg label order = inl e ->
       EFGTensor_extract order use_q isotopes isotope_list st = (inl e, st')).
Proof.
  intros Hefg Hisos labels.
  destruct (EFGTensor_extract_run st order use_q isotopes isotope_list efgs isos
              Hefg Hisos) as (st' & Hsym & Harr & Hrun).
  fold labels in Hrun.
  pose proof (get_isotope_list_length _ _ _ _ _ Hisos) as Liso.
  exists st'. split; [exact Hsym|]. split; [exact Harr|]. split.
  - intros Hall. eexists.
    split; [rewrite Hrun, (tensors_accepted order _ Hall); reflexivity|].
    split.
    + unfold labels. rewrite length_map, length_zip, length_zip_with. lia.
    + intros i t Ht. rewrite list_lookup_fmap in Ht.
      destruct (zip efgs labels !! i) as [[efg label]|] eqn:Hzip; [|discriminate].
      injection Ht as <-.
      apply lookup_zip_with_Some in Hzip
        as (efg' & label' & [= <- <-] & Hefg_i & Hlabel).
      apply lookup_zip_with_Some in Hlabel as (iso & el & -> & Hiso & Hel).
      exists el, iso. cbn [data species EFG.order]. auto.
  - intros front efg label back e Hsplit Hfront Hbad.
    rewrite Hrun, Hsplit.
    rewrite (tensor_rejected order front back efg label e Hfront Hbad).
    reflexivity.
Qed.

Lemma EFGTensor_get_state (order : string) (st : state) :
  snd (EFGTensor_get order st) = st.
Proof.
  unfold EFGTensor_get, EFGTensor_extract, _has_efg_check, has, gets,
    get_chemical_symbols, check_isotope_list, get_array, lift, raise,
    mbind, M_bind, mret, M_ret.
  destruct (bool_decide (is_Some (arrays st !! "efg"))); simpl; [|reflexivity].
  destruct (_get_isotope_list (symbols st) ∅ None false); [reflexivity|].
  destruct (arrays st !! "efg") as [a|]; [|reflexivity].
  destruct (matrices a); reflexivity.
Qed.

(** X15: [EFGEuler.extract] and [EFGQuaternion.extract] work on the tensors
    that [EFGTensor.get(s, order=order)] returns, that is, on those of the
    default isotopes. When that call returns, they return one entry per
    tensor (or the first error of the tensor method); when it raises, they
    raise the same error. In every case they leave the structure and the
    output as they were. *)
Theorem orientation_properties_spec (st : state) (order convention : string)
  (passive : bool) :
  snd (EFGEuler_extract order convention passive st) = st /\
  snd (EFGQuaternion_extract order st) = st /\
  (forall tensors,
      fst (EFGTensor_get order st) = inr tensors ->
      fst (EFGEuler_extract order convention passive st) =
        mapM (fun t => euler_angles t convention passive) tensors /\
      fst (EFGQuaternion_extract order st) = mapM tensor_quaternion tensors /\
      forall quats, mapM tensor_quaternion tensors = inr quats ->
                    length quats = length tensors) /\
  (forall e,
      fst (EFGTensor_get order st) = inl e ->
      fst (EFGEuler_extract order convention passive st) = inl e /\
      fst (EFGQuaternion_extract order st) = inl e).
Proof.
  pose proof (EFGTensor_get_state order st) as Hstate.
  assert (Hguard : arrays st !! "efg" = None ->
                   fst (EFGTensor_get order st) =
                   inl (RuntimeError
                          "No electric field gradient data found for this system")).
  { intros Hnone. unfold EFGTensor_get, EFGTensor_extract.
    rewrite has_efg_check_false by exact Hnone. reflexivity. }
  unfold EFGEuler_extract, EFGQuaternion_extract.
  destruct (arrays st !! "efg") as [a|] eqn:Hefg.
  - rewrite !has_efg_check_true by (rewrite Hefg; eauto).
    unfold mbind, M_bind, lift.
    destruct (EFGTensor_get order st) as [[e|tensors] st'].
    + simpl in *. subst st'. repeat split; try discriminate; congruence.
    + simpl in *. subst st'. repeat split; try discriminate.
      * congruence.
      * congruence.
      * intros quats Hq. injection H as <-. apply mapM_res_length in Hq. exact Hq.
  - rewrite !has_efg_check_false by exact Hefg.
    rewrite (Hguard eq_refl). simpl.
    repeat split; try discriminate; congruence.
Qed.

End TensorFacts.

Section MoreExampleRun.

#[local] Existing Instance example_externals.
#[local] Existing Instance example_reductions.
#[local] Existing Instance example_methods.

Lemma example_diagonalised_efg : is_Some (arrays example_diagonalised !! "efg").
Proof. eexists. reflexivity. Qed.

Lemma example_efg :
  arrays example_atoms !! "efg" = Some (Arr3 [[[-1; 0; 0]; [0; -1; 0]; [0; 0; 2]]%R]).
Proof. reflexivity. Qed.

Lemma derived_properties_use_cache_witness :
  EFGVzz_extract false example_diagonalised =
    (inr (Arr1 [((2 + 2) / 2)%R]), example_diagonalised) /\
  EFGSpan_extract false example_diagonalised =
    (inr (Arr1 (map span3 example_evals)), example_diagonalised).
Proof.
  destruct (derived_properties_use_cache example_diagonalised example_evals
              example_diagonalised_efg example_cache)
    as (Hvzz & _ & _ & _ & Hspan & _).
  split; [exact Hvzz|exact Hspan].
Defined.

Lemma EFGDiagonal_extract_spec_witness :
  EFGDiagonal_extract false example_atoms =
    (inr [eigh (symmetrise [[-1; 0; 0]; [0; -1; 0]; [0; 0; 2]]%R)], example_atoms) /\
  exists st1,
    EFGDiagonal_extract true example_atoms =
      (inr [eigh (symmetrise [[-1; 0; 0]; [0; -1; 0]; [0; 0; 2]]%R)], st1) /\
    EFGDiagonal_extract true st1 =
      (inr [eigh (symmetrise [[-1; 0; 0]; [0; -1; 0]; [0; 0; 2]]%R)], st1).
Proof.
  destruct (EFGDiagonal_extract_spec example_atoms _ example_efg ltac:(discriminate))
    as (Hpure & st1 & Hrun & _ & _ & _ & _ & _ & _ & Hagain).
  split; [exact Hpure|]. exists st1. split; [exact Hrun|exact Hagain].
Defined.

Lemma derived_properties_recompute_witness :
  EFGVzz_extract true example_atoms =
    (inr (Arr1 [((2 + 2) / 2)%R]),
     stored example_atoms [eigh (symmetrise [[-1; 0; 0]; [0; -1; 0]; [0; 0; 2]]%R)]).
Proof.
  exact (proj1 (derived_properties_recompute true example_atoms _ example_efg
                  ltac:(discriminate) (or_intror eq_refl))).
Defined.

Lemma empty_structure_raises_witness :
  EFGDiagonal_extract true example_empty =
    (inl (ValueError "not enough values to unpack (expected 2, got 0)"), example_empty) /\
  EFGVzz_extract false example_empty =
    (inl (ValueError "not enough values to unpack (expected 2, got 0)"), example_empty).
Proof.
  destruct (empty_structure_raises example_empty false eq_refl (or_introl eq_refl))
    as (Hdiag & Hvzz & _).
  split; [exact (Hdiag true)|exact Hvzz].
Defined.

Lemma quadrupolar_constant_spec_witness :
  exists cq st2,
    EFGQuadrupolarConstant_extract false false ∅ None example_atoms = (inr cq, st2) /\
    cq !! 0%nat = Some (EFG_TO_CHI * Q2R (- (8165 # 100)) * ((2 + 2) / 2))%R.
Proof.
  destruct (quadrupolar_constant_spec example_atoms example_diagonalised false false
              ∅ None example_evals [((2 + 2) / 2)%R] [- (8165 # 100)]%Q
              example_has_efg example_ensure_diagonal example_cache
              eq_refl eq_refl example_moments)
    as (cq & st2 & Hrun & _ & Hat).
  exists cq, st2. split; [exact Hrun|].
  exact (proj1 (Hat 0%nat (- (8165 # 100))%Q ((2 + 2) / 2)%R eq_refl eq_refl)).
Defined.

Lemma quadrupolar_product_spec_witness :
  exists cq pq st2,
    EFGQuadrupolarConstant_extract false false ∅ None example_atoms = (inr cq, st2) /\
    EFGQuadrupolarProduct_extract false false ∅ None example_atoms = (inr pq, st2) /\
    length pq = length cq.
Proof.
  destruct (quadrupolar_product_spec example_atoms example_diagonalised false false
              ∅ None example_evals [((2 + 2) / 2)%R] [- (8165 # 100)]%Q
              example_has_efg example_ensure_diagonal example_cache
              eq_refl eq_refl example_moments)
    as (cq & pq & st2 & Hcq & Hpq & Hlen & _).
  exists cq, pq, st2. auto.
Defined.

Lemma nqr_transition_count_witness :
  exists nqr st2 d,
    EFGNQR_extract false false ∅ None example_atoms = (inr nqr, st2) /\
    nqr !! 0%nat = Some d /\
    size d = 1%nat.
Proof.
  exact (nqr_transition_count example_atoms example_diagonalised false false ∅ None
           example_evals [((2 + 2) / 2)%R] [- (8165 # 100)]%Q [3 # 2]%Q
           0%nat (3 # 2)%Q 3%Z
           example_has_efg example_ensure_diagonal example_cache
           eq_refl eq_refl example_moments example_spins
           eq_refl (Qeq_refl _) ltac:(lia)).
Defined.

Lemma example_isotopes :
  _get_isotope_list (symbols example_atoms) ∅
    (valid_isotope_list (symbols example_atoms) None) false = inr [35%nat].
Proof. vm_compute. reflexivity. Qed.

Lemma EFGTensor_extract_spec_witness :
  (exists tensors st',
     EFGTensor_extract "n" false ∅ None example_atoms = (inr tensors, st') /\
     arrays st' = arrays example_atoms /\
     length tensors = 1%nat) /\
  (exists st',
     EFGTensor_extract "x" false ∅ None example_atoms =
       (inl (ValueError "invalid tensor order"), st') /\
     arrays st' = arrays example_atoms).
Proof.
  split.
  - destruct (EFGTensor_extract_spec example_atoms "n" false ∅ None _ [35%nat]
                example_efg example_isotopes)
      as (st' & _ & Harr & Hok & _).
    destruct (Hok ltac:(repeat constructor)) as (tensors & Hrun & Hlen & _).
    exists tensors, st'. split; [exact Hrun|]. split; [exact Harr|exact Hlen].
  - destruct (EFGTensor_extract_spec example_atoms "x" false ∅ None _ [35%nat]
                example_efg example_isotopes)
      as (st' & _ & Harr & _ & Hbad).
    exists st'. split; [|exact Harr].
    exact (Hbad [] _ _ [] _ eq_refl ltac:(constructor) eq_refl).
Defined.

End MoreExampleRun.

End EFGFacts.

(** ** [scripts/nmr.py]: duplicates, quaternion averages, groups, aggregation *)

Module NMRScriptFacts.
Import NMRScript.

(** *** [get_duplicates] *)

Lemma tally_get_append (key item : Z) (i : nat) (tally : list (Z * list nat)) :
  tally_get key (tally_append item i tally) =
  if (item =? key)%Z then Some (default [] (tally_get item tally) ++ [i])
  else tally_get key tally.
Proof.
  induction tally as [|[k locs] rest IH]; simpl.
  - destruct (item =? key)%Z; reflexivity.
  - destruct (Z.eqb_spec k item) as [->|Hk]; simpl.
    + destruct (item =? key)%Z; reflexivity.
    + rewrite IH. destruct (Z.eqb_spec item key) as [->|Hi].
      * destruct (Z.eqb_spec k key); [contradiction|reflexivity].
      * reflexivity.
Qed.

Lemma tally_keys_append_eq (item : Z) (i : nat) (tally : list (Z * list nat)) :
  map fst (tally_append item i tally) =
  if decide (item ∈ map fst tally) then map fst tally
  else map fst tally ++ [item].
Proof.
  induction tally as [|[k locs] rest IH]; [reflexivity|].
  simpl. destruct (Z.eqb_spec k item) as [->|Hne]; simpl.
  - rewrite decide_True by left. reflexivity.
  - rewrite IH. destruct (decide (item ∈ map fst rest)) as [Hin|Hnin].
    + rewrite decide_True by (right; exact Hin). reflexivity.
    + rewrite decide_False; [reflexivity|].
      intros Hin. apply elem_of_cons in Hin as [Heq|Hin]; [congruence|contradiction].
Qed.

Lemma tally_keys_append (item : Z) (i : nat) (tally : list (Z * list nat)) :
  NoDup (map fst tally) -> NoDup (map fst (tally_append item i tally)).
Proof.
  intros Hnd. rewrite tally_keys_append_eq.
  destruct (decide (item ∈ map fst tally)) as [Hin|Hnin]; [exact Hnd|].
  apply NoDup_app. split; [exact Hnd|]. split; [|apply NoDup_singleton].
  intros k Hk Hk'. apply list_elem_of_singleton in Hk'. congruence.
Qed.

Lemma positions_snoc (t x : Z) (prefix : list Z) :
  positions t (prefix ++ [x]) =
  positions t prefix ++ (if (x =? t)%Z then [length prefix] else []).
Proof.
  unfold positions. rewrite length_app. simpl.
  rewrite Nat.add_1_r, seq_S, List.filter_app. simpl. f_equal.
  - apply filter_ext_in. intros i Hi. apply in_seq in Hi.
    rewrite lookup_app_l by lia. reflexivity.
  - rewrite lookup_app_r by lia. rewrite Nat.sub_diag. simpl.
    destruct (Z.eqb_spec x t) as [->|Hne].
    + rewrite bool_decide_eq_true_2 by reflexivity. reflexivity.
    + rewrite bool_decide_eq_false_2 by congruence. reflexivity.
Qed.

Lemma tally_of_spec (tags : list Z) :
  NoDup (map fst (tally_of tags)) /\
  forall t, tally_get t (tally_of tags) =
            match positions t tags with
            | [] => None
            | locs => Some locs
            end.
Proof.
  unfold tally_of. induction tags as [|x prefix IH] using rev_ind.
  - split; [constructor|]. intros t. reflexivity.
  - destruct IH as [IHnd IHget].
    rewrite imap_app, fold_left_app. simpl. rewrite Nat.add_0_r.
    split; [apply tally_keys_append, IHnd|].
    intros t. rewrite tally_get_append, positions_snoc.
    destruct (Z.eqb_spec x t) as [->|Hne].
    + rewrite IHget. destruct (positions t prefix); reflexivity.
    + rewrite IHget, app_nil_r. reflexivity.
Qed.

Lemma elem_of_positions (t : Z) (tags : list Z) (i : nat) :
  i ∈ positions t tags <-> tags !! i = Some t.
Proof.
  unfold positions. rewrite list_elem_of_In, filter_In, in_seq, bool_decide_eq_true.
  split; [tauto|]. intros Hi. split; [|exact Hi].
  apply lookup_lt_Some in Hi. lia.
Qed.

Lemma positions_NoDup (t : Z) (tags : list Z) : NoDup (positions t tags).
Proof. apply NoDup_ListNoDup, List.NoDup_filter, seq_NoDup. Qed.

Lemma tally_get_elem (k : Z) (locs : list nat) (tally : list (Z * list nat)) :
  tally_get k tally = Some locs -> (k, locs) ∈ tally.
Proof.
  induction tally as [|[k' locs'] rest IH]; simpl; [discriminate|].
  destruct (Z.eqb_spec k' k) as [->|Hne].
  - intros [= ->]. left.
  - intros H. right. apply IH, H.
Qed.

Lemma elem_tally_get (k : Z) (locs : list nat) (tally : list (Z * list nat)) :
  NoDup (map fst tally) -> (k, locs) ∈ tally -> tally_get k tally = Some locs.
Proof.
  induction tally as [|[k' locs'] rest IH]; simpl; intros Hnd Hin.
  - inversion Hin.
  - apply NoDup_cons in Hnd as [Hk Hnd].
    apply elem_of_cons in Hin as [[= -> ->]|Hin].
    + rewrite Z.eqb_refl. reflexivity.
    + destruct (Z.eqb_spec k' k) as [->|Hne]; [|apply IH; assumption].
      exfalso. apply Hk. apply (list_elem_of_fmap_2 fst _ _ Hin).
Qed.

Lemma filter_keys_NoDup (f : Z * list nat -> bool) (tally : list (Z * list nat)) :
  NoDup (map fst tally) -> NoDup (map fst (List.filter f tally)).
Proof.
  induction tally as [|kv rest IH]; simpl; intros Hnd; [constructor|].
  apply NoDup_cons in Hnd as [Hk Hnd].
  destruct (f kv); [|apply IH, Hnd].
  simpl. apply NoDup_cons. split; [|apply IH, Hnd].
  intros Hin. apply Hk. apply list_elem_of_fmap in Hin as (kv' & -> & Hin).
  apply list_elem_of_In, filter_In in Hin as [Hin _].
  apply list_elem_of_fmap_2, list_elem_of_In, Hin.
Qed.

Lemma get_duplicates_spec (tags : list Z) :
  NoDup (map fst (get_duplicates tags)) /\
  forall t locs,
    (t, locs) ∈ get_duplicates tags <->
    locs = positions t tags /\ (2 <= length locs)%nat.
Proof.
  destruct (tally_of_spec tags) as [Hnd Hget]. unfold get_duplicates.
  split; [apply filter_keys_NoDup, Hnd|].
  intros t locs. rewrite list_elem_of_In, filter_In, <- list_elem_of_In.
  rewrite Nat.ltb_lt. split.
  - intros [Hin Hlen]. split; [|lia].
    apply (elem_tally_get _ _ _ Hnd) in Hin. rewrite Hget in Hin.
    destruct (positions t tags); congruence.
  - intros [-> Hlen]. split; [|lia].
    apply tally_get_elem. rewrite Hget.
    destruct (positions t tags); [simpl in Hlen; lia|reflexivity].
Qed.

(** An index into a duplicate-free list is determined by its entry. *)
Lemma indices_unique {A} `{EqDecision A} (l : list A) (x : A) :
  NoDup l ->
  List.filter (fun i => bool_decide (l !! i = Some x)) (seq 0 (length l)) = [] \/
  exists j, List.filter (fun i => bool_decide (l !! i = Some x)) (seq 0 (length l)) = [j]
            /\ l !! j = Some x.
Proof.
  intros Hnd.
  set (found := List.filter _ _).
  assert (Hfound : forall i, i ∈ found <-> l !! i = Some x).
  { intros i. unfold found.
    rewrite list_elem_of_In, filter_In, in_seq, bool_decide_eq_true.
    split; [tauto|]. intros Hi. split; [|exact Hi].
    apply lookup_lt_Some in Hi. lia. }
  assert (Hp : NoDup found).
  { apply NoDup_ListNoDup, List.NoDup_filter, seq_NoDup. }
  destruct found as [|i [|j rest]]; [left; reflexivity| |].
  - right. exists i. split; [reflexivity|]. apply Hfound. left.
  - exfalso.
    assert (Hi : l !! i = Some x) by (apply Hfound; left).
    assert (Hj : l !! j = Some x) by (apply Hfound; right; left).
    pose proof (NoDup_lookup _ _ _ _ Hnd Hi Hj) as ->.
    apply NoDup_cons in Hp as [Hp _]. apply Hp. left.
Qed.

(** *** [average_quaternions_by_tags] *)

Section QuaternionFacts.

Variable quaternion : Type.
Variable average_quaternions : list quaternion -> quaternion.

Lemma assign_all_spec (idx : list nat) (quat_av : quaternion)
  (quaternions : list quaternion) :
  Forall (fun ig => (ig < length quaternions)%nat) idx ->
  exists res,
    assign_all quaternion quaternions idx quat_av = inr res /\
    length res = length quaternions /\
    (forall i, i ∈ idx -> res !! i = Some quat_av) /\
    (forall i, i ∉ idx -> res !! i = quaternions !! i).
Proof.
  revert quaternions. induction idx as [|ig idx IH]; intros quaternions Hlt.
  - exists quaternions. split; [reflexivity|]. split; [reflexivity|].
    split; [intros i Hi; inversion Hi|reflexivity].
  - apply Forall_cons in Hlt as [Hig Hlt].
    destruct (IH (<[ig := quat_av]> quaternions)) as (res & Hrun & Hlen & Hin & Hout).
    { rewrite length_insert. exact Hlt. }
    exists res. simpl. unfold assign.
    destruct (Nat.ltb_spec ig (length quaternions)) as [_|Hge]; [|lia].
    cbn [mbind res_bind]. split; [exact Hrun|].
    split; [rewrite Hlen; apply length_insert|]. split.
    + intros i Hi. destruct (decide (i ∈ idx)) as [Hi'|Hi']; [apply Hin, Hi'|].
      apply elem_of_cons in Hi as [->|Hi]; [|contradiction].
      rewrite (Hout _ Hi'). apply list_lookup_insert_eq, Hig.
    + intros i Hi. apply not_elem_of_cons in Hi as [Hne Hi].
      rewrite (Hout _ Hi). apply list_lookup_insert_ne. congruence.
Qed.

Lemma pick_in_range (quaternions : list quaternion) (idx : list nat) :
  Forall (fun ig => (ig < length quaternions)%nat) idx ->
  mapM (py_index quaternions) idx = inr (pick quaternion quaternions idx).
Proof.
  induction idx as [|ig idx IH]; intros Hlt; [reflexivity|].
  apply Forall_cons in Hlt as [Hig Hlt].
  rewrite mapM_res_cons, (IH Hlt). unfold py_index, pick. simpl.
  destruct (lookup_lt_is_Some_2 quaternions ig Hig) as [q ->]. reflexivity.
Qed.

Lemma pick_ext (qs1 qs2 : list quaternion) (idx : list nat) :
  (forall i, i ∈ idx -> qs1 !! i = qs2 !! i) ->
  pick quaternion qs1 idx = pick quaternion qs2 idx.
Proof.
  unfold pick. induction idx as [|ig idx IH]; intros Hext; [reflexivity|].
  simpl. rewrite (Hext ig) by left.
  assert (Htail : forall i, i ∈ idx -> qs1 !! i = qs2 !! i)
    by (intros i Hi; apply Hext; right; exact Hi).
  destruct (qs2 !! ig); [f_equal|]; apply IH, Htail.
Qed.

Lemma average_groups_spec (tags : list Z) (dupl : list (Z * list nat))
  (quaternions : list quaternion) :
  length quaternions = length tags ->
  NoDup (map fst dupl) ->
  (forall t idx, (t, idx) ∈ dupl -> idx = positions t tags) ->
  exists res,
    average_groups quaternion average_quaternions quaternions dupl = inr res /\
    length res = length quaternions /\
    (forall i, (forall t idx, (t, idx) ∈ dupl -> i ∉ idx) ->
               res !! i = quaternions !! i) /\
    (forall t idx i, (t, idx) ∈ dupl -> i ∈ idx ->
       res !! i = Some (average_quaternions (pick quaternion quaternions idx))).
Proof.
  revert quaternions.
  induction dupl as [|[k idx0] dupl IH]; intros quaternions Hlen Hnd Hpos.
  - exists quaternions. split; [reflexivity|]. split; [reflexivity|].
    split; [reflexivity|]. intros t idx i Hin. inversion Hin.
  - cbn [map fst] in Hnd. apply NoDup_cons in Hnd as [Hk Hnd].
    assert (Hidx0 : idx0 = positions k tags) by (apply Hpos; left).
    assert (Hrange : Forall (fun ig => (ig < length quaternions)%nat) idx0).
    { apply Forall_forall. intros i Hi. rewrite Hidx0 in Hi.
      apply elem_of_positions, lookup_lt_Some in Hi. lia. }
    destruct (assign_all_spec idx0
                (average_quaternions (pick quaternion quaternions idx0))
                quaternions Hrange)
      as (qs1 & Hrun1 & Hlen1 & Hin1 & Hout1).
    destruct (IH qs1) as (res & Hrun & Hlen' & Hout & Hin).
    { congruence. }
    { exact Hnd. }
    { intros t idx Ht. apply Hpos. right. exact Ht. }
    assert (Hdisj : forall t idx i, (t, idx) ∈ dupl -> i ∈ idx -> i ∉ idx0).
    { intros t idx i Ht Hi Hi0.
      rewrite (Hpos t idx) in Hi by (right; exact Ht).
      rewrite Hidx0 in Hi0. apply elem_of_positions in Hi, Hi0.
      assert (t = k) by congruence. subst t.
      apply Hk. apply (list_elem_of_fmap_2 fst _ _ Ht). }
    exists res. split; [|split; [congruence|split]].
    + simpl. unfold average_group. rewrite (pick_in_range _ _ Hrange).
      cbn [mbind res_bind]. rewrite Hrun1. exact Hrun.
    + intros i Hnone. rewrite Hout.
      * apply Hout1. apply (Hnone k idx0). left.
      * intros t idx Ht. apply (Hnone t idx). right. exact Ht.
    + intros t idx i Ht Hi. apply elem_of_cons in Ht as [[= -> ->]|Ht].
      * rewrite Hout; [apply Hin1, Hi|].
        intros t idx Ht Hi'. exact (Hdisj t idx i Ht Hi' Hi).
      * rewrite (Hin t idx i Ht Hi). do 2 f_equal.
        apply pick_ext. intros j Hj. apply Hout1. exact (Hdisj t idx j Ht Hj).
Qed.

Lemma remove_dups_length_le (l : list Z) : (length (remove_dups l) <= length l)%nat.
Proof.
  induction l as [|x l IH]; simpl; [lia|].
  destruct (decide_rel elem_of x l); simpl; lia.
Qed.

Lemma remove_dups_length_NoDup (l : list Z) :
  length (remove_dups l) = length l -> NoDup l.
Proof.
  induction l as [|x l IH]; simpl; [constructor|].
  pose proof (remove_dups_length_le l).
  destruct (decide_rel elem_of x l) as [Hin|Hnin]; simpl; intros Hlen; [lia|].
  apply NoDup_cons. split; [exact Hnin|]. apply IH. lia.
Qed.

Lemma positions_unique (t : Z) (tags : list Z) :
  NoDup tags -> (length (positions t tags) <= 1)%nat.
Proof.
  intros Hnd. pose proof (positions_NoDup t tags) as Hp.
  destruct (positions t tags) as [|i [|j rest]] eqn:Hpos; simpl; try lia.
  exfalso.
  assert (Hi : i ∈ positions t tags) by (rewrite Hpos; left).
  assert (Hj : j ∈ positions t tags) by (rewrite Hpos; right; left).
  apply elem_of_positions in Hi, Hj.
  pose proof (NoDup_lookup _ _ _ _ Hnd Hi Hj) as ->.
  apply NoDup_cons in Hp as [Hp _]. apply Hp. left.
Qed.

(** C9: with one quaternion per tag, [average_quaternions_by_tags] returns a
    list of the same length in which every position whose tag occurs at
    least twice holds the average of the original quaternions at the
    positions of that tag, and every position whose tag occurs once holds
    its original quaternion. *)
Theorem average_quaternions_by_tags_spec (quaternions : list quaternion)
  (tags : list Z) :
  length quaternions = length tags ->
  exists res,
    average_quaternions_by_tags quaternion average_quaternions quaternions tags
      = inr res /\
    length res = length quaternions /\
    forall i t,
      tags !! i = Some t ->
      ((2 <= length (positions t tags))%nat ->
       res !! i =
       Some (average_quaternions (pick quaternion quaternions (positions t tags)))) /\
      ((length (positions t tags) < 2)%nat -> res !! i = quaternions !! i).
Proof.
  intros Hlen. unfold average_quaternions_by_tags.
  destruct (Nat.eqb_spec (length (remove_dups tags)) (length tags)) as [Heq|Hne];
    simpl.
  - exists quaternions. split; [reflexivity|]. split; [reflexivity|].
    intros i t Hi. split; [|reflexivity].
    pose proof (positions_unique t tags (remove_dups_length_NoDup _ Heq)). lia.
  - destruct (get_duplicates_spec tags) as [Hnd Hdup].
    destruct (average_groups_spec tags (get_duplicates tags) quaternions Hlen Hnd)
      as (res & Hrun & Hlen' & Hout & Hin).
    { intros t idx Ht. apply Hdup in Ht as [-> _]. reflexivity. }
    exists res. split; [exact Hrun|]. split; [exact Hlen'|].
    intros i t Hi. split.
    + intros Htwice. apply (Hin t).
      * apply Hdup. split; [reflexivity|exact Htwice].
      * apply elem_of_positions, Hi.
    + intros Honce. apply Hout. intros t' idx Ht' Hi'.
      apply Hdup in Ht' as [-> Htwice].
      apply elem_of_positions in Hi'. assert (t' = t) by congruence. subst t'.
      lia.
Qed.

End QuaternionFacts.

Lemma average_quaternions_by_tags_spec_witness :
  exists res,
    average_quaternions_by_tags nat (fun group => list_sum group)
      [1; 2; 4]%nat [7; 8; 7]%Z = inr res /\
    length res = 3%nat /\
    forall i t,
      [7; 8; 7]%Z !! i = Some t ->
      ((2 <= length (positions t [7; 8; 7]%Z))%nat ->
       res !! i =
       Some (list_sum (pick nat [1; 2; 4]%nat (positions t [7; 8; 7]%Z)))) /\
      ((length (positions t [7; 8; 7]%Z) < 2)%nat ->
       res !! i = [1; 2; 4]%nat !! i).
Proof.
  apply (average_quaternions_by_tags_spec nat (fun group => list_sum group)
           [1; 2; 4]%nat [7; 8; 7]%Z).
  reflexivity.
Defined.

(** *** [find_XHn_groups] *)

Lemma matching_spec (seen_tags : list (list Z)) (row : list Z) :
  NoDup seen_tags ->
  (matching seen_tags row = [] /\ row ∉ seen_tags) \/
  exists j, matching seen_tags row = [j] /\ seen_tags !! j = Some row.
Proof.
  intros Hnd. unfold matching.
  destruct (indices_unique seen_tags row Hnd) as [Hnone|Hone]; [left|right; exact Hone].
  split; [exact Hnone|]. intros Hin.
  apply list_elem_of_lookup in Hin as [j Hj].
  assert (Hin : In j (List.filter (fun j => bool_decide (seen_tags !! j = Some row))
                        (seq 0 (length seen_tags)))).
  { apply filter_In. split.
    - apply in_seq. apply lookup_lt_Some in Hj. lia.
    - apply bool_decide_eq_true, Hj. }
  rewrite Hnone in Hin. destruct Hin.
Qed.







(** *** Aggregation *)

(** C8: the mean aggregation of the four-site table gives two rows, tag 0
    with asymmetry 0.1 and Vzz 10, tag 1 with asymmetry 0.3 and Vzz 5, and
    a multiplicity of 2 each, the multiplicity column being aggregated by
    ['count']. *)
Theorem aggregate_example :
  (lookup_column "multiplicity" <$> make_aggrules example_frame Mean) =
    inr (Some Count) /\
  exists df,
    aggregate example_frame Mean = inr df /\
    Forall (fun column => length (snd column) = 2%nat) df /\
    lookup_column "tags" df = Some [Num 0; Num 1] /\
    lookup_column "EFG_asymmetry" df = Some [Num (1 # 10); Num (3 # 10)] /\
    lookup_column "EFG_Vzz" df = Some [Num 10; Num 5] /\
    lookup_column "multiplicity" df = Some [Num 2; Num 2].
Proof.
  split; [vm_compute; reflexivity|].
  eexists. split; [vm_compute; reflexivity|].
  split; [repeat constructor|].
  repeat split.
Qed.

Lemma prefix_spec (x s : string) :
  String.prefix x s = true <-> exists post, s = x +:+ post.
Proof.
  revert s. induction x as [|a x IH]; intros s.
  - split; [intros _; exists s; reflexivity|]. intros _. destruct s; reflexivity.
  - destruct s as [|b s]; simpl.
    + split; [discriminate|]. intros [post Hpost]. discriminate.
    + destruct (ascii_dec a b) as [->|Hne]; simpl.
      * rewrite IH. split; intros [post Hpost]; exists post.
        -- rewrite EFGFacts.append_cons. f_equal. exact Hpost.
        -- rewrite EFGFacts.append_cons in Hpost. congruence.
      * split; [discriminate|]. intros [post Hpost].
        rewrite EFGFacts.append_cons in Hpost. congruence.
Qed.

Lemma py_in_spec (x s : string) :
  py_in x s = true <-> exists pre post, s = pre +:+ x +:+ post.
Proof.
  induction s as [|c s IH].
  - cbn [py_in]. rewrite orb_false_r, prefix_spec. split.
    + intros [post Hpost]. exists "", post. exact Hpost.
    + intros (pre & post & Hs). destruct pre; [exists post; exact Hs|discriminate].
  - cbn [py_in]. rewrite orb_true_iff, IH, prefix_spec. split.
    + intros [[post Hpost]|(pre & post & Hs)].
      * exists "", post. exact Hpost.
      * exists (String c pre), post. rewrite EFGFacts.append_cons. f_equal. exact Hs.
    + intros (pre & post & Hs). destruct pre as [|c' pre].
      * left. exists post. exact Hs.
      * right. rewrite EFGFacts.append_cons in Hs. injection Hs as _ Hs.
        exists pre, post. exact Hs.
Qed.

Lemma py_in_app_r (x s t : string) :
  py_in x s = true -> py_in x (s +:+ t) = true.
Proof.
  rewrite !py_in_spec. intros (pre & post & ->).
  exists pre, (post +:+ t). rewrite !EFGFacts.string_app_assoc. reflexivity.
Qed.

Lemma units_rename_none (colname : string) (units_dict : list (string * string)) :
  (forall key u, In (key, u) units_dict -> py_in key colname = false) ->
  units_rename colname units_dict = colname.
Proof.
  induction units_dict as [|[key u] rest IH]; intros Hnone; [reflexivity|].
  simpl. rewrite (Hnone key u) by (left; reflexivity).
  apply IH. intros k' u' Hin. apply (Hnone k' u'). right. exact Hin.
Qed.

Lemma units_rename_first (colname : string) (front back : list (string * string))
  (key u : string) :
  (forall k' u', In (k', u') front -> py_in k' colname = false) ->
  py_in key colname = true ->
  units_rename colname (front ++ (key, u) :: back) = colname +:+ "/" +:+ u.
Proof.
  induction front as [|[k' u'] front IH]; intros Hnone Hkey; simpl.
  - rewrite Hkey. reflexivity.
  - rewrite (Hnone k' u') by (left; reflexivity).
    apply IH; [|exact Hkey]. intros k'' u'' Hin. apply (Hnone k'' u''). right. exact Hin.
Qed.

Lemma units_rename_some (colname : string) (units_dict : list (string * string))
  (key u : string) :
  In (key, u) units_dict -> py_in key colname = true ->
  exists u', units_rename colname units_dict = colname +:+ "/" +:+ u'.
Proof.
  induction units_dict as [|[k' u'] rest IH]; intros Hin Hkey; [destruct Hin|].
  simpl. destruct (py_in k' colname) eqn:Hk'; [exists u'; reflexivity|].
  destruct Hin as [[= -> ->]|Hin]; [congruence|]. apply IH; assumption.
Qed.

(** X16: [units_rename] leaves a column name alone when no key of the
    dictionary occurs in it; otherwise it appends ["/"] and the unit of the
    first key, in dictionary order, that occurs in the name. It is not
    idempotent: a renamed name still holds the key, so that renaming it
    again appends a second unit. Every key of [UNITS] is itself renamed to
    its own unit (no earlier key of the table occurs in it). *)
Theorem units_rename_spec (colname : string) (units_dict : list (string * string)) :
  ((forall key u, In (key, u) units_dict -> py_in key colname = false) ->
   units_rename colname units_dict = colname) /\
  (forall front key u back,
      units_dict = front ++ (key, u) :: back ->
      (forall k' u', In (k', u') front -> py_in k' colname = false) ->
      py_in key colname = true ->
      units_rename colname units_dict = colname +:+ "/" +:+ u /\
      exists u',
        units_rename (units_rename colname units_dict) units_dict =
        (colname +:+ "/" +:+ u) +:+ "/" +:+ u') /\
  (forall u, In (colname, u) UNITS ->
             units_rename colname UNITS = colname +:+ "/" +:+ u).
Proof.
  split; [apply units_rename_none|]. split.
  - intros front key u back -> Hnone Hkey.
    rewrite (units_rename_first colname front back key u Hnone Hkey).
    split; [reflexivity|].
    apply (units_rename_some _ _ key u).
    + apply in_or_app. right. left. reflexivity.
    + apply py_in_app_r, Hkey.
  - intros u Hin. unfold UNITS in Hin. cbn [In] in Hin.
    repeat (destruct Hin as [[= <- <-]|Hin]; [reflexivity|]).
    destruct Hin.
Qed.

Lemma filter_sublist {A} (f : A -> bool) (l : list A) : sublist (List.filter f l) l.
Proof.
  induction l as [|x l IH]; simpl; [constructor|].
  destruct (f x); [apply sublist_skip|apply sublist_cons]; exact IH.
Qed.

Lemma py_in_empty (s : string) : py_in "" s = true.
Proof. apply py_in_spec. exists "", s. reflexivity. Qed.

(** X17: the names [get_matching_cols] returns are column names of the
    frame, in the order of the frame. An item of [lst] is reported by
    [get_missing_cols] exactly when it occurs in none of the returned
    names, and leaving the reported items out of [lst] does not change what
    [get_matching_cols] returns. An empty string in [lst] matches every
    column. *)
Theorem matching_and_missing_cols (df : frame) (lst : list string) :
  sublist (get_matching_cols df lst) (map fst df) /\
  (forall x, In x lst ->
     (In x (get_missing_cols df lst) <->
      forall col, In col (get_matching_cols df lst) -> py_in x col = false)) /\
  get_matching_cols df
    (List.filter (fun x => negb (existsb (String.eqb x) (get_missing_cols df lst))) lst)
  = get_matching_cols df lst /\
  (In "" lst -> get_matching_cols df lst = map fst df).
Proof.
  unfold get_matching_cols, get_missing_cols.
  split; [apply filter_sublist|]. split; [|split].
  - intros x Hx. rewrite filter_In, forallb_forall. split.
    + intros [_ Hnone] col Hcol. apply filter_In in Hcol as [Hcol _].
      apply negb_true_iff, Hnone, Hcol.
    + intros Hnone. split; [exact Hx|]. intros col Hcol.
      apply negb_true_iff.
      destruct (py_in x col) eqn:Hin; [|reflexivity].
      rewrite <- Hin. apply Hnone.
      apply filter_In. split; [exact Hcol|].
      apply existsb_exists. exists x. split; [exact Hx|exact Hin].
  - apply filter_ext_in. intros col Hcol.
    apply eq_true_iff_eq. rewrite !existsb_exists. split.
    + intros (x & Hx & Hin). apply filter_In in Hx as [Hx _]. eauto.
    + intros (x & Hx & Hin). exists x. split; [|exact Hin].
      apply filter_In. split; [exact Hx|].
      apply negb_true_iff. apply not_true_iff_false. intros Hmiss.
      apply existsb_exists in Hmiss as (y & Hy & Heq).
      apply String.eqb_eq in Heq. subst y.
      apply filter_In in Hy as [_ Hnone].
      rewrite forallb_forall in Hnone. specialize (Hnone col Hcol).
      rewrite Hin in Hnone. discriminate.
  - intros Hempty. apply forallb_filter_id. apply forallb_forall.
    intros col _. apply existsb_exists. exists "". split; [exact Hempty|].
    apply py_in_empty.
Qed.

Lemma filter_name_absent (df : frame) (c : string) :
  ~ In c (map fst df) -> List.filter (fun kv => String.eqb (fst kv) c) df = [].
Proof.
  induction df as [|[k v] df IH]; intros Hc; [reflexivity|].
  simpl in *. destruct (String.eqb_spec k c) as [->|_]; [tauto|].
  apply IH. tauto.
Qed.

Lemma filter_name_unique (df : frame) (c : string) (col : list cell) :
  List.NoDup (map fst df) -> In (c, col) df ->
  List.filter (fun kv => String.eqb (fst kv) c) df = [(c, col)].
Proof.
  induction df as [|[k v] df IH]; intros Hnd Hin; [destruct Hin|].
  cbn [map fst] in Hnd. inversion Hnd as [|? ? Hk Hnd']; subst.
  simpl. destruct Hin as [[= -> ->]|Hin].
  - rewrite String.eqb_refl, filter_name_absent by exact Hk. reflexivity.
  - destruct (String.eqb_spec k c) as [->|Hne].
    + exfalso. apply Hk. apply in_map_iff. exists (c, col). split; [reflexivity|exact Hin].
    + apply IH; assumption.
Qed.

Lemma df_getitem_sub (df sub : frame) :
  List.NoDup (map fst df) -> (forall kv, In kv sub -> In kv df) ->
  df_getitem df (map fst sub) = inr sub.
Proof.
  intros Hnd Hsub. unfold df_getitem.
  match goal with |- context [mapM ?g _] => set (f := g) end.
  assert (Hcols : mapM f (map fst sub) = inr (map (fun kv => [kv]) sub)).
  { induction sub as [|[c col] sub IH]; [reflexivity|].
    cbn [map fst]. rewrite mapM_res_cons. unfold f at 1.
    rewrite (filter_name_unique df c col Hnd) by (apply Hsub; left; reflexivity).
    rewrite IH by (intros kv Hkv; apply Hsub; right; exact Hkv). reflexivity. }
  rewrite Hcols. cbn [fmap res_fmap]. f_equal.
  clear. induction sub as [|kv sub IH]; [reflexivity|]. simpl. f_equal. exact IH.
Qed.

Lemma df_getitem_filter (df : frame) (f : string -> bool) :
  List.NoDup (map fst df) ->
  df_getitem df (List.filter f (map fst df)) =
  inr (List.filter (fun kv => f (fst kv)) df).
Proof.
  intros Hnd. rewrite filter_map_swap. apply df_getitem_sub; [exact Hnd|].
  intros kv Hkv. apply filter_In in Hkv. tauto.
Qed.

Lemma df_drop_filter (df : frame) (g : string -> bool) :
  df_drop df (List.filter g (map fst df)) =
  inr (List.filter (fun kv => negb (g (fst kv))) df).
Proof.
  unfold df_drop.
  assert (Hall : forallb (fun c => existsb (String.eqb c) (map fst df))
                         (List.filter g (map fst df)) = true).
  { apply forallb_forall. intros c Hc. apply filter_In in Hc as [Hc _].
    apply existsb_exists. exists c. split; [exact Hc|apply String.eqb_refl]. }
  rewrite Hall. f_equal. apply filter_ext_in. intros [k v] Hkv. cbn [fst].
  f_equal. apply eq_true_iff_eq. rewrite existsb_exists. split.
  - intros (y & Hy & Heq). apply String.eqb_eq in Heq. subst y.
    apply filter_In in Hy. tauto.
  - intros Hg. exists k. split; [|apply String.eqb_refl].
    apply filter_In. split; [|exact Hg].
    apply in_map_iff. exists (k, v). split; [reflexivity|exact Hkv].
Qed.

Lemma NoDup_names_filter (df : frame) (f : string * list cell -> bool) :
  List.NoDup (map fst df) -> List.NoDup (map fst (List.filter f df)).
Proof.
  induction df as [|kv df IH]; intros Hnd; [constructor|].
  cbn [map] in Hnd. inversion Hnd as [|? ? Hk Hnd']; subst.
  simpl. destruct (f kv); [|apply IH, Hnd'].
  cbn [map]. constructor; [|apply IH, Hnd'].
  intros Hin. apply Hk. apply in_map_iff in Hin as (kv' & Heq & Hin).
  apply filter_In in Hin as [Hin _]. apply in_map_iff. eauto.
Qed.

Lemma include_step (df : frame) (include : option (list string)) :
  List.NoDup (map fst df) ->
  exists df1 : frame,
    (match include with
     | Some ((_ :: _) as include) =>
         let specified_columns :=
           List.filter (fun c => negb (existsb (String.eqb c) essential_columns))
                       include in
         let columns_to_include := essential_columns ++ specified_columns in
         let columns_to_include := get_matching_cols df columns_to_include in
         df_getitem df columns_to_include
     | _ => inr df
     end : res frame) = inr df1 /\
    sublist df1 df /\
    forall name col,
      In (name, col) df1 <->
      In (name, col) df /\
      match include with
      | Some ((_ :: _) as inc) =>
          exists x, In x (essential_columns ++ inc) /\ py_in x name = true
      | _ => True
      end.
Proof.
  intros Hnd.
  destruct include as [[|i inc]|];
    [exists df; split; [reflexivity|]; split; [reflexivity|tauto]|
    |exists df; split; [reflexivity|]; split; [reflexivity|tauto]].
  cbv zeta. unfold get_matching_cols.
  eexists. split; [apply (df_getitem_filter df _ Hnd)|].
  split; [apply filter_sublist|].
  intros name col. rewrite filter_In. cbn [fst]. rewrite existsb_exists.
  split; intros [Hin (x & Hx & Hocc)]; (split; [exact Hin|]); exists x;
    (split; [|exact Hocc]); apply in_app_iff; apply in_app_iff in Hx.
  - destruct Hx as [Hx|Hx]; [left; exact Hx|right].
    apply filter_In in Hx. tauto.
  - destruct Hx as [Hx|Hx]; [left; exact Hx|].
    destruct (existsb (String.eqb x) essential_columns) eqn:Hess.
    + left. apply existsb_exists in Hess as (y & Hy & Heq).
      apply String.eqb_eq in Heq. subst y. exact Hy.
    + right. apply filter_In. rewrite Hess. tauto.
Qed.

Lemma exclude_step (df : frame) (exclude : option (list string)) :
  exists df' : frame,
    (match exclude with
     | Some ((_ :: _) as exclude) => df_drop df (get_matching_cols df exclude)
     | _ => inr df
     end : res frame) = inr df' /\
    sublist df' df /\
    forall name col,
      In (name, col) df' <->
      In (name, col) df /\
      ~ match exclude with
        | Some ((_ :: _) as exc) => exists x, In x exc /\ py_in x name = true
        | _ => False
        end.
Proof.
  destruct exclude as [[|e exc]|];
    [exists df; split; [reflexivity|]; split; [reflexivity|tauto]|
    |exists df; split; [reflexivity|]; split; [reflexivity|tauto]].
  unfold get_matching_cols.
  eexists. split; [apply (df_drop_filter df)|].
  split; [apply filter_sublist|].
  intros name col. rewrite filter_In. cbn [fst].
  rewrite negb_true_iff, <- not_true_iff_false, existsb_exists. tauto.
Qed.

(** X18: on a frame whose column names are pairwise distinct the column
    selection of [--include] and [--exclude] always returns (no [KeyError]).
    It keeps the columns of the frame, in the order of the frame, whose
    name holds an essential name or an included name as a substring (every
    column when nothing is included) and holds no excluded name as a
    substring. *)
Theorem select_columns_spec (df : frame) (include exclude : option (list string)) :
  List.NoDup (map fst df) ->
  exists df',
    select_columns df include exclude = inr df' /\
    sublist df' df /\
    forall name col,
      In (name, col) df' <->
      In (name, col) df /\
      match include with
      | Some ((_ :: _) as inc) =>
          exists x, In x (essential_columns ++ inc) /\ py_in x name = true
      | _ => True
      end /\
      ~ match exclude with
        | Some ((_ :: _) as exc) => exists x, In x exc /\ py_in x name = true
        | _ => False
        end.
Proof.
  intros Hnd.
  destruct (include_step df include Hnd) as (df1 & Hinc & Hsub1 & Hin1).
  destruct (exclude_step df1 exclude) as (df' & Hexc & Hsub' & Hin').
  exists df'. split; [|split].
  - unfold select_columns. cbv zeta in Hinc. rewrite Hinc. exact Hexc.
  - etransitivity; eassumption.
  - intros name col. rewrite Hin', Hin1. tauto.
Qed.

Lemma select_columns_spec_witness :
  exists df',
    select_columns example_frame (Some ["EFG"]) (Some ["Vzz"]) = inr df' /\
    map fst df' = ["labels"; "species"; "multiplicity"; "tags"; "file"; "EFG_asymmetry"].
Proof.
  destruct (select_columns_spec example_frame (Some ["EFG"]) (Some ["Vzz"]))
    as (df' & Hrun & _).
  { repeat constructor; simpl; intuition discriminate. }
  exists df'. split; [exact Hrun|].
  vm_compute in Hrun. injection Hrun as <-. reflexivity.
Defined.

Lemma list_remove_In (x c : string) (l : list string) :
  In c (list_remove x l) -> In c l.
Proof.
  induction l as [|y l IH]; simpl; [tauto|].
  destruct (String.eqb y x); simpl; tauto.
Qed.

Lemma list_remove_other (x c : string) (l : list string) :
  c <> x -> In c l -> In c (list_remove x l).
Proof.
  intros Hne. induction l as [|y l IH]; simpl; [tauto|].
  destruct (String.eqb_spec y x) as [->|Hy]; simpl; [|tauto].
  intros [Heq|Hin]; [congruence|exact Hin].
Qed.

Lemma list_remove_count (x n : string) (l : list string) :
  count_occ string_dec (list_remove x l) n =
  if string_dec x n then Nat.pred (count_occ string_dec l n)
  else count_occ string_dec l n.
Proof.
  induction l as [|y l IH]; simpl.
  - destruct (string_dec x n); reflexivity.
  - destruct (String.eqb_spec y x) as [->|Hy]; simpl; rewrite ?IH;
      destruct (string_dec x n) as [Hxn|Hxn];
      try destruct (string_dec y n) as [Hyn|Hyn];
      try reflexivity; congruence.
Qed.

Lemma existsb_eqb_In (x : string) (l : list string) :
  existsb (String.eqb x) l = true <-> In x l.
Proof.
  rewrite existsb_exists. split.
  - intros (y & Hy & Heq). apply String.eqb_eq in Heq. subst y. exact Hy.
  - intros Hin. exists x. split; [exact Hin|apply String.eqb_refl].
Qed.

Lemma replace_specials_spec (names : list string)
  (specials : list (string * list string)) (l : list string) :
  List.NoDup (map fst specials) ->
  (forall n, In n (map fst specials) -> In n names) ->
  (forall n cs c, In (n, cs) specials -> In c cs -> ~ In c names) ->
  let r := fold_left replace_special specials l in
  (forall c, In c r ->
     In c l \/ exists n cs, In (n, cs) specials /\ In n l /\ In c cs) /\
  (forall c, In c l -> ~ In c (map fst specials) -> In c r) /\
  (forall n cs c, In (n, cs) specials -> In n l -> In c cs -> In c r) /\
  (forall n, In n (map fst specials) ->
     (count_occ string_dec l n <= 1)%nat -> ~ In n r).
Proof.
  revert l. induction specials as [|[n0 cs0] rest IH]; intros l Hnd Hnames Havoid r.
  { subst r. simpl. split; [tauto|]. split; [tauto|].
    split; [intros n cs c []|intros n []]. }
  cbn [map fst] in Hnd. inversion Hnd as [|? ? Hn0 Hnd']; subst.
  set (l1 := replace_special l (n0, cs0)).
  assert (Hl1 : forall c, In c l1 -> In c l \/ (In n0 l /\ In c cs0)).
  { intros c. unfold l1, replace_special.
    destruct (existsb (String.eqb n0) l) eqn:Hex; [|tauto].
    apply existsb_eqb_In in Hex. rewrite in_app_iff.
    intros [Hc|Hc]; [left; eapply list_remove_In, Hc|right; tauto]. }
  assert (Hkeep : forall c, c <> n0 -> In c l -> In c l1).
  { intros c Hne Hc. unfold l1, replace_special.
    destruct (existsb (String.eqb n0) l); [|exact Hc].
    apply in_app_iff. left. apply list_remove_other; assumption. }
  destruct (IH l1 Hnd') as (IHa & IHb & IHc & IHd).
  { intros n Hn. apply Hnames. right. exact Hn. }
  { intros n cs c Hin. apply (Havoid n cs c). right. exact Hin. }
  change r with (fold_left replace_special rest l1).
  assert (Hspecial : forall c, In c names -> In c (fold_left replace_special rest l1) ->
                               In c l1).
  { intros c Hc Hr. destruct (IHa c Hr) as [Hin|(n & cs & Hn & _ & Hcs)]; [exact Hin|].
    exfalso. apply (Havoid n cs c); [right; exact Hn|exact Hcs|exact Hc]. }
  split; [|split; [|split]].
  - intros c Hc. destruct (IHa c Hc) as [Hin|(n & cs & Hn & Hnl & Hcs)].
    + destruct (Hl1 c Hin) as [Hin'|[Hn0l Hcs0]]; [left; exact Hin'|].
      right. exists n0, cs0. split; [left; reflexivity|tauto].
    + right. exists n, cs. split; [right; exact Hn|]. split; [|exact Hcs].
      destruct (Hl1 n Hnl) as [Hin'|[_ Hcs0]]; [exact Hin'|].
      exfalso. apply (Havoid n0 cs0 n); [left; reflexivity|exact Hcs0|].
      apply Hnames. right. apply in_map_iff. exists (n, cs). split; [reflexivity|exact Hn].
  - intros c Hc Hnot. cbn [map fst] in Hnot.
    apply IHb; [apply Hkeep; [|exact Hc]|]; intros Heq; apply Hnot; [left|right]; auto.
  - intros n cs c [[= -> ->]|Hn] Hnl Hcs.
    + apply IHb.
      * unfold l1, replace_special.
        apply existsb_eqb_In in Hnl. rewrite Hnl. apply in_app_iff. right. exact Hcs.
      * intros Hin. apply (Havoid n cs c); [left; reflexivity|exact Hcs|].
        apply Hnames. right. exact Hin.
    + apply (IHc n cs c Hn); [|exact Hcs]. apply Hkeep; [|exact Hnl].
      intros ->. apply Hn0. apply in_map_iff. exists (n0, cs). split; [reflexivity|exact Hn].
  - intros n Hn Hcount. cbn [map fst] in Hn.
    assert (Hcs0 : count_occ string_dec cs0 n = 0%nat).
    { apply count_occ_not_In. intros Hin.
      apply (Havoid n0 cs0 n); [left; reflexivity|exact Hin|].
      apply Hnames. exact Hn. }
    destruct Hn as [<-|Hn].
    + intros Hr. apply Hspecial in Hr; [|apply Hnames; left; reflexivity].
      revert Hr. unfold l1, replace_special.
      destruct (existsb (String.eqb n0) l) eqn:Hex.
      * apply (count_occ_not_In string_dec).
        rewrite count_occ_app, Hcs0, list_remove_count.
        destruct (string_dec n0 n0); [lia|congruence].
      * intros Hin. apply existsb_eqb_In in Hin. congruence.
    + apply IHd; [exact Hn|].
      unfold l1, replace_special. destruct (existsb (String.eqb n0) l); [|exact Hcount].
      rewrite count_occ_app, Hcs0, list_remove_count.
      destruct (string_dec n0 n); lia.
Qed.

Lemma fromkeys_In (l : list string) (c : string) : In c (fromkeys l) <-> In c l.
Proof.
  induction l as [|x l IH]; simpl; [tauto|].
  rewrite filter_In, IH, negb_true_iff.
  destruct (String.eqb_spec c x) as [->|Hne]; [tauto|].
  split; [tauto|]. intros [Heq|Hin]; [congruence|tauto].
Qed.

Lemma fromkeys_NoDup (l : list string) : List.NoDup (fromkeys l).
Proof.
  induction l as [|x l IH]; simpl; constructor.
  - rewrite filter_In, String.eqb_refl. simpl. intros [_ [=]].
  - apply List.NoDup_filter, IH.
Qed.

Section CallbackFacts.

Variable strip : string -> string.

(** X19: [get_column_list] returns a list without repetitions. Every name
    it returns was given (after stripping) or belongs to the expansion of
    a special name that was given; every given name that is not special is
    returned, and so is the whole expansion of every given special name. A
    special name that was given at most once is not returned (only its
    first occurrence is removed before the expansion is appended). *)
Theorem get_column_list_spec (value : string) (cols : list string) :
  get_column_list strip (Some value) = Some cols ->
  let given := map strip (split_on "," value) in
  List.NoDup cols /\
  (forall c, In c cols ->
     In c given \/
     exists name special_cols,
       In (name, special_cols) special_names /\ In name given /\ In c special_cols) /\
  (forall c, In c given -> ~ In c (map fst special_names) -> In c cols) /\
  (forall name special_cols c,
     In (name, special_cols) special_names -> In name given -> In c special_cols ->
     In c cols) /\
  (forall name, In name (map fst special_names) ->
     (count_occ string_dec given name <= 1)%nat -> ~ In name cols).
Proof.
  unfold get_column_list. destruct (String.eqb value ""); [discriminate|].
  cbv zeta.
  destruct (replace_specials_spec (map fst special_names) special_names
              (map strip (split_on "," value))) as (Ha & Hb & Hc & Hd).
  { vm_compute. repeat constructor; simpl; intuition discriminate. }
  { tauto. }
  { intros n cs c Hn Hc. unfold special_names in Hn. cbv zeta in Hn. cbn [In app] in Hn.
    repeat (destruct Hn as [[= <- <-]|Hn];
            [cbn [In] in Hc; cbn [In map fst special_names];
             intuition (subst; discriminate)|]).
    destruct Hn. }
  revert Ha Hb Hc Hd.
  generalize (fold_left replace_special special_names (map strip (split_on "," value))).
  intros r Ha Hb Hc Hd [= <-].
  split; [apply fromkeys_NoDup|].
  split; [intros c Hin; apply Ha, fromkeys_In, Hin|].
  split; [intros c Hin Hns; apply fromkeys_In, Hb; assumption|].
  split; [intros n cs c Hn Hg Hc'; apply fromkeys_In; eapply Hc; eassumption|].
  intros n Hn Hcount Hin. apply (Hd n Hn Hcount). apply (proj1 (fromkeys_In _ _) Hin).
Qed.

End CallbackFacts.

Lemma get_column_list_spec_witness :
  get_column_list (fun c => c) (Some "EFG_angles,tags,EFG_angles") =
    Some ["tags"; "EFG_angles"; "EFG_alpha"; "EFG_beta"; "EFG_gamma"] /\
  List.NoDup ["tags"; "EFG_angles"; "EFG_alpha"; "EFG_beta"; "EFG_gamma"].
Proof.
  split; [reflexivity|].
  exact (proj1 (get_column_list_spec (fun c => c) "EFG_angles,tags,EFG_angles"
                  ["tags"; "EFG_angles"; "EFG_alpha"; "EFG_beta"; "EFG_gamma"]
                  eq_refl)).
Defined.

Lemma fold_insert_list_to_map {V} (pairs : list (string * V)) :
  fold_left (fun (d : gmap string V) kv => <[kv.1 := kv.2]> d) pairs ∅ =
  list_to_map (rev pairs).
Proof.
  rewrite <- fold_left_rev_right.
  induction (rev pairs) as [|[k v] l IH]; [reflexivity|].
  simpl. rewrite IH. reflexivity.
Qed.

Lemma list_to_map_app_fresh {V} (l1 l2 : list (string * V)) (k : string) :
  ~ In k (map fst l1) ->
  (list_to_map (l1 ++ l2) : gmap string V) !! k = (list_to_map l2 : gmap string V) !! k.
Proof.
  induction l1 as [|[k' v'] l1 IH]; intros Hk; [reflexivity|].
  simpl in *. rewrite lookup_insert_ne by tauto. apply IH. tauto.
Qed.

(** In [list_to_map (rev pairs)] the last pair of a key decides. *)
Lemma last_pair_wins {V} (front back : list (string * V)) (k : string) (v : V) :
  ~ In k (map fst back) ->
  (list_to_map (rev (front ++ (k, v) :: back)) : gmap string V) !! k = Some v.
Proof.
  intros Hk. rewrite rev_app_distr. cbn [rev]. rewrite <- app_assoc.
  rewrite list_to_map_app_fresh.
  - simpl. apply lookup_insert_eq.
  - rewrite map_rev, <- in_rev. exact Hk.
Qed.

Section ParserFacts.

Variable py_float : string -> res R.
Variable isotope : Type.
Variable _el_iso : string -> res (string * isotope).

Lemma isotope_loop_fold (syms : list string) (d : gmap string isotope) :
  isotope_loop isotope _el_iso syms d =
  (pairs ← mapM _el_iso syms;
   inr (fold_left (fun (d : gmap string isotope) kv => <[kv.1 := kv.2]> d) pairs d)).
Proof.
  revert d. induction syms as [|sym syms IH]; intros d; [reflexivity|].
  cbn [isotope_loop]. rewrite mapM_res_cons.
  destruct (_el_iso sym) as [e|[el iso]]; [reflexivity|].
  cbn [mbind res_bind]. rewrite IH.
  destruct (mapM _el_iso syms); reflexivity.
Qed.

Lemma mapM_res_first_error {A B} (f : A -> res B) (front back : list A) (a : A)
  (bs : list B) (e : exn) :
  mapM f front = inr bs -> f a = inl e -> mapM f (front ++ a :: back) = inl e.
Proof.
  revert bs. induction front as [|x front IH]; intros bs Hfront Ha.
  - simpl app. rewrite mapM_res_cons, Ha. reflexivity.
  - simpl app. rewrite mapM_res_cons in *.
    destruct (f x); [discriminate|].
    destruct (mapM f front) as [e'|bs'] eqn:Hm; [discriminate|].
    rewrite (IH bs' eq_refl Ha). reflexivity.
Qed.

(** X20: [isotope_selection] returns the empty dictionary for the empty
    string. For any other string, when [_el_iso] accepts every
    comma-separated item, the result maps each element to the isotope of
    the last item that names it; when [_el_iso] rejects an item (and
    accepts those before it), the call raises the error of that item. *)
Theorem isotope_selection_spec (isotope_string : string) :
  isotope_string <> "" ->
  (forall parsed,
      mapM _el_iso (split_on "," isotope_string) = inr parsed ->
      isotope_selection isotope _el_iso isotope_string = inr (list_to_map (rev parsed)) /\
      forall front el iso back,
        parsed = front ++ (el, iso) :: back -> ~ In el (map fst back) ->
        (list_to_map (rev parsed) : gmap string isotope) !! el = Some iso) /\
  (forall front sym back parsed e,
      split_on "," isotope_string = front ++ sym :: back ->
      mapM _el_iso front = inr parsed -> _el_iso sym = inl e ->
      isotope_selection isotope _el_iso isotope_string = inl e) /\
  isotope_selection isotope _el_iso "" = inr ∅.
Proof.
  intros Hne. unfold isotope_selection.
  destruct (String.eqb_spec isotope_string "") as [->|_]; [contradiction|].
  split; [|split; [|reflexivity]].
  - intros parsed Hparsed. split.
    + rewrite isotope_loop_fold, Hparsed. cbn [mbind res_bind].
      rewrite fold_insert_list_to_map. reflexivity.
    + intros front el iso back -> Hlast. apply last_pair_wins, Hlast.
  - intros front sym back parsed e Hsplit Hfront Hsym.
    rewrite isotope_loop_fold, Hsplit.
    rewrite (mapM_res_first_error _ _ _ _ _ _ Hfront Hsym). reflexivity.
Qed.

Lemma keyvalue_loop_fold (syms : list string) (d : gmap string R) :
  keyvalue_loop py_float syms d =
  (pairs ← mapM (keyvalue_item py_float) syms;
   inr (fold_left (fun (d : gmap string R) kv => <[kv.1 := kv.2]> d) pairs d)).
Proof.
  revert d. induction syms as [|sym syms IH]; intros d; [reflexivity|].
  cbn [keyvalue_loop]. rewrite mapM_res_cons.
  destruct (keyvalue_item py_float sym) as [e|[el x]]; [reflexivity|].
  cbn [mbind res_bind]. rewrite IH.
  destruct (mapM (keyvalue_item py_float) syms); reflexivity.
Qed.

Lemma keyvalue_item_error (sym : string) (e : exn) :
  (forall s e, py_float s = inl e -> exists msg, e = ValueError msg) ->
  keyvalue_item py_float sym = inl e -> exists msg, e = ValueError msg.
Proof.
  intros Hfloat. unfold keyvalue_item.
  destruct (split_any _ sym) as [|el [|reference [|x rest]]];
    try (intros [= <-]; eexists; reflexivity).
  destruct (py_float reference) as [e'|x] eqn:Hx; [|discriminate].
  cbn [mbind res_bind]. intros [= <-]. eapply Hfloat, Hx.
Qed.

Lemma mapM_res_error {A B} (f : A -> res B) (l : list A) (e : exn) :
  mapM f l = inl e -> exists a, In a l /\ f a = inl e.
Proof.
  induction l as [|a l IH]; [discriminate|].
  rewrite mapM_res_cons. destruct (f a) as [e'|b] eqn:Ha.
  - intros [= ->]. exists a. split; [left; reflexivity|exact Ha].
  - destruct (mapM f l) as [e'|bs]; [|discriminate].
    intros [= ->]. destruct (IH eq_refl) as (a' & Hin & Ha').
    exists a'. split; [right; exact Hin|exact Ha'].
Qed.

(** X21: given that [float] raises nothing but [ValueError] on a string,
    [keyvalue_parser] raises nothing but [ValueError]. A value that
    [float] accepts is returned as that float. Otherwise the empty string
    gives the empty dictionary, and a string all of whose comma-separated
    items are of the form [key:float] or [key=float] gives the dictionary
    in which the last item of a key decides. *)
Theorem keyvalue_parser_spec (value : string) :
  (forall s e, py_float s = inl e -> exists msg, e = ValueError msg) ->
  (forall e, keyvalue_parser py_float value = inl e -> exists msg, e = ValueError msg) /\
  (forall x, py_float value = inr x -> keyvalue_parser py_float value = inr (Float x)) /\
  (forall e, py_float value = inl e ->
     (value = "" -> keyvalue_parser py_float value = inr (Dict ∅)) /\
     (forall pairs,
        value <> "" ->
        mapM (keyvalue_item py_float) (split_on "," value) = inr pairs ->
        keyvalue_parser py_float value = inr (Dict (list_to_map (rev pairs))) /\
        forall front el x back,
          pairs = front ++ (el, x) :: back -> ~ In el (map fst back) ->
          (list_to_map (rev pairs) : gmap string R) !! el = Some x)).
Proof.
  intros Hfloat. unfold keyvalue_parser. split; [|split].
  - intros e. destruct (py_float value) as [e'|x] eqn:Hv; [|discriminate].
    destruct (Hfloat _ _ Hv) as [msg ->].
    destruct (String.eqb value ""); [discriminate|].
    rewrite keyvalue_loop_fold.
    destruct (mapM (keyvalue_item py_float) (split_on "," value)) as [e'|pairs] eqn:Hm;
      [|discriminate].
    cbn [mbind res_bind fmap res_fmap]. intros [= <-].
    apply mapM_res_error in Hm as (sym & _ & Hsym).
    eapply keyvalue_item_error; eassumption.
  - intros x ->. reflexivity.
  - intros e Hv. rewrite Hv. destruct (Hfloat _ _ Hv) as [msg ->]. split.
    + intros ->. reflexivity.
    + intros pairs Hne Hpairs.
      destruct (String.eqb_spec value "") as [->|_]; [contradiction|].
      split.
      * rewrite keyvalue_loop_fold, Hpairs. cbn [mbind res_bind fmap res_fmap].
        rewrite fold_insert_list_to_map. reflexivity.
      * intros front el x back -> Hlast. apply last_pair_wins, Hlast.
Qed.

End ParserFacts.

Lemma isotope_selection_spec_witness :
  isotope_selection nat example_el_iso "2H,13C,1H" =
    inr (list_to_map (rev [("H", 2%nat); ("C", 13%nat); ("H", 1%nat)])) /\
  (list_to_map (rev [("H", 2%nat); ("C", 13%nat); ("H", 1%nat)]) : gmap string nat)
    !! "H" = Some 1%nat /\
  isotope_selection nat example_el_iso "2H,x" = inl (ValueError "Invalid isotope symbol").
Proof.
  destruct (isotope_selection_spec nat example_el_iso "2H,13C,1H" ltac:(discriminate))
    as (Hok & _ & _).
  destruct (Hok [("H", 2%nat); ("C", 13%nat); ("H", 1%nat)] eq_refl) as [Hrun Hlast].
  split; [exact Hrun|]. split.
  - apply (Hlast [("H", 2%nat); ("C", 13%nat)] "H" 1%nat [] eq_refl). simpl. tauto.
  - destruct (isotope_selection_spec nat example_el_iso "2H,x" ltac:(discriminate))
      as (_ & Herr & _).
    apply (Herr ["2H"] "x" [] [("H", 2%nat)] _ eq_refl eq_refl eq_refl).
Defined.

Lemma example_float_errors (s : string) (e : exn) :
  example_float s = inl e -> exists msg, e = ValueError msg.
Proof.
  unfold example_float. repeat destruct (String.eqb s _); try discriminate.
  intros [= <-]. eexists. reflexivity.
Qed.

Lemma keyvalue_parser_spec_witness :
  keyvalue_parser example_float "100" = inr (Float 100%R) /\
  keyvalue_parser example_float "C:100,H=30.5" =
    inr (Dict (list_to_map (rev [("C", 100%R); ("H", (305 / 10)%R)]))) /\
  exists msg, keyvalue_parser example_float "C:100,H" = inl (ValueError msg).
Proof.
  split; [|split].
  - apply (keyvalue_parser_spec example_float "100" example_float_errors). reflexivity.
  - destruct (keyvalue_parser_spec example_float "C:100,H=30.5" example_float_errors)
      as (_ & _ & Hdict).
    destruct (Hdict _ eq_refl) as [_ Hpairs].
    apply (Hpairs [("C", 100%R); ("H", (305 / 10)%R)]); [discriminate|reflexivity].
  - destruct (keyvalue_parser_spec example_float "C:100,H" example_float_errors)
      as (Herr & _).
    destruct (Herr (ValueError "not enough values to unpack (expected 2, got 1)") eq_refl)
      as [msg Hmsg].
    exists msg. rewrite <- Hmsg. reflexivity.
Defined.

Lemma insert_sorted_Permutation {A} (leb : A -> A -> bool) (x : A) (l : list A) :
  Permutation (insert_sorted leb x l) (x :: l).
Proof.
  induction l as [|y l IH]; simpl; [reflexivity|].
  destruct (leb x y); [reflexivity|].
  rewrite IH. apply perm_swap.
Qed.

Lemma sorted_Permutation {A} (leb : A -> A -> bool) (l : list A) :
  Permutation (sorted leb l) l.
Proof.
  induction l as [|x l IH]; simpl; [reflexivity|].
  rewrite insert_sorted_Permutation, IH. reflexivity.
Qed.

Lemma insert_sorted_Sorted {A} (leb : A -> A -> bool) (x : A) (l : list A) :
  (forall a b, leb a b = true \/ leb b a = true) ->
  Sorted (fun a b => leb a b = true) l ->
  Sorted (fun a b => leb a b = true) (insert_sorted leb x l).
Proof.
  intros Htotal. induction l as [|y l IH]; intros Hsorted; simpl.
  - repeat constructor.
  - destruct (leb x y) eqn:Hxy.
    + constructor; [exact Hsorted|constructor; exact Hxy].
    + apply Sorted_inv in Hsorted as [Hl Hhd].
      constructor; [apply IH, Hl|].
      destruct l as [|z l]; simpl.
      * constructor. destruct (Htotal x y); congruence.
      * destruct (leb x z); constructor.
        -- destruct (Htotal x y); congruence.
        -- inversion Hhd; assumption.
Qed.

Lemma sorted_Sorted {A} (leb : A -> A -> bool) (l : list A) :
  (forall a b, leb a b = true \/ leb b a = true) ->
  Sorted (fun a b => leb a b = true) (sorted leb l).
Proof.
  intros Htotal. induction l as [|x l IH]; simpl; [constructor|].
  apply insert_sorted_Sorted; assumption.
Qed.

Lemma transition_keys_In (nqrs : list (gmap string R)) (k : string) :
  In k (transition_keys nqrs) <-> exists nqr, In nqr nqrs /\ is_Some (nqr !! k).
Proof.
  unfold transition_keys.
  rewrite <- list_elem_of_In, (sorted_Permutation String.leb), elem_of_remove_dups.
  rewrite list_elem_of_In, in_concat. split.
  - intros (keys & Hkeys & Hk). apply in_map_iff in Hkeys as (nqr & <- & Hnqr).
    apply in_map_iff in Hk as ([k' fq] & <- & Hkv).
    exists nqr. split; [exact Hnqr|]. exists fq.
    apply elem_of_map_to_list, list_elem_of_In, Hkv.
  - intros (nqr & Hnqr & fq & Hfq). exists (map fst (map_to_list nqr)).
    split; [apply (in_map (fun nqr => map fst (map_to_list nqr))), Hnqr|].
    apply in_map_iff. exists (k, fq). split; [reflexivity|].
    apply list_elem_of_In, elem_of_map_to_list, Hfq.
Qed.

(** X22: the NQR part of the summary has one column for every transition
    key that some atom has, and no other: the headers are ["EFG_NQR "]
    followed by the key, without repetition, in increasing order of the
    keys. Every column has one entry per atom: the frequency of the atom
    for the key times [1e-6] where the atom has the transition, [nan]
    where it has not. *)
Theorem nqr_dict_spec (nqrs : list (gmap string R)) :
  map fst (nqr_dict nqrs) = map (fun k => "EFG_NQR " +:+ k) (transition_keys nqrs) /\
  List.NoDup (transition_keys nqrs) /\
  Sorted (fun k1 k2 => String.leb k1 k2 = true) (transition_keys nqrs) /\
  (forall k, In k (transition_keys nqrs) <->
             exists nqr, In nqr nqrs /\ is_Some (nqr !! k)) /\
  (forall header values, In (header, values) (nqr_dict nqrs) ->
     exists k,
       header = "EFG_NQR " +:+ k /\
       length values = length nqrs /\
       forall i nqr, nqrs !! i = Some nqr ->
         values !! i = Some (match nqr !! k with
                             | Some fq => Some (fq * 1e-6)%R
                             | None => None
                             end)).
Proof.
  split; [|split; [|split; [|split]]].
  - unfold nqr_dict. rewrite map_map. reflexivity.
  - unfold transition_keys. apply NoDup_ListNoDup.
    rewrite (sorted_Permutation String.leb). apply NoDup_remove_dups.
  - apply sorted_Sorted, String.leb_total.
  - apply transition_keys_In.
  - intros header values Hin. unfold nqr_dict in Hin.
    apply in_map_iff in Hin as (k & [= <- <-] & _).
    exists k. split; [reflexivity|]. unfold nqr_values.
    split; [apply length_map|].
    intros i nqr Hi. rewrite list_lookup_fmap, Hi. reflexivity.
Qed.

(** *** [find_XHn_groups] returns *)

Lemma filter_positions_length {A} (p : A -> bool) (l : list A) :
  length (List.filter (fun k => match l !! k with
                                | Some x => p x
                                | None => false
                                end) (seq 0 (length l))) =
  length (List.filter p l).
Proof.
  induction l as [|x l IH] using rev_ind; [reflexivity|].
  rewrite length_app, Nat.add_1_r, seq_S, !List.filter_app, !length_app. simpl.
  rewrite lookup_app_r, Nat.sub_diag by lia. simpl. f_equal.
  - rewrite <- IH. f_equal. apply filter_ext_in. intros k Hk. apply in_seq in Hk.
    rewrite lookup_app_l by lia. reflexivity.
  - destruct (p x); reflexivity.
Qed.

Lemma Zsum_bonds (row : nat -> Z) (hinds : list nat) :
  (forall h, row h = 0%Z \/ row h = 1%Z) ->
  Zsum (map row hinds) =
  Z.of_nat (length (List.filter (fun h => (row h =? 1)%Z) hinds)).
Proof.
  intros Hbits. induction hinds as [|h hinds IH]; [reflexivity|].
  simpl. rewrite IH. destruct (Hbits h) as [-> | ->]; simpl; lia.
Qed.

Lemma mapM_py_index {A} (l : list A) (idx : list nat) :
  Forall (fun k => (k < length l)%nat) idx ->
  exists row, mapM (py_index l) idx = inr row.
Proof.
  induction idx as [|k idx IH]; intros Hlt; [eexists; reflexivity|].
  apply Forall_cons in Hlt as [Hk Hlt]. destruct (IH Hlt) as [row Hrow].
  rewrite mapM_res_cons, Hrow. unfold py_index.
  destruct (lookup_lt_is_Some_2 l k Hk) as [x ->]. eexists. reflexivity.
Qed.

Section Groups.

Variable bmat : nat -> nat -> Z.
Variable hinds : list nat.
Variable tags : list Z.
Variable group_pattern : string.
Variable n : Z.


Lemma well_formed_mono (xs ys : list nat) (group : list nat) :
  (forall x, In x xs -> In x ys) ->
  well_formed bmat hinds n xs group -> well_formed bmat hinds n ys group.
Proof.
  intros Hsub [Hmem Hdiv]. split; [|exact Hdiv].
  eapply Forall_impl; [exact Hmem|].
  intros k (h & xind & Hh & Hx & Hb). exists h, xind. auto.
Qed.

Lemma visit_returns (xind : nat) (xs : list nat)
  (seen_tags : list (list Z)) (groups : list (list nat)) :
  (length hinds <= length tags)%nat ->
  Z.of_nat (length (List.filter (fun h => (bmat xind h =? 1)%Z) hinds)) = n ->
  NoDup seen_tags -> length seen_tags = length groups ->
  Forall (well_formed bmat hinds n xs) groups ->
  exists seen_tags' groups',
    visit bmat hinds tags group_pattern n xind (seen_tags, groups) =
      inr (seen_tags', groups') /\
    NoDup seen_tags' /\ length seen_tags' = length groups' /\
    Forall (well_formed bmat hinds n (xind :: xs)) groups' /\
    (length groups' <= S (length groups))%nat.
Proof.
  intros Htags Hn Hnd Hlen Hgroups. unfold visit.
  set (group := List.filter _ (seq 0 (length hinds))).
  assert (Hcount : Z.of_nat (length group) = n).
  { unfold group. rewrite (filter_positions_length (fun h => (bmat xind h =? 1)%Z)).
    exact Hn. }
  assert (Hgroup : well_formed bmat hinds n (xind :: xs) group).
  { split; [|rewrite Hcount; reflexivity].
    apply Forall_forall. intros k Hk. apply list_elem_of_In, filter_In in Hk as [_ Hk].
    destruct (hinds !! k) as [h|]; [|discriminate].
    exists h, xind. split; [reflexivity|]. split; [left; reflexivity|].
    apply Z.eqb_eq, Hk. }
  assert (Hold : Forall (well_formed bmat hinds n (xind :: xs)) groups).
  { eapply Forall_impl; [exact Hgroups|]. intros g. apply well_formed_mono.
    intros x Hx. right. exact Hx. }
  rewrite Hcount, Z.eqb_refl. cbn [negb].
  destruct (mapM_py_index tags group) as [row Hrow].
  { apply Forall_forall. intros k Hk. apply list_elem_of_In, filter_In in Hk as [Hk _].
    apply in_seq in Hk. lia. }
  rewrite Hrow. cbn [mbind res_bind].
  destruct (Nat.ltb_spec 0 (length seen_tags)) as [Hpos|Hzero].
  - destruct (matching_spec seen_tags row Hnd) as [[-> Hfresh]|(j & -> & Hj)].
    + exists (seen_tags ++ [row]), (groups ++ [group]).
      split; [reflexivity|]. split; [|split; [|split]].
      * apply NoDup_app. split; [exact Hnd|]. split; [|apply NoDup_singleton].
        intros r Hr Hr'. apply list_elem_of_singleton in Hr'. congruence.
      * rewrite !length_app. simpl. lia.
      * apply Forall_app. split; [exact Hold|]. constructor; [exact Hgroup|constructor].
      * rewrite length_app. simpl. lia.
    + destruct (lookup_lt_is_Some_2 groups j) as [g Hg].
      { apply lookup_lt_Some in Hj. lia. }
      unfold py_index. rewrite Hg. cbn [mbind res_bind].
      exists seen_tags, (<[j := g ++ group]> groups).
      split; [reflexivity|]. split; [exact Hnd|].
      split; [rewrite length_insert; exact Hlen|]. split.
      * apply Forall_insert; [exact Hold|].
        pose proof (Forall_lookup_1 _ _ _ _ Hold Hg) as [Hmem Hdiv].
        destruct Hgroup as [Hmem' Hdiv']. split.
        -- apply Forall_app. split; assumption.
        -- rewrite length_app, Nat2Z.inj_add. apply Z.divide_add_r; assumption.
      * rewrite length_insert. lia.
  - destruct seen_tags as [|r seen_tags]; [|simpl in Hzero; lia].
    destruct groups as [|g groups]; [|discriminate].
    exists [row], [group]. split; [reflexivity|].
    split; [apply NoDup_singleton|]. split; [reflexivity|].
    split; [constructor; [exact Hgroup|constructor]|simpl; lia].
Qed.

Lemma visit_all_returns (xinds xs : list nat)
  (seen_tags : list (list Z)) (groups : list (list nat)) :
  (length hinds <= length tags)%nat ->
  Forall (fun xind =>
            Z.of_nat (length (List.filter (fun h => (bmat xind h =? 1)%Z) hinds)) = n)
         xinds ->
  NoDup seen_tags -> length seen_tags = length groups ->
  Forall (well_formed bmat hinds n xs) groups ->
  exists seen_tags' groups',
    visit_all bmat hinds tags group_pattern n xinds (seen_tags, groups) =
      inr (seen_tags', groups') /\
    Forall (well_formed bmat hinds n (xinds ++ xs)) groups' /\
    (length groups' <= length xinds + length groups)%nat.
Proof.
  intros Htags. revert xs seen_tags groups.
  induction xinds as [|xind xinds IH]; intros xs seen_tags groups Hn Hnd Hlen Hgroups.
  - exists seen_tags, groups. split; [reflexivity|]. split; [exact Hgroups|simpl; lia].
  - apply Forall_cons in Hn as [Hxind Hn].
    destruct (visit_returns xind xs seen_tags groups Htags Hxind Hnd Hlen Hgroups)
      as (seen1 & groups1 & Hstep & Hnd1 & Hlen1 & Hgroups1 & Hcount1).
    destruct (IH (xind :: xs) seen1 groups1 Hn Hnd1 Hlen1 Hgroups1)
      as (seen2 & groups2 & Hrest & Hgroups2 & Hcount2).
    exists seen2, groups2. split; [|split].
    + cbn [visit_all]. rewrite Hstep. exact Hrest.
    + eapply Forall_impl; [exact Hgroups2|]. intros g. apply well_formed_mono.
      intros x Hx. apply in_app_iff in Hx. simpl. rewrite in_app_iff. simpl in Hx. tauto.
    + simpl. lia.
Qed.

End Groups.

Lemma where_symbol_length (symbs : list string) (X : string) :
  (length (where_symbol symbs X) <= length symbs)%nat.
Proof.
  unfold where_symbol.
  etransitivity; [apply List.filter_length_le|]. rewrite length_seq. reflexivity.
Qed.

Lemma where_symbol_In (symbs : list string) (X : string) (i : nat) :
  In i (where_symbol symbs X) <-> symbs !! i = Some X.
Proof.
  unfold where_symbol. rewrite filter_In, in_seq, bool_decide_eq_true.
  split; [tauto|]. intros Hi. split; [|exact Hi].
  apply lookup_lt_Some in Hi. lia.
Qed.

(** The groups of one pattern: the loop returns whenever the bond matrix
    holds zeros and ones and there is a tag for every hydrogen. *)
Lemma groups_of_pattern_returns (bmat : nat -> nat -> Z) (symbs : list string)
  (tags : list Z) (group_pattern X : string) (n : Z) :
  (forall i j, bmat i j = 0%Z \/ bmat i j = 1%Z) ->
  (length (where_symbol symbs "H") <= length tags)%nat ->
  exists groups,
    groups_of_pattern bmat symbs tags group_pattern X n = inr groups /\
    Forall (fun group =>
              (n | Z.of_nat (length group))%Z /\
              Forall (fun k => exists h xind,
                                 where_symbol symbs "H" !! k = Some h /\
                                 symbs !! h = Some "H" /\
                                 symbs !! xind = Some X /\
                                 bmat xind h = 1%Z) group) groups.
Proof.
  intros Hbits Htags. unfold groups_of_pattern.
  set (hinds := where_symbol symbs "H").
  set (xinds := select_xinds bmat symbs hinds X n).
  destruct (visit_all_returns bmat hinds tags group_pattern n xinds [] [] [])
    as (seen & groups & Hrun & Hgroups & _).
  - exact Htags.
  - apply Forall_forall. intros xind Hx.
    apply list_elem_of_In, filter_In in Hx as [_ Hsum].
    apply Z.eqb_eq in Hsum. rewrite <- Hsum. symmetry.
    apply Zsum_bonds. apply Hbits.
  - constructor.
  - reflexivity.
  - constructor.
  - exists groups. rewrite Hrun. split; [reflexivity|].
    eapply Forall_impl; [exact Hgroups|].
    intros group [Hmem Hdiv]. split; [exact Hdiv|].
    eapply Forall_impl; [exact Hmem|].
    intros k (h & xind & Hh & Hx & Hb). exists h, xind.
    split; [exact Hh|]. split; [|split; [|exact Hb]].
    + apply where_symbol_In. apply list_elem_of_In. eapply list_elem_of_lookup_2, Hh.
    + rewrite app_nil_r in Hx. apply filter_In in Hx as [Hx _].
      apply where_symbol_In, Hx.
Qed.

(** X23: [find_XHn_groups] returns whenever every pattern parses, the bond
    matrix holds zeros and ones, and there is a tag for every hydrogen (as
    there is when no tags are passed). It returns one list of groups per
    pattern. The members of a group of pattern [XHn] are positions in the
    list of the hydrogen atoms (not atom indices): each is the position of
    a hydrogen bonded to an atom of element [X], and their number is a
    multiple of [n]. *)
Theorem find_XHn_groups_returns {atoms : Type}
  (get_chemical_symbols : atoms -> list string)
  (Bonds : R -> atoms -> nat -> nat -> Z) (py_int : string -> res Z)
  (a : atoms) (pattern_string : string) (tags : option (list Z)) (vdw_scale : R)
  (parsed : list (string * Z)) :
  (forall i j, Bonds vdw_scale a i j = 0%Z \/ Bonds vdw_scale a i j = 1%Z) ->
  match tags with
  | Some tags =>
      (length (where_symbol (get_chemical_symbols a) "H") <= length tags)%nat
  | None => True
  end ->
  mapM (parse_pattern py_int) (split_on "," pattern_string) = inr parsed ->
  exists all_groups,
    find_XHn_groups atoms get_chemical_symbols Bonds py_int a pattern_string tags
      vdw_scale = inr all_groups /\
    Forall2 (fun '(X, n) groups =>
               Forall (fun group =>
                         (n | Z.of_nat (length group))%Z /\
                         Forall (fun k => exists h xind,
                                   where_symbol (get_chemical_symbols a) "H" !! k = Some h /\
                                   get_chemical_symbols a !! h = Some "H" /\
                                   get_chemical_symbols a !! xind = Some X /\
                                   Bonds vdw_scale a xind h = 1%Z) group) groups)
            parsed all_groups.
Proof.
  intros Hbits Htags. unfold find_XHn_groups.
  set (symbs := get_chemical_symbols a).
  set (tags' := match tags with
                | Some tags => tags
                | None => map Z.of_nat (seq 0 (length symbs))
                end).
  assert (Htags' : (length (where_symbol symbs "H") <= length tags')%nat).
  { unfold tags'. destruct tags as [tags|]; [exact Htags|].
    rewrite length_map, length_seq. apply where_symbol_length. }
  revert parsed. generalize (split_on "," pattern_string). intros patterns.
  induction patterns as [|gp patterns IH]; intros parsed Hparsed.
  - injection Hparsed as <-. exists []. split; [reflexivity|constructor].
  - rewrite mapM_res_cons in Hparsed.
    destruct (parse_pattern py_int gp) as [e|[X n]] eqn:Hgp; [discriminate|].
    destruct (mapM (parse_pattern py_int) patterns) as [e|rest] eqn:Hrest; [discriminate|].
    injection Hparsed as <-.
    destruct (IH rest eq_refl) as (all_groups & Hrun & Hall).
    destruct (groups_of_pattern_returns (Bonds vdw_scale a) symbs tags' gp X n
                Hbits Htags') as (groups & Hgroups & Hgood).
    exists (groups :: all_groups). split.
    + rewrite mapM_res_cons, Hgp. cbn [mbind res_bind]. rewrite Hgroups, Hrun.
      reflexivity.
    + constructor; [exact Hgood|exact Hall].
Qed.

Lemma find_XHn_groups_returns_witness :
  exists all_groups,
    find_XHn_groups (list string) (fun a => a) (fun _ _ => example_bonds) example_int
      example_symbols "CH2,CH3" (Some example_tags) 1%R = inr all_groups /\
    length all_groups = 2%nat.
Proof.
  destruct (find_XHn_groups_returns (fun a : list string => a)
              (fun _ _ => example_bonds) example_int example_symbols "CH2,CH3"
              (Some example_tags) 1%R [("C", 2%Z); ("C", 3%Z)])
    as (all_groups & Hrun & Hall).
  - intros i j. unfold example_bonds. destruct (_ || _); [right|left]; reflexivity.
  - simpl. lia.
  - reflexivity.
  - exists all_groups. split; [exact Hrun|].
    apply Forall2_length in Hall. symmetry. exact Hall.
Defined.

(** *** [get_duplicates], seen from its caller *)

Lemma positions_count (t : Z) (tags : list Z) :
  length (positions t tags) = count_occ Z.eq_dec tags t.
Proof.
  induction tags as [|x prefix IH] using rev_ind; [reflexivity|].
  rewrite positions_snoc, length_app, count_occ_app, IH. simpl.
  destruct (Z.eqb_spec x t) as [->|Hne]; destruct (Z.eq_dec _ _); simpl;
    congruence || lia.
Qed.

Lemma StronglySorted_snoc {A} (R : A -> A -> Prop) (l : list A) (a : A) :
  StronglySorted R l -> Forall (fun x => R x a) l -> StronglySorted R (l ++ [a]).
Proof.
  induction l as [|x l IH]; intros Hsorted Hall; simpl.
  - repeat constructor.
  - apply StronglySorted_inv in Hsorted as [Hl Hx].
    apply Forall_cons in Hall as [Hxa Hall].
    constructor; [apply IH; assumption|].
    apply Forall_app. split; [exact Hx|repeat constructor; exact Hxa].
Qed.

Lemma positions_sorted (t : Z) (tags : list Z) :
  StronglySorted lt (positions t tags).
Proof.
  induction tags as [|x prefix IH] using rev_ind; [constructor|].
  rewrite positions_snoc. destruct (x =? t)%Z.
  - apply StronglySorted_snoc; [exact IH|].
    apply Forall_forall. intros i Hi.
    apply elem_of_positions, lookup_lt_Some in Hi. exact Hi.
  - rewrite app_nil_r. exact IH.
Qed.

(** X24: the dictionary that [get_duplicates] returns has one key for every
    value that occurs at least twice in the sequence, and no other. The
    list of a key holds exactly the indices at which the value occurs, in
    increasing order. A sequence without repetition gives the empty
    dictionary. *)
Theorem get_duplicates_complete (items : list Z) :
  NoDup (map fst (get_duplicates items)) /\
  (forall t, t ∈ map fst (get_duplicates items) <->
             (2 <= count_occ Z.eq_dec items t)%nat) /\
  (forall t locs, (t, locs) ∈ get_duplicates items ->
     (forall i, i ∈ locs <-> items !! i = Some t) /\
     StronglySorted lt locs /\
     length locs = count_occ Z.eq_dec items t) /\
  (NoDup items -> get_duplicates items = []).
Proof.
  destruct (get_duplicates_spec items) as [Hnd Hspec].
  split; [exact Hnd|]. split; [|split].
  - intros t. rewrite <- positions_count. split.
    + intros Hin. apply list_elem_of_fmap in Hin as ([t' locs] & -> & Hin).
      apply Hspec in Hin as [-> Hlen]. exact Hlen.
    + intros Hlen. apply list_elem_of_fmap. exists (t, positions t items).
      split; [reflexivity|]. apply Hspec. split; [reflexivity|exact Hlen].
  - intros t locs Hin. apply Hspec in Hin as [-> _].
    split; [intros i; apply elem_of_positions|].
    split; [apply positions_sorted|apply positions_count].
  - intros Hitems. destruct (get_duplicates items) as [|[t locs] rest];
      [reflexivity|].
    assert (Hin : (t, locs) ∈ (t, locs) :: rest) by left.
    apply Hspec in Hin as [-> Hlen].
    pose proof (positions_unique t items Hitems). lia.
Qed.

(** *** Dictionaries in insertion order *)

Lemma lookup_dict_set_eq {A} (name : string) (v : A) (d : list (string * A)) :
  lookup_column name (dict_set name v d) = Some v.
Proof.
  induction d as [|[k w] d IH]; simpl.
  - rewrite String.eqb_refl. reflexivity.
  - destruct (String.eqb k name) eqn:Hk; simpl; rewrite Hk; [reflexivity|exact IH].
Qed.

Lemma lookup_dict_set_ne {A} (name name' : string) (v : A) (d : list (string * A)) :
  name' <> name ->
  lookup_column name' (dict_set name v d) = lookup_column name' d.
Proof.
  intros Hne. induction d as [|[k w] d IH]; simpl.
  - rewrite (proj2 (String.eqb_neq name name')) by congruence. reflexivity.
  - destruct (String.eqb_spec k name) as [->|Hk]; simpl.
    + rewrite (proj2 (String.eqb_neq name name')) by congruence. reflexivity.
    + rewrite IH. reflexivity.
Qed.

Lemma lookup_filter_ne {A} (name name' : string) (d : list (string * A)) :
  name' <> name ->
  lookup_column name' (List.filter (fun kv => negb (String.eqb (fst kv) name)) d) =
  lookup_column name' d.
Proof.
  intros Hne. induction d as [|[k w] d IH]; simpl; [reflexivity|].
  destruct (String.eqb_spec k name) as [->|Hk]; simpl.
  - rewrite (proj2 (String.eqb_neq name name')) by congruence. exact IH.
  - rewrite IH. reflexivity.
Qed.

Lemma dict_del_inv {A} (name : string) (d d' : list (string * A)) :
  dict_del name d = inr d' ->
  is_Some (lookup_column name d) /\
  forall name', name' <> name -> lookup_column name' d' = lookup_column name' d.
Proof.
  unfold dict_del. destruct (lookup_column name d) as [v|]; [|discriminate].
  intros [= <-]. split; [eauto|]. intros name'. apply lookup_filter_ne.
Qed.

Lemma lookup_column_In {A} (name : string) (v : A) (d : list (string * A)) :
  lookup_column name d = Some v -> In (name, v) d.
Proof.
  induction d as [|[k w] d IH]; simpl; [discriminate|].
  destruct (String.eqb_spec k name) as [->|Hk].
  - intros [= ->]. left. reflexivity.
  - intros Hd. right. apply IH, Hd.
Qed.

Lemma lookup_column_map {A B} (name : string) (f : A -> B) (d : list (string * A)) :
  lookup_column name (map (fun kv => (fst kv, f (snd kv))) d) =
  f <$> lookup_column name d.
Proof.
  induction d as [|[k w] d IH]; simpl; [reflexivity|].
  destruct (String.eqb k name); [reflexivity|exact IH].
Qed.

(** *** The aggregation rules *)

Lemma object_rules_keep (df : frame) (aggrules : list (string * aggrule))
  (name : string) :
  lookup_column name aggrules = Some First ->
  lookup_column name (object_rules df aggrules) = Some First.
Proof.
  unfold object_rules. revert aggrules.
  induction df as [|[k col] df IH]; intros aggrules Hfirst; [exact Hfirst|].
  simpl. apply IH. destruct (is_object col); [|exact Hfirst].
  destruct (String.eqb_spec name k) as [->|Hne].
  - apply lookup_dict_set_eq.
  - rewrite lookup_dict_set_ne by exact Hne. exact Hfirst.
Qed.

Lemma object_rules_first (df : frame) (aggrules : list (string * aggrule))
  (name : string) (col : list cell) :
  In (name, col) df -> is_object col = true ->
  lookup_column name (object_rules df aggrules) = Some First.
Proof.
  unfold object_rules. revert aggrules.
  induction df as [|[k c] df IH]; intros aggrules Hin Hobj; [destruct Hin|].
  simpl. destruct Hin as [[= -> ->]|Hin].
  - rewrite Hobj. apply (object_rules_keep df). apply lookup_dict_set_eq.
  - apply IH; assumption.
Qed.

Lemma object_rules_absent (df : frame) (aggrules : list (string * aggrule))
  (name : string) :
  lookup_column name df = None ->
  lookup_column name (object_rules df aggrules) = lookup_column name aggrules.
Proof.
  unfold object_rules. revert aggrules.
  induction df as [|[k c] df IH]; intros aggrules Hnone; [reflexivity|].
  simpl in *. destruct (String.eqb_spec k name) as [->|Hne]; [discriminate|].
  rewrite IH by exact Hnone.
  destruct (is_object c); [|reflexivity].
  apply lookup_dict_set_ne. congruence.
Qed.

Lemma make_aggrules_inv (df : frame) (combine_rule : aggrule)
  (aggrules : list (string * aggrule)) :
  make_aggrules df combine_rule = inr aggrules ->
  is_Some (lookup_column "indices" df) /\
  is_Some (lookup_column "tags" df) /\
  lookup_column "multiplicity" aggrules = Some Count /\
  lookup_column "labels" aggrules = Some SetOf /\
  lookup_column "tags" aggrules = None /\
  (is_Some (lookup_column "MagresViewLabels" df) ->
   lookup_column "MagresView_labels" aggrules = Some SetOf) /\
  (lookup_column "MagresViewLabels" df = None ->
   forall col, lookup_column "MagresView_labels" df = Some col ->
               is_object col = true ->
               lookup_column "MagresView_labels" aggrules = Some First).
Proof.
  unfold make_aggrules.
  fold (object_rules df (map (fun kv => (fst kv, combine_rule)) df)).
  set (rules0 := object_rules df (map (fun kv => (fst kv, combine_rule)) df)).
  assert (Hsome : forall name, is_Some (lookup_column name rules0) ->
                               is_Some (lookup_column name df)).
  { intros name Hname. destruct (lookup_column name df) eqn:Hdf; [eauto|].
    unfold rules0 in Hname. rewrite object_rules_absent in Hname by exact Hdf.
    rewrite (lookup_column_map name (fun _ => combine_rule)), Hdf in Hname.
    destruct Hname as [? [=]]. }
  destruct (dict_del "indices" rules0) as [e|rules1] eqn:H1; [discriminate|].
  cbn [mbind res_bind].
  destruct (dict_del "tags" rules1) as [e|rules2] eqn:H2; [discriminate|].
  cbn [mbind res_bind]. intros [= <-].
  destruct (dict_del_inv _ _ _ H1) as [Hindices Hkeep1].
  destruct (dict_del_inv _ _ _ H2) as [Htags Hkeep2].
  split; [apply Hsome, Hindices|].
  split; [apply Hsome; rewrite <- Hkeep1 by discriminate; exact Htags|].
  split; [apply lookup_dict_set_eq|].
  assert (Htags2 : lookup_column "tags" rules2 = None).
  { unfold dict_del in H2. destruct (lookup_column "tags" rules1); [|discriminate].
    injection H2 as <-. clear. induction rules1 as [|[k w] d IH]; [reflexivity|].
    simpl. destruct (String.eqb_spec k "tags") as [->|Hk]; simpl; [exact IH|].
    rewrite (proj2 (String.eqb_neq k "tags")) by exact Hk. exact IH. }
  destruct (lookup_column "MagresViewLabels" df) as [mv|] eqn:Hmv.
  - split; [|split; [|split; [|discriminate]]].
    + rewrite !lookup_dict_set_ne by discriminate. apply lookup_dict_set_eq.
    + rewrite !lookup_dict_set_ne by discriminate. exact Htags2.
    + intros _. rewrite lookup_dict_set_ne by discriminate. apply lookup_dict_set_eq.
  - split; [|split; [|split]].
    + rewrite lookup_dict_set_ne by discriminate. apply lookup_dict_set_eq.
    + rewrite !lookup_dict_set_ne by discriminate. exact Htags2.
    + intros [? [=]].
    + intros _ col Hcol Hobj.
      rewrite !lookup_dict_set_ne by discriminate.
      rewrite Hkeep2, Hkeep1 by discriminate.
      apply (object_rules_first df _ _ col); [|exact Hobj].
      apply lookup_column_In, Hcol.
Qed.

(** *** The grouped frame *)

Lemma agg_columns_lookup (df : frame) (tags : list cell) (keys : list Q)
  (aggrules : list (string * aggrule)) (cols : frame) (name : string)
  (rule : aggrule) :
  mapM (fun '(name, rule) =>
          match lookup_column name df with
          | None => inl KeyError
          | Some col =>
              cells ← mapM (fun key => aggregate_cells rule (group_cells tags col key))
                           keys;
              inr (name, cells)
          end) aggrules = inr cols ->
  lookup_column name aggrules = Some rule ->
  exists col cells,
    lookup_column name df = Some col /\
    mapM (fun key => aggregate_cells rule (group_cells tags col key)) keys = inr cells /\
    lookup_column name cols = Some cells.
Proof.
  revert cols. induction aggrules as [|[k r] aggrules IH]; intros cols Hcols Hrule;
    [discriminate|].
  rewrite mapM_res_cons in Hcols.
  destruct (lookup_column k df) as [col|] eqn:Hcol; [|discriminate].
  destruct (mapM (fun key => aggregate_cells r (group_cells tags col key)) keys)
    as [e|cells] eqn:Hcells; [discriminate|].
  cbn [mbind res_bind] in Hcols.
  destruct (mapM _ aggrules) as [e|cols'] eqn:Hrest; [discriminate|].
  injection Hcols as <-. simpl in Hrule. simpl.
  destruct (String.eqb_spec k name) as [->|Hne].
  - injection Hrule as <-. exists col, cells. auto.
  - apply (IH cols' eq_refl Hrule).
Qed.

Lemma groupby_agg_inv (df : frame) (aggrules : list (string * aggrule))
  (df1 : frame) :
  groupby_agg df aggrules = inr df1 ->
  exists tags keys cols,
    lookup_column "tags" df = Some tags /\
    group_keys tags = inr keys /\
    df1 = ("tags", map Num keys) :: cols /\
    forall name rule,
      lookup_column name aggrules = Some rule ->
      exists col cells,
        lookup_column name df = Some col /\
        mapM (fun key => aggregate_cells rule (group_cells tags col key)) keys =
          inr cells /\
        lookup_column name cols = Some cells.
Proof.
  unfold groupby_agg. destruct (lookup_column "tags" df) as [tags|]; [|discriminate].
  destruct (group_keys tags) as [e|keys] eqn:Hkeys; [discriminate|].
  cbn [mbind res_bind].
  destruct (mapM _ aggrules) as [e|cols] eqn:Hcols; [discriminate|].
  intros [= <-]. exists tags, keys, cols.
  split; [reflexivity|]. split; [exact Hkeys|]. split; [reflexivity|].
  intros name rule. apply (agg_columns_lookup df tags keys aggrules cols), Hcols.
Qed.

Lemma apply_column_inv (name : string) (f : cell -> res cell) (df df' : frame) :
  apply_column name f df = inr df' ->
  exists col cells,
    lookup_column name df = Some col /\ mapM f col = inr cells /\
    lookup_column name df' = Some cells /\
    forall name', name' <> name -> lookup_column name' df' = lookup_column name' df.
Proof.
  unfold apply_column. destruct (lookup_column name df) as [col|]; [|discriminate].
  destruct (mapM f col) as [e|cells] eqn:Hcells; [discriminate|]. intros [= <-].
  exists col, cells. split; [reflexivity|]. split; [exact Hcells|].
  split; [apply lookup_dict_set_eq|]. intros name'. apply lookup_dict_set_ne.
Qed.

(** What a successful aggregation went through. *)
Lemma aggregate_inv (df df' : frame) (combine_rule : aggrule) :
  aggregate df combine_rule = inr df' ->
  exists aggrules tags keys cols,
    make_aggrules df combine_rule = inr aggrules /\
    lookup_column "tags" df = Some tags /\
    group_keys tags = inr keys /\
    lookup_column "tags" df' = Some (map Num keys) /\
    is_Some (lookup_column "labels" df) /\
    (forall name rule,
        lookup_column name aggrules = Some rule ->
        exists col cells,
          lookup_column name df = Some col /\
          mapM (fun key => aggregate_cells rule (group_cells tags col key)) keys =
            inr cells /\
          lookup_column name cols = Some cells) /\
    (forall name, name <> "labels" -> name <> "MagresView_labels" -> name <> "tags" ->
                  lookup_column name df' = lookup_column name cols) /\
    (forall cells, lookup_column "MagresView_labels" cols = Some cells ->
       exists cells', mapM (join_cell true) cells = inr cells' /\
                      lookup_column "MagresView_labels" df' = Some cells').
Proof.
  unfold aggregate.
  destruct (make_aggrules df combine_rule) as [e|aggrules] eqn:Hrules; [discriminate|].
  cbn [mbind res_bind].
  destruct (groupby_agg df aggrules) as [e|df1] eqn:Hgroup; [discriminate|].
  cbn [mbind res_bind].
  destruct (apply_column "labels" (join_cell false) df1) as [e|df2] eqn:Hlabels;
    [discriminate|].
  cbn [mbind res_bind]. intros Hlast.
  destruct (groupby_agg_inv _ _ _ Hgroup)
    as (tags & keys & cols & Htags & Hkeys & -> & Hcols).
  destruct (apply_column_inv _ _ _ _ Hlabels) as (lcol & lcells & _ & _ & _ & Hkeep2).
  assert (H1 : forall name, name <> "tags" ->
                 lookup_column name (("tags", map Num keys) :: cols) =
                 lookup_column name cols).
  { intros name Hname. cbn [lookup_column].
    rewrite (proj2 (String.eqb_neq "tags" name)) by congruence. reflexivity. }
  assert (Hlabels_df : is_Some (lookup_column "labels" df)).
  { destruct (make_aggrules_inv _ _ _ Hrules) as (_ & _ & _ & Hset & _).
    destruct (Hcols _ _ Hset) as (col & _ & Hcol & _). rewrite Hcol. eauto. }
  exists aggrules, tags, keys, cols.
  split; [reflexivity|]. split; [exact Htags|]. split; [exact Hkeys|].
  destruct (lookup_column "MagresView_labels" df2) as [mv|] eqn:Hmv.
  - destruct (apply_column_inv _ _ _ _ Hlast) as (col & cells' & Hcol & Hjoin & Hnew & Hkeep3).
    split; [rewrite Hkeep3, Hkeep2 by discriminate; reflexivity|].
    split; [exact Hlabels_df|]. split; [exact Hcols|]. split.
    + intros name Hn1 Hn2 Hn3. rewrite Hkeep3, Hkeep2, H1 by assumption. reflexivity.
    + intros cells Hcells. exists cells'. split; [|exact Hnew].
      rewrite Hkeep2, H1, Hcells in Hcol by discriminate. injection Hcol as <-.
      exact Hjoin.
  - injection Hlast as <-.
    split; [rewrite Hkeep2 by discriminate; reflexivity|].
    split; [exact Hlabels_df|]. split; [exact Hcols|]. split.
    + intros name Hn1 Hn2 Hn3. rewrite Hkeep2, H1 by assumption. reflexivity.
    + intros cells Hcells. rewrite Hkeep2, H1, Hcells in Hmv by discriminate.
      discriminate.
Qed.

(** *** The group keys *)

Lemma tag_numbers_mapM (tags : list cell) (ks : list (list Q)) :
  mapM (fun c => match c with
                 | Num x => inr [x]
                 | NaN => inr []
                 | _ => inl TypeError
                 end) tags = inr ks ->
  List.concat ks = tag_numbers tags /\
  Forall (fun c => match c with Num _ | NaN => True | _ => False end) tags.
Proof.
  revert ks. induction tags as [|c tags IH]; intros ks Hks.
  - injection Hks as <-. split; [reflexivity|constructor].
  - rewrite mapM_res_cons in Hks.
    destruct c as [x| |s|l]; try discriminate;
      destruct (mapM _ tags) as [e|ks'] eqn:Hks'; try discriminate;
      injection Hks as <-; destruct (IH ks' eq_refl) as [Hc Hall];
      (split; [|constructor; [exact I|exact Hall]]);
      unfold tag_numbers; simpl; fold (tag_numbers tags); rewrite Hc; reflexivity.
Qed.

Lemma group_keys_inv (tags : list cell) (keys : list Q) :
  group_keys tags = inr keys ->
  keys = sorted Qle_bool (dedup_Q (tag_numbers tags)) /\
  Forall (fun c => match c with Num _ | NaN => True | _ => False end) tags.
Proof.
  unfold group_keys.
  destruct (mapM _ tags) as [e|ks] eqn:Hks; [discriminate|].
  cbn [mbind res_bind]. intros [= <-].
  destruct (tag_numbers_mapM tags ks Hks) as [-> Hall]. split; [reflexivity|exact Hall].
Qed.

(** The sum over the keys counts every number once. *)
Lemma list_sum_Permutation (l l' : list nat) :
  Permutation l l' -> list_sum l = list_sum l'.
Proof. induction 1; simpl; lia. Qed.

Lemma list_sum_cons (x : nat) (l : list nat) :
  list_sum (x :: l) = (x + list_sum l)%nat.
Proof. reflexivity. Qed.

Lemma Qeq_bool_sym (x y : Q) : Qeq_bool x y = Qeq_bool y x.
Proof.
  apply eq_true_iff_eq. rewrite !Qeq_bool_iff. split; intros Heq; symmetry; exact Heq.
Qed.

Lemma Qeq_bool_trans (x y z : Q) :
  Qeq_bool x y = true -> Qeq_bool y z = true -> Qeq_bool x z = true.
Proof. rewrite !Qeq_bool_iff. intros -> ->. reflexivity. Qed.

Lemma filter_other_key_nil (a k : Q) (l : list Q) :
  Qeq_bool a k = true ->
  List.filter (fun x => Qeq_bool x k) (List.filter (fun x => negb (Qeq_bool x a)) l) = [].
Proof.
  intros Hak. induction l as [|x l IHl]; [reflexivity|].
  simpl. destruct (Qeq_bool x a) eqn:Hxa; simpl; [exact IHl|].
  destruct (Qeq_bool x k) eqn:Hxk; [|exact IHl].
  rewrite Qeq_bool_sym in Hak.
  rewrite (Qeq_bool_trans x k a Hxk Hak) in Hxa. discriminate.
Qed.

Lemma filter_other_key_same (a k : Q) (l : list Q) :
  Qeq_bool a k = false ->
  List.filter (fun x => Qeq_bool x k) (List.filter (fun x => negb (Qeq_bool x a)) l) =
  List.filter (fun x => Qeq_bool x k) l.
Proof.
  intros Hak. induction l as [|x l IHl]; [reflexivity|].
  simpl. destruct (Qeq_bool x k) eqn:Hxk; simpl.
  - destruct (Qeq_bool x a) eqn:Hxa; simpl.
    + rewrite Qeq_bool_sym in Hxa.
      rewrite (Qeq_bool_trans a x k Hxa Hxk) in Hak. discriminate.
    + rewrite Hxk. f_equal. exact IHl.
  - destruct (Qeq_bool x a); simpl; [exact IHl|]. rewrite Hxk. exact IHl.
Qed.

Lemma sum_filtered_keys (a : Q) (ks l : list Q) :
  list_sum (map (fun key => length (List.filter (fun x => Qeq_bool x key) l))
                (List.filter (fun y => negb (Qeq_bool a y)) ks)) =
  list_sum (map (fun key => length (List.filter (fun x => Qeq_bool x key)
                                      (List.filter (fun x => negb (Qeq_bool x a)) l)))
                ks).
Proof.
  induction ks as [|k ks IH]; [reflexivity|].
  simpl. destruct (Qeq_bool a k) eqn:Hak; simpl; rewrite IH.
  - rewrite (filter_other_key_nil a k l Hak). reflexivity.
  - rewrite (filter_other_key_same a k l Hak). reflexivity.
Qed.

Lemma sum_dedup_keys (nums l : list Q) :
  list_sum (map (fun key => length (List.filter (fun x => Qeq_bool x key) l))
                (dedup_Q nums)) =
  length (List.filter (fun x => existsb (Qeq_bool x) nums) l).
Proof.
  revert l. induction nums as [|a nums IH]; intros l.
  - simpl. symmetry. apply length_zero_iff_nil.
    induction l as [|x l IHl]; [reflexivity|exact IHl].
  - cbn [dedup_Q]. rewrite map_cons, list_sum_cons, sum_filtered_keys, IH.
    clear. cbn [existsb]. induction l as [|x l IHl]; [reflexivity|].
    cbn [List.filter]. destruct (Qeq_bool x a); cbn [negb orb List.filter].
    + cbn [length]. rewrite <- IHl. lia.
    + destruct (existsb (Qeq_bool x) nums); cbn [length]; rewrite <- IHl; lia.
Qed.

Lemma tag_count_numbers (tags : list cell) (key : Q) :
  tag_count tags key =
  length (List.filter (fun x => Qeq_bool x key) (tag_numbers tags)).
Proof.
  unfold tag_count, tag_numbers. induction tags as [|c tags IH]; [reflexivity|].
  destruct c as [x| |s|l]; simpl; try exact IH.
  destruct (Qeq_bool x key); simpl; [f_equal|]; exact IH.
Qed.

Lemma tag_numbers_In (tags : list cell) (x : Q) :
  In x (tag_numbers tags) <-> In (Num x) tags.
Proof.
  unfold tag_numbers. induction tags as [|c tags IH]; [reflexivity|].
  destruct c as [y| |s|l]; simpl; rewrite IH.
  - split; (intros [Hx|Hx]; [left; congruence|right; exact Hx]).
  - split; [right; assumption|intros [Hx|Hx]; [discriminate|exact Hx]].
  - split; [right; assumption|intros [Hx|Hx]; [discriminate|exact Hx]].
  - split; [right; assumption|intros [Hx|Hx]; [discriminate|exact Hx]].
Qed.

Lemma tag_numbers_length (tags : list cell) :
  Forall (fun c => match c with Num _ | NaN => True | _ => False end) tags ->
  length (tag_numbers tags) = length (List.filter (fun c => negb (is_null c)) tags).
Proof.
  unfold tag_numbers. induction 1 as [|c tags Hc Hall IH]; [reflexivity|].
  destruct c as [y| |s|l]; simpl; try contradiction; [f_equal|]; exact IH.
Qed.

Lemma dedup_Q_In (nums : list Q) (key : Q) : In key (dedup_Q nums) -> In key nums.
Proof.
  revert key. induction nums as [|a nums IH]; intros key; [intros []|].
  simpl. intros [<-|Hin]; [left; reflexivity|].
  right. apply IH. apply filter_In in Hin as [Hin _]. exact Hin.
Qed.

Lemma dedup_Q_covers (nums : list Q) (x : Q) :
  In x nums -> exists key, In key (dedup_Q nums) /\ Qeq_bool x key = true.
Proof.
  induction nums as [|a nums IH]; [intros []|].
  intros [->|Hin].
  - exists x. split; [left; reflexivity|]. apply Qeq_bool_iff. reflexivity.
  - destruct (IH Hin) as (key & Hkey & Hxk). simpl.
    destruct (Qeq_bool a key) eqn:Hak.
    + exists a. split; [left; reflexivity|].
      rewrite Qeq_bool_sym in Hak. apply (Qeq_bool_trans x key a Hxk Hak).
    + exists key. split; [|exact Hxk]. right. apply filter_In.
      split; [exact Hkey|]. rewrite Hak. reflexivity.
Qed.

Lemma Qle_bool_total (a b : Q) : Qle_bool a b = true \/ Qle_bool b a = true.
Proof.
  rewrite !Qle_bool_iff. destruct (Qlt_le_dec a b) as [Hlt|Hle].
  - left. apply Qlt_le_weak, Hlt.
  - right. exact Hle.
Qed.

Lemma filter_all {A} (p : A -> bool) (l : list A) :
  (forall x, In x l -> p x = true) -> List.filter p l = l.
Proof.
  induction l as [|x l IH]; intros Hall; [reflexivity|].
  simpl. rewrite (Hall x (or_introl eq_refl)). f_equal.
  apply IH. intros y Hy. apply Hall. right. exact Hy.
Qed.

(** What [group_keys] returns: the keys are tags of the column, in
    increasing order, every number of the column is (as a number) one of
    them, and the rows of the keys together are the rows that carry a
    number, each counted once. *)
Lemma group_keys_spec (tags : list cell) (keys : list Q) :
  group_keys tags = inr keys ->
  Sorted (fun a b => Qle_bool a b = true) keys /\
  (forall key, In key keys -> In (Num key) tags /\ (0 < tag_count tags key)%nat) /\
  (forall x, In (Num x) tags -> exists key, In key keys /\ Qeq_bool x key = true) /\
  list_sum (map (tag_count tags) keys) =
    length (List.filter (fun c => negb (is_null c)) tags).
Proof.
  intros Hkeys. destruct (group_keys_inv tags keys Hkeys) as [-> Hall].
  pose proof (sorted_Permutation Qle_bool (dedup_Q (tag_numbers tags))) as Hperm.
  split; [apply sorted_Sorted, Qle_bool_total|]. split; [|split].
  - intros key Hin.
    assert (Hnum : In key (tag_numbers tags)).
    { apply dedup_Q_In. apply (Permutation_in _ Hperm), Hin. }
    split; [apply tag_numbers_In, Hnum|].
    rewrite tag_count_numbers.
    destruct (List.filter (fun x => Qeq_bool x key) (tag_numbers tags)) eqn:Hf;
      [|simpl; lia].
    assert (Hin' : In key (List.filter (fun x => Qeq_bool x key) (tag_numbers tags))).
    { apply filter_In. split; [exact Hnum|]. apply Qeq_bool_iff. reflexivity. }
    rewrite Hf in Hin'. destruct Hin'.
  - intros x Hx. apply tag_numbers_In in Hx.
    destruct (dedup_Q_covers _ x Hx) as (key & Hkey & Hxk).
    exists key. split; [|exact Hxk].
    apply (Permutation_in _ (Permutation_sym Hperm)), Hkey.
  - rewrite (list_sum_Permutation _ _ (Permutation_map (tag_count tags) Hperm)).
    rewrite (map_ext (tag_count tags)
               (fun key => length (List.filter (fun x => Qeq_bool x key)
                                     (tag_numbers tags))))
      by apply tag_count_numbers.
    rewrite sum_dedup_keys, <- tag_numbers_length by exact Hall.
    f_equal. apply filter_all. intros x Hx. apply existsb_exists.
    exists x. split; [exact Hx|]. apply Qeq_bool_iff. reflexivity.
Qed.

(** *** The multiplicity of an aggregated row *)

Lemma group_cells_count (tags col : list cell) (key : Q) :
  length col = length tags ->
  Forall (fun c => is_null c = false) col ->
  length (List.filter (fun c => negb (is_null c)) (group_cells tags col key)) =
  tag_count tags key.
Proof.
  unfold group_cells, tag_count. revert col.
  induction tags as [|t tags IH]; intros col Hlen Hcol; [reflexivity|].
  destruct col as [|c col]; [discriminate|].
  apply Forall_cons in Hcol as [Hc Hcol].
  injection Hlen as Hlen. specialize (IH col Hlen Hcol). simpl in *.
  destruct t as [x| |s|l]; simpl; try exact IH.
  destruct (Qeq_bool x key); simpl; [|exact IH].
  rewrite Hc. simpl. f_equal. exact IH.
Qed.

Lemma group_cells_In (tags col : list cell) (key : Q) (c : cell) :
  In c (group_cells tags col key) -> In c col.
Proof.
  unfold group_cells. intros Hin. apply in_map_iff in Hin as ([t c'] & <- & Hin).
  apply filter_In in Hin as [Hin _].
  apply list_elem_of_In, elem_of_zip_r in Hin. apply list_elem_of_In, Hin.
Qed.

(** X25: when the aggregation of lines 555-581 returns, the new frame has
    one row for every tag of the old one, in increasing order of the tags,
    and the multiplicity of a row is the number of sites that carried its
    tag (the multiplicities before aggregation are not added up, the sites
    are counted). Every site with a tag is counted in exactly one row: the
    multiplicities add up to the number of tagged sites. *)
Theorem aggregate_multiplicity (df df' : frame) (combine_rule : aggrule)
  (tags mult : list cell) :
  aggregate df combine_rule = inr df' ->
  lookup_column "tags" df = Some tags ->
  lookup_column "multiplicity" df = Some mult ->
  length mult = length tags ->
  Forall (fun c => is_null c = false) mult ->
  exists keys,
    group_keys tags = inr keys /\
    lookup_column "tags" df' = Some (map Num keys) /\
    lookup_column "multiplicity" df' =
      Some (map (fun key => Num (inject_Z (Z.of_nat (tag_count tags key)))) keys) /\
    Sorted (fun a b => Qle_bool a b = true) keys /\
    (forall key, In key keys -> In (Num key) tags /\ (0 < tag_count tags key)%nat) /\
    (forall x, In (Num x) tags -> exists key, In key keys /\ Qeq_bool x key = true) /\
    list_sum (map (tag_count tags) keys) =
      length (List.filter (fun c => negb (is_null c)) tags).
Proof.
  intros Hagg Htags Hmult Hlen Hnonnull.
  destruct (aggregate_inv df df' combine_rule Hagg)
    as (aggrules & tags' & keys & cols & Hrules & Htags' & Hkeys & Hnew & _ & Hcols
        & Hkeep & _).
  rewrite Htags in Htags'. injection Htags' as <-.
  destruct (make_aggrules_inv _ _ _ Hrules) as (_ & _ & Hcount & _).
  destruct (Hcols _ _ Hcount) as (col & cells & Hcol & Hcells & Hlookup).
  rewrite Hmult in Hcol. injection Hcol as <-.
  destruct (group_keys_spec tags keys Hkeys) as (Hsorted & Hin & Hcover & Hsum).
  exists keys. split; [exact Hkeys|]. split; [exact Hnew|].
  split; [|split; [exact Hsorted|split; [exact Hin|split; [exact Hcover|exact Hsum]]]].
  rewrite Hkeep, Hlookup by discriminate. f_equal.
  rewrite (mapM_res_map _ (fun key => Num (inject_Z (Z.of_nat (tag_count tags key)))))
    in Hcells.
  - injection Hcells as <-. reflexivity.
  - intros key _. cbn [aggregate_cells].
    rewrite (group_cells_count tags mult key Hlen Hnonnull). reflexivity.
Qed.

Lemma make_aggrules_error (df : frame) (combine_rule : aggrule) (e : exn) :
  make_aggrules df combine_rule = inl e -> e = KeyError.
Proof.
  unfold make_aggrules, dict_del.
  destruct (lookup_column "indices" _); [|intros [= <-]; reflexivity].
  cbn [mbind res_bind].
  destruct (lookup_column "tags" _); [discriminate|intros [= <-]; reflexivity].
Qed.

(** X26: the aggregation needs the columns it names. Without a column
    ["indices"] or without a column ["tags"] it raises a [KeyError] (from
    the two [del]); without a column ["labels"] it raises too; and it
    raises on every frame that has a column ["MagresViewLabels"] but no
    column ["MagresView_labels"], the name under which line 570 files the
    rule. *)
Theorem aggregate_missing_columns (df : frame) (combine_rule : aggrule) :
  (lookup_column "indices" df = None \/ lookup_column "tags" df = None ->
   aggregate df combine_rule = inl KeyError) /\
  (lookup_column "labels" df = None ->
   exists e, aggregate df combine_rule = inl e) /\
  (is_Some (lookup_column "MagresViewLabels" df) ->
   lookup_column "MagresView_labels" df = None ->
   exists e, aggregate df combine_rule = inl e).
Proof.
  split; [|split].
  - intros Hmissing. unfold aggregate.
    destruct (make_aggrules df combine_rule) as [e|aggrules] eqn:Hrules.
    + rewrite (make_aggrules_error _ _ _ Hrules). reflexivity.
    + destruct (make_aggrules_inv _ _ _ Hrules) as ([? Hi] & [? Ht] & _).
      destruct Hmissing; congruence.
  - intros Hlabels. destruct (aggregate df combine_rule) as [e|df'] eqn:Hagg; [eauto|].
    destruct (aggregate_inv df df' combine_rule Hagg)
      as (aggrules & tags & keys & cols & _ & _ & _ & _ & [? Hl] & _).
    congruence.
  - intros Hmv Hnone.
    destruct (aggregate df combine_rule) as [e|df'] eqn:Hagg; [eauto|].
    destruct (aggregate_inv df df' combine_rule Hagg)
      as (aggrules & tags & keys & cols & Hrules & _ & _ & _ & _ & Hcols & _).
    destruct (make_aggrules_inv _ _ _ Hrules) as (_ & _ & _ & _ & _ & Hset & _).
    destruct (Hcols _ _ (Hset Hmv)) as (col & cells & Hcol & _). congruence.
Qed.

(** *** The MagresView labels of an aggregated row *)

Lemma strings_are_objects (col : list cell) :
  col <> [] -> Forall (fun c => exists s, c = Str s) col -> is_object col = true.
Proof.
  intros Hne Hstr. destruct col as [|c col]; [contradiction|].
  apply Forall_cons in Hstr as [[s ->] _]. reflexivity.
Qed.

Lemma first_of_strings (cells : list cell) :
  Forall (fun c => exists s, c = Str s) cells ->
  aggregate_cells First cells = inr (match cells with c :: _ => c | [] => NaN end).
Proof.
  intros Hstr. cbn [aggregate_cells]. rewrite filter_all; [reflexivity|].
  intros c Hc. rewrite Forall_forall in Hstr.
  destruct (Hstr c (proj2 (list_elem_of_In _ _) Hc)) as [s ->]. reflexivity.
Qed.

Lemma join_first_labels (tags col : list cell) (keys : list Q) (cells' : list cell) :
  Forall (fun c => exists s, c = Str s) col ->
  mapM (join_cell true)
       (map (fun key => match group_cells tags col key with
                        | c :: _ => c
                        | [] => NaN
                        end) keys) = inr cells' ->
  Forall (fun key => exists s rest, group_cells tags col key = Str s :: rest) keys /\
  cells' = map (fun key => match group_cells tags col key with
                           | Str s :: _ => Str (join "," (sorted String.leb (chars s)))
                           | _ => NaN
                           end) keys.
Proof.
  intros Hstr. revert cells'. induction keys as [|key keys IH]; intros cells' Hjoin.
  - injection Hjoin as <-. split; [constructor|reflexivity].
  - cbn [map] in Hjoin. rewrite mapM_res_cons in Hjoin.
    destruct (group_cells tags col key) as [|c rest] eqn:Hgroup; [discriminate|].
    assert (Hc : exists s, c = Str s).
    { rewrite Forall_forall in Hstr. apply Hstr, list_elem_of_In.
      apply (group_cells_In tags col key). rewrite Hgroup. left. reflexivity. }
    destruct Hc as [s ->]. cbn [join_cell] in Hjoin.
    destruct (mapM (join_cell true) _) as [e|rest'] eqn:Hrest; [discriminate|].
    injection Hjoin as <-. destruct (IH rest' eq_refl) as [Hall ->].
    split; [constructor; [eauto|exact Hall]|].
    cbn [map]. rewrite Hgroup. reflexivity.
Qed.

(** X27: on a frame with a column ["MagresView_labels"] of strings and no
    column ["MagresViewLabels"] (the frame that [nmr] builds for a file
    without CIF labels), the rule of that column is ['first'], not [set]:
    when the aggregation returns, the MagresView label of a row is the
    label of the first site of its group, cut into its characters, which
    are sorted and joined by commas. *)
Theorem aggregate_magresview_labels (df df' : frame) (combine_rule : aggrule)
  (tags col : list cell) :
  aggregate df combine_rule = inr df' ->
  lookup_column "tags" df = Some tags ->
  lookup_column "MagresView_labels" df = Some col ->
  lookup_column "MagresViewLabels" df = None ->
  col <> [] ->
  Forall (fun c => exists s, c = Str s) col ->
  (lookup_column "MagresView_labels" <$> make_aggrules df combine_rule) =
    inr (Some First) /\
  exists keys,
    group_keys tags = inr keys /\
    Forall (fun key => exists s rest, group_cells tags col key = Str s :: rest) keys /\
    lookup_column "MagresView_labels" df' =
      Some (map (fun key =>
                   match group_cells tags col key with
                   | Str s :: _ => Str (join "," (sorted String.leb (chars s)))
                   | _ => NaN
                   end) keys).
Proof.
  intros Hagg Htags Hcol Hmv Hne Hstr.
  destruct (aggregate_inv df df' combine_rule Hagg)
    as (aggrules & tags' & keys & cols & Hrules & Htags' & Hkeys & _ & _ & Hcols
        & _ & Hjoin).
  rewrite Htags in Htags'. injection Htags' as <-.
  destruct (make_aggrules_inv _ _ _ Hrules) as (_ & _ & _ & _ & _ & _ & Hfirst).
  specialize (Hfirst Hmv col Hcol (strings_are_objects col Hne Hstr)).
  split; [rewrite Hrules; cbn [fmap res_fmap]; rewrite Hfirst; reflexivity|].
  destruct (Hcols _ _ Hfirst) as (col' & cells & Hcol' & Hcells & Hlookup).
  rewrite Hcol in Hcol'. injection Hcol' as <-.
  rewrite (mapM_res_map _ (fun key => match group_cells tags col key with
                                      | c :: _ => c
                                      | [] => NaN
                                      end)) in Hcells.
  2:{ intros key _. apply first_of_strings.
      apply Forall_forall. intros c Hc. rewrite Forall_forall in Hstr.
      apply Hstr, list_elem_of_In, (group_cells_In tags col key), list_elem_of_In, Hc. }
  injection Hcells as <-.
  destruct (Hjoin _ Hlookup) as (cells' & Hcells' & Hnew).
  destruct (join_first_labels tags col keys cells' Hstr Hcells') as [Hall ->].
  exists keys. split; [exact Hkeys|]. split; [exact Hall|exact Hnew].
Qed.

Lemma aggregate_multiplicity_witness :
  exists df' keys,
    aggregate example_frame Mean = inr df' /\
    group_keys [Num 0%Q; Num 0%Q; Num 1%Q; Num 1%Q] = inr keys /\
    lookup_column "multiplicity" df' =
      Some (map (fun key => Num (inject_Z (Z.of_nat
                   (tag_count [Num 0%Q; Num 0%Q; Num 1%Q; Num 1%Q] key)))) keys) /\
    list_sum (map (tag_count [Num 0%Q; Num 0%Q; Num 1%Q; Num 1%Q]) keys) = 4%nat.
Proof.
  destruct (aggregate example_frame Mean) as [e|df'] eqn:Hagg;
    [vm_compute in Hagg; discriminate|].
  destruct (aggregate_multiplicity example_frame df' Mean
              [Num 0%Q; Num 0%Q; Num 1%Q; Num 1%Q]
              [Num 1%Q; Num 1%Q; Num 1%Q; Num 1%Q]
              Hagg eq_refl eq_refl eq_refl ltac:(repeat constructor))
    as (keys & Hkeys & _ & Hmult & _ & _ & _ & Hsum).
  exists df', keys. split; [reflexivity|]. split; [exact Hkeys|].
  split; [exact Hmult|exact Hsum].
Defined.

Lemma aggregate_magresview_labels_witness :
  exists df',
    aggregate example_labelled_frame Mean = inr df' /\
    lookup_column "MagresView_labels" df' = Some [Str "1,H,_"; Str "1,C,_"].
Proof.
  destruct (aggregate example_labelled_frame Mean) as [e|df'] eqn:Hagg;
    [vm_compute in Hagg; discriminate|].
  destruct (aggregate_magresview_labels example_labelled_frame df' Mean
              [Num 0%Q; Num 0%Q; Num 1%Q]
              [Str "H_1"; Str "H_2"; Str "C_1"]
              Hagg eq_refl eq_refl eq_refl ltac:(discriminate)
              ltac:(repeat constructor; eexists; reflexivity))
    as (_ & keys & Hkeys & _ & Hlabels).
  exists df'. split; [reflexivity|].
  vm_compute in Hkeys. injection Hkeys as <-.
  rewrite Hlabels. vm_compute. reflexivity.
Defined.

End NMRScriptFacts.
